(** * County similarity, clustering and spatial-network analysis

    A shallow embedding of [src/clustering.py] and [src/spatial_analysis.py].

    Conventions used throughout.
    - A Python call either returns a value or raises; [Py.outcome] records
      which, an exception being identified by the name of its class (a
      library's own subclass of a built-in exception counts as the built-in
      one).
    - NumPy doubles are modelled by exact rationals extended with the IEEE
      special values ([Np.float]); rounding is not modelled, division by
      zero is.
    - pandas frames are lists of rows in positional order; networkx graphs
      are insertion-ordered adjacency tables, as the library's dict-of-dict.
    - The numerical kernels of scikit-learn and networkx (Lloyd iterations,
      power iteration, square roots) are not part of the repository: they
      are section variables, while the argument validation those libraries
      document is written out. *)

From Stdlib Require Import List ZArith QArith Qminmax Bool String Ascii.
From Stdlib Require Import Lia Lqa Arith Permutation Sorted SetoidList DecimalString.
Import ListNotations.

(* ================================================================== *)
(** * Python outcomes *)
(* ================================================================== *)

Module Py.

Inductive outcome (A : Type) : Type :=
| Return (a : A)
| Raise (cls : string).

Arguments Return {A} a.
Arguments Raise {A} cls.

Definition bind {A B : Type} (c : outcome A) (k : A -> outcome B) : outcome B :=
  match c with
  | Return a => k a
  | Raise cls => Raise cls
  end.

Definition raises {A : Type} (c : outcome A) : Prop :=
  exists cls, c = Raise cls.

Definition returns {A : Type} (c : outcome A) : Prop :=
  exists a, c = Return a.

Definition ValueError : string := "ValueError".
Definition KeyError : string := "KeyError".
Definition IndexError : string := "IndexError".

(** Error classes the specification names.  No such class is defined or
    raised anywhere in the repository's sources. *)
Definition InvalidInputError : string := "InvalidInputError".
Definition InsufficientDataError : string := "InsufficientDataError".

End Py.

Notation "x <- c ;; k" := (Py.bind c (fun x => k))
  (at level 61, c at next level, right associativity).

(* ================================================================== *)
(** * NumPy values and matrices *)
(* ================================================================== *)

Module Np.

(** A double: a finite value, an infinity, or not-a-number. *)
Inductive float : Type :=
| Fin (q : Q)
| PosInf
| NegInf
| NaN.

(** [a / b] on finite operands; IEEE division by zero. *)
Definition fdiv (a b : Q) : float :=
  if Qeq_bool b 0 then
    if Qeq_bool a 0 then NaN
    else if Qle_bool 0 a then PosInf else NegInf
  else Fin (a / b).

(** [1 - x]. *)
Definition one_minus (x : float) : float :=
  match x with
  | Fin q => Fin (1 - q)
  | PosInf => NegInf
  | NegInf => PosInf
  | NaN => NaN
  end.

(** IEEE [==]: not-a-number equals nothing, itself included. *)
Definition feq (x y : float) : Prop :=
  match x, y with
  | Fin a, Fin b => a == b
  | PosInf, PosInf => True
  | NegInf, NegInf => True
  | _, _ => False
  end.

Definition in_unit_interval (x : float) : Prop :=
  match x with
  | Fin q => 0 <= q /\ q <= 1
  | _ => False
  end.

Definition is_zero (x : float) : Prop :=
  match x with
  | Fin q => q == 0
  | _ => False
  end.

Definition matrix (A : Type) : Type := list (list A).

(** Entry [(i, j)], when the position exists. *)
Definition cell {A : Type} (M : matrix A) (i j : nat) : option A :=
  match nth_error M i with
  | Some r => nth_error r j
  | None => None
  end.

Definition flatten {A : Type} (M : matrix A) : list A := concat M.

Definition map_matrix {A B : Type} (f : A -> B) (M : matrix A) : matrix B :=
  map (map f) M.

Definition Qmin2 (a b : Q) : Q := if Qle_bool a b then a else b.
Definition Qmax2 (a b : Q) : Q := if Qle_bool a b then b else a.

(** [a.min()] and [a.max()]: a zero-size array has no minimum, NumPy raises
    ValueError. *)
Definition amin (l : list Q) : Py.outcome Q :=
  match l with
  | [] => Py.Raise Py.ValueError
  | x :: l' => Py.Return (fold_left Qmin2 l' x)
  end.

Definition amax (l : list Q) : Py.outcome Q :=
  match l with
  | [] => Py.Raise Py.ValueError
  | x :: l' => Py.Return (fold_left Qmax2 l' x)
  end.

(** Replace position [i] of a row, when it has one. *)
Fixpoint set_nth {A : Type} (i : nat) (v : A) (r : list A) {struct r} : list A :=
  match r with
  | [] => []
  | x :: r' =>
      match i with
      | O => v :: r'
      | S i' => x :: set_nth i' v r'
      end
  end.

Fixpoint fill_diagonal_from {A : Type} (i : nat) (v : A) (M : matrix A) : matrix A :=
  match M with
  | [] => []
  | r :: M' => set_nth i v r :: fill_diagonal_from (S i) v M'
  end.

(** [np.fill_diagonal(M, v)]: entries [(i, i)] that exist are overwritten. *)
Definition fill_diagonal {A : Type} (v : A) (M : matrix A) : matrix A :=
  fill_diagonal_from 0 v M.

(** Symmetry of a rational matrix, entry by entry. *)
Definition symmetric (M : matrix Q) : Prop :=
  forall i j,
    match cell M i j, cell M j i with
    | Some a, Some b => a == b
    | None, None => True
    | _, _ => False
    end.

(** Symmetry of a matrix of doubles under IEEE equality. *)
Definition fsymmetric (M : matrix float) : Prop :=
  forall i j,
    match cell M i j, cell M j i with
    | Some a, Some b => feq a b
    | None, None => True
    | _, _ => False
    end.

Definition all_cells {A : Type} (P : A -> Prop) (M : matrix A) : Prop :=
  Forall (Forall P) M.

(** Every diagonal position that exists holds zero. *)
Definition zero_diagonal (M : matrix float) : Prop :=
  forall i x, cell M i i = Some x -> is_zero x.

(** ** Lemmas on the matrix helpers *)

Lemma Qmin2_le_l a b : Qmin2 a b <= a.
Proof.
  unfold Qmin2. destruct (Qle_bool a b) eqn:E.
  - apply Qle_refl.
  - apply Qlt_le_weak. apply Qnot_le_lt. intro H.
    apply Qle_bool_iff in H. congruence.
Qed.

Lemma Qmin2_le_r a b : Qmin2 a b <= b.
Proof.
  unfold Qmin2. destruct (Qle_bool a b) eqn:E.
  - now apply Qle_bool_iff.
  - apply Qle_refl.
Qed.

Lemma Qmax2_ge_l a b : a <= Qmax2 a b.
Proof.
  unfold Qmax2. destruct (Qle_bool a b) eqn:E.
  - now apply Qle_bool_iff.
  - apply Qle_refl.
Qed.

Lemma Qmax2_ge_r a b : b <= Qmax2 a b.
Proof.
  unfold Qmax2. destruct (Qle_bool a b) eqn:E.
  - apply Qle_refl.
  - apply Qlt_le_weak. apply Qnot_le_lt. intro H.
    apply Qle_bool_iff in H. congruence.
Qed.

Lemma fold_min_le_acc l : forall x, fold_left Qmin2 l x <= x.
Proof.
  induction l as [|y l IH]; intro x; simpl.
  - apply Qle_refl.
  - eapply Qle_trans; [apply IH | apply Qmin2_le_l].
Qed.

Lemma fold_min_le_in l : forall x y, In y l -> fold_left Qmin2 l x <= y.
Proof.
  induction l as [|z l IH]; intros x y Hin; simpl in *.
  - contradiction.
  - destruct Hin as [->|Hin].
    + eapply Qle_trans; [apply fold_min_le_acc | apply Qmin2_le_r].
    + now apply IH.
Qed.

Lemma fold_max_ge_acc l : forall x, x <= fold_left Qmax2 l x.
Proof.
  induction l as [|y l IH]; intro x; simpl.
  - apply Qle_refl.
  - eapply Qle_trans; [apply Qmax2_ge_l | apply IH].
Qed.

Lemma fold_max_ge_in l : forall x y, In y l -> y <= fold_left Qmax2 l x.
Proof.
  induction l as [|z l IH]; intros x y Hin; simpl in *.
  - contradiction.
  - destruct Hin as [->|Hin].
    + eapply Qle_trans; [apply Qmax2_ge_r | apply fold_max_ge_acc].
    + now apply IH.
Qed.

Lemma amin_lower l lo : amin l = Py.Return lo -> forall x, In x l -> lo <= x.
Proof.
  destruct l as [|y l]; simpl; [discriminate|].
  intros [= <-] x [->|Hin].
  - apply fold_min_le_acc.
  - now apply fold_min_le_in.
Qed.

Lemma amax_upper l hi : amax l = Py.Return hi -> forall x, In x l -> x <= hi.
Proof.
  destruct l as [|y l]; simpl; [discriminate|].
  intros [= <-] x [->|Hin].
  - apply fold_max_ge_acc.
  - now apply fold_max_ge_in.
Qed.

Lemma cell_In {A : Type} (M : matrix A) i j x :
  cell M i j = Some x -> In x (flatten M).
Proof.
  unfold cell, flatten. destruct (nth_error M i) as [r|] eqn:Hr; [|discriminate].
  intro Hx. apply in_concat. exists r. split; eapply nth_error_In; eauto.
Qed.

Lemma cell_map_matrix {A B : Type} (f : A -> B) (M : matrix A) i j :
  cell (map_matrix f M) i j = option_map f (cell M i j).
Proof.
  unfold cell, map_matrix. rewrite nth_error_map.
  destruct (nth_error M i) as [r|]; simpl; [|reflexivity].
  apply nth_error_map.
Qed.

Lemma nth_error_set_nth {A : Type} (v : A) r : forall i j,
  nth_error (set_nth i v r) j =
  if Nat.eqb j i then option_map (fun _ => v) (nth_error r j) else nth_error r j.
Proof.
  induction r as [|x r IH]; intros i j.
  - destruct (Nat.eqb j i); destruct j; reflexivity.
  - destruct i, j; simpl; try reflexivity. apply IH.
Qed.

Lemma cell_fill_diagonal_from {A : Type} (v : A) M : forall k i j,
  cell (fill_diagonal_from k v M) i j =
  if Nat.eqb j (k + i) then option_map (fun _ => v) (cell M i j) else cell M i j.
Proof.
  induction M as [|r M IH]; intros k i j.
  - unfold cell. destruct (Nat.eqb j (k + i)); destruct i; reflexivity.
  - destruct i.
    + unfold cell. simpl. rewrite Nat.add_0_r. apply nth_error_set_nth.
    + change (cell (fill_diagonal_from k v (r :: M)) (S i) j)
        with (cell (fill_diagonal_from (S k) v M) i j).
      rewrite IH. replace (S k + i)%nat with (k + S i)%nat by lia. reflexivity.
Qed.

Lemma cell_fill_diagonal {A : Type} (v : A) (M : matrix A) i j :
  cell (fill_diagonal v M) i j =
  if Nat.eqb j i then option_map (fun _ => v) (cell M i j) else cell M i j.
Proof. unfold fill_diagonal. now rewrite cell_fill_diagonal_from. Qed.

Lemma all_cells_cell {A : Type} (P : A -> Prop) (M : matrix A) :
  all_cells P M <-> (forall i j x, cell M i j = Some x -> P x).
Proof.
  unfold all_cells, cell. split.
  - intros H i j x. destruct (nth_error M i) as [r|] eqn:Hr; [|discriminate].
    intro Hx. apply nth_error_In in Hr, Hx.
    rewrite Forall_forall in H. specialize (H r Hr).
    rewrite Forall_forall in H. now apply H.
  - intro H. apply Forall_forall. intros r Hr. apply Forall_forall. intros x Hx.
    apply In_nth_error in Hr, Hx. destruct Hr as [i Hi], Hx as [j Hj].
    apply (H i j). now rewrite Hi.
Qed.

End Np.

(* ================================================================== *)
(** * Formatting county identifiers *)
(* ================================================================== *)

Module Fmt.

Local Open Scope string_scope.

(** [str(n)] for a natural number. *)
Definition digits (n : N) : string :=
  DecimalString.NilZero.string_of_uint (N.to_uint n).

Fixpoint zeros (k : nat) : string :=
  match k with
  | O => ""
  | S k' => String "0" (zeros k')
  end.

(** Pad on the left with ["0"] up to [width] characters. *)
Definition pad0 (width : nat) (s : string) : string :=
  zeros (width - String.length s) ++ s.

(** [str(z)] for an integer. *)
Definition str (z : Z) : string :=
  if (z <? 0)%Z then "-" ++ digits (Z.abs_N z) else digits (Z.to_N z).

(** The format specification [0<width>d]: zero padding goes between the
    sign and the digits, the sign counting towards the width. *)
Definition format_0d (width : nat) (z : Z) : string :=
  if (z <? 0)%Z then "-" ++ pad0 (width - 1) (digits (Z.abs_N z))
  else pad0 width (digits (Z.to_N z)).

(** [f"{int(x[0]):02d}{int(x[1]):03d}"] on a (state, county) key. *)
Definition geoid_of_key (x : Z * Z) : string :=
  format_0d 2 (fst x) ++ format_0d 3 (snd x).

End Fmt.

(* ================================================================== *)
(** * scikit-learn: argument validation around abstract kernels *)
(* ================================================================== *)

Module Sklearn.

Import Py Np.

Definition finite (x : float) : option Q :=
  match x with
  | Fin q => Some q
  | _ => None
  end.

Fixpoint finite_row (r : list float) : option (list Q) :=
  match r with
  | [] => Some []
  | x :: r' =>
      match finite x, finite_row r' with
      | Some q, Some qs => Some (q :: qs)
      | _, _ => None
      end
  end.

Fixpoint finite_matrix (X : matrix float) : option (matrix Q) :=
  match X with
  | [] => Some []
  | r :: X' =>
      match finite_row r, finite_matrix X' with
      | Some qs, Some M => Some (qs :: M)
      | _, _ => None
      end
  end.

Definition n_samples {A : Type} (X : matrix A) : nat := length X.

Definition n_features {A : Type} (X : matrix A) : nat :=
  match X with
  | [] => O
  | r :: _ => length r
  end.

(** [check_array]: at least one sample and one feature, no NaN and no
    infinity; each violation is a ValueError. *)
Definition check_array (X : matrix float) : outcome (matrix Q) :=
  if Nat.eqb (n_samples X) 0 then Raise ValueError
  else if Nat.eqb (n_features X) 0 then Raise ValueError
  else match finite_matrix X with
       | Some M => Return M
       | None => Raise ValueError
       end.

Definition Qsum (l : list Q) : Q := fold_right Qplus 0 l.

Definition mean (l : list Q) : Q := Qsum l / inject_Z (Z.of_nat (length l)).

(** Population variance, as [StandardScaler] computes it. *)
Definition variance (l : list Q) : Q :=
  mean (map (fun x => (x - mean l) * (x - mean l)) l).

Definition column (j : nat) (X : matrix Q) : list Q :=
  map (fun r => nth j r 0) X.

Definition dot (u v : list Q) : Q :=
  Qsum (map (fun p => fst p * snd p) (combine u v)).

(** A square root on the rationals for evaluating examples: rounded up on
    the grid of the argument's denominator, exact on squares, positive on
    positive arguments. *)
Definition sqrt_up (q : Q) : Q :=
  Z.sqrt_up (Qnum q * Zpos (Qden q)) # Qden q.

Definition has_zero_variance_column (X : matrix Q) : Prop :=
  exists j, (j < n_features X)%nat /\ variance (column j X) == 0.

Section Kernels.

(** [np.sqrt] on a non-negative finite value. *)
Variable sqrt : Q -> Q.

(** The fit of [KMeans(n_clusters=k, random_state=42)] on validated data:
    the label of every sample and the inertia. *)
Variable lloyd : Z -> matrix Q -> list Z * Q.

(** The mean silhouette coefficient of validated data and labels. *)
Variable silhouette_value : matrix Q -> list Z -> Q.

(** The divisor [StandardScaler] uses for a column: the standard deviation,
    replaced by 1 for a constant column. *)
Definition scale_of (c : list Q) : Q :=
  if Qeq_bool (variance c) 0 then 1 else sqrt (variance c).

Definition column_stats (X : matrix Q) : list (Q * Q) :=
  map (fun j => (mean (column j X), scale_of (column j X)))
      (seq 0 (n_features X)).

Definition standardize_row (stats : list (Q * Q)) (r : list Q) : list float :=
  map (fun p => fdiv (fst p - fst (snd p)) (snd (snd p))) (combine r stats).

(** [StandardScaler().fit_transform(X)]. *)
Definition StandardScaler_fit_transform (X : matrix Q) : outcome (matrix float) :=
  if Nat.eqb (n_samples X) 0 then Raise ValueError
  else if Nat.eqb (n_features X) 0 then Raise ValueError
  else Return (map (standardize_row (column_stats X)) X).

(** Row normalisation of [cosine_similarity]: a zero norm is replaced by 1. *)
Definition normalize_row (r : list Q) : list Q :=
  let norm := sqrt (dot r r) in
  let norm := if Qeq_bool norm 0 then 1 else norm in
  map (fun x => x / norm) r.

(** [cosine_similarity(X)]. *)
Definition cosine_similarity (X : matrix float) : outcome (matrix Q) :=
  M <- check_array X ;;
  let unit_rows := map normalize_row M in
  Return (map (fun u => map (fun v => dot u v) unit_rows) unit_rows).

(** [KMeans(n_clusters=k, random_state=42).fit_predict(X)] together with
    the [inertia_] attribute it leaves behind. *)
Definition KMeans_fit_predict (k : Z) (X : matrix float) : outcome (list Z * Q) :=
  if (k <? 1)%Z then Raise ValueError
  else
    M <- check_array X ;;
    if (Z.of_nat (n_samples M) <? k)%Z then Raise ValueError
    else Return (lloyd k M).

Definition zero_diagonalb (M : matrix Q) : bool :=
  forallb (fun i => match cell M i i with
                    | Some q => Qeq_bool q 0
                    | None => true
                    end) (seq 0 (n_samples M)).

Definition n_labels (labels : list Z) : nat := length (nodup Z.eq_dec labels).

(** [silhouette_score(X, labels, metric='precomputed')]: the matrix must be
    square with a zero diagonal, and the number of distinct labels must lie
    strictly between 1 and the number of samples. *)
Definition silhouette_score_precomputed (X : matrix float) (labels : list Z)
  : outcome Q :=
  M <- check_array X ;;
  if negb (Nat.eqb (n_samples M) (n_features M)) then Raise ValueError
  else if negb (zero_diagonalb M) then Raise ValueError
  else if negb (Nat.ltb 1 (n_labels labels) && Nat.ltb (n_labels labels) (n_samples M))
  then Raise ValueError
  else Return (silhouette_value M labels).

End Kernels.

End Sklearn.


(* ================================================================== *)
(** * A reference sorting procedure *)
(* ================================================================== *)

Module Sort.

Section Insertion.

Context {A : Type} (leb : A -> A -> bool).

Fixpoint insert (x : A) (l : list A) : list A :=
  match l with
  | [] => [x]
  | y :: l' => if leb x y then x :: l else y :: insert x l'
  end.

Definition insertion_sort (l : list A) : list A := fold_right insert [] l.

Lemma insert_perm x l : Permutation (insert x l) (x :: l).
Proof.
  induction l as [|y l IH]; simpl.
  - apply Permutation_refl.
  - destruct (leb x y).
    + apply Permutation_refl.
    + eapply perm_trans; [apply perm_skip, IH | apply perm_swap].
Qed.

Lemma insertion_sort_perm l : Permutation (insertion_sort l) l.
Proof.
  induction l as [|x l IH]; simpl.
  - constructor.
  - eapply perm_trans; [apply insert_perm | now apply perm_skip].
Qed.

Hypothesis leb_total : forall a b, leb a b = false -> leb b a = true.
Hypothesis leb_trans :
  forall a b c, leb a b = true -> leb b c = true -> leb a c = true.

Lemma insert_sorted x l :
  StronglySorted (fun a b => leb a b = true) l ->
  StronglySorted (fun a b => leb a b = true) (insert x l).
Proof.
  induction 1 as [|y l Hs IH Hy]; simpl.
  - constructor; constructor.
  - destruct (leb x y) eqn:E.
    + constructor; [now constructor|].
      constructor; [exact E|].
      eapply Forall_impl; [|exact Hy]. intros z Hz. now apply leb_trans with y.
    + constructor; [exact IH|].
      apply (Permutation_Forall (Permutation_sym (insert_perm x l))).
      constructor; [now apply leb_total | exact Hy].
Qed.

Lemma insertion_sort_sorted l :
  StronglySorted (fun a b => leb a b = true) (insertion_sort l).
Proof.
  induction l as [|x l IH]; simpl.
  - constructor.
  - now apply insert_sorted.
Qed.

End Insertion.

End Sort.

(* ================================================================== *)
(** * pandas frames with named columns *)
(* ================================================================== *)

Module Frame.

Import Py.

(** A cell of an untyped column. *)
Inductive value : Type :=
| VInt (z : Z)
| VStr (s : string)
| VNum (q : Q).

Definition series : Type := list value.

(** A frame: its columns in order, each a name and the entries by row. *)
Definition frame : Type := list (string * series).

Fixpoint lookup (df : frame) (name : string) : option series :=
  match df with
  | [] => None
  | (n, c) :: df' => if String.eqb n name then Some c else lookup df' name
  end.

(** [df[name]]. *)
Definition getitem (df : frame) (name : string) : outcome series :=
  match lookup df name with
  | Some c => Return c
  | None => Raise KeyError
  end.

(** [df[name] = c], performed on the object [df] itself: an existing
    column is overwritten in place, a new one is appended. *)
Fixpoint setitem (df : frame) (name : string) (c : series) : frame :=
  match df with
  | [] => [(name, c)]
  | (n, old) :: df' =>
      if String.eqb n name then (n, c) :: df'
      else (n, old) :: setitem df' name c
  end.

Definition n_rows (df : frame) : nat :=
  match df with
  | [] => O
  | (_, c) :: _ => length c
  end.

(** The numeric reading of a cell; text has none. *)
Definition to_number (v : value) : option Q :=
  match v with
  | VInt z => Some (inject_Z z)
  | VNum q => Some q
  | VStr _ => None
  end.

Lemma lookup_setitem_same df name c : lookup (setitem df name c) name = Some c.
Proof.
  induction df as [|[n old] df IH]; simpl.
  - now rewrite String.eqb_refl.
  - destruct (String.eqb n name) eqn:E; simpl; rewrite E; [reflexivity | exact IH].
Qed.

Lemma setitem_new_column df name c :
  lookup df name = None -> setitem df name c = df ++ [(name, c)].
Proof.
  induction df as [|[n old] df IH]; simpl; intro H.
  - reflexivity.
  - destruct (String.eqb n name); [discriminate|]. now rewrite IH.
Qed.

End Frame.

(* ================================================================== *)
(** * networkx graphs *)
(* ================================================================== *)

Module Nx.

(** A county key, the node type of both graphs: (state, county). *)
Definition node : Type := (Z * Z)%type.

Definition node_eqb (a b : node) : bool :=
  ((fst a =? fst b)%Z && (snd a =? snd b)%Z)%bool.

Lemma node_eqb_eq a b : node_eqb a b = true <-> a = b.
Proof.
  destruct a as [a1 a2], b as [b1 b2]. unfold node_eqb. simpl.
  rewrite andb_true_iff, !Z.eqb_eq. split.
  - intros [-> ->]. reflexivity.
  - intros [= -> ->]. split; reflexivity.
Qed.

Lemma node_eqb_refl a : node_eqb a a = true.
Proof. now apply node_eqb_eq. Qed.

Lemma node_eqb_neq a b : node_eqb a b = false <-> a <> b.
Proof.
  rewrite <- node_eqb_eq. destruct (node_eqb a b); split; congruence.
Qed.

Lemma node_eqb_sym a b : node_eqb a b = node_eqb b a.
Proof.
  destruct (node_eqb a b) eqn:E.
  - apply node_eqb_eq in E. subst. now rewrite node_eqb_refl.
  - destruct (node_eqb b a) eqn:E'; [|reflexivity].
    apply node_eqb_eq in E'. subst. now rewrite node_eqb_refl in E.
Qed.

(** ** Insertion-ordered dictionaries keyed by nodes *)

Section Dict.

Context {V : Type}.

Definition dict : Type := list (node * V).

Fixpoint get (d : dict) (k : node) : option V :=
  match d with
  | [] => None
  | (k', v) :: d' => if node_eqb k' k then Some v else get d' k
  end.

(** [d[k] = v]: an existing key keeps its place, a new one goes last. *)
Fixpoint set (d : dict) (k : node) (v : V) : dict :=
  match d with
  | [] => [(k, v)]
  | (k', v') :: d' =>
      if node_eqb k' k then (k', v) :: d' else (k', v') :: set d' k v
  end.

Definition mem (d : dict) (k : node) : bool :=
  match get d k with
  | Some _ => true
  | None => false
  end.

Definition keys (d : dict) : list node := map fst d.

Lemma get_set (d : dict) k v k' :
  get (set d k v) k' = if node_eqb k k' then Some v else get d k'.
Proof.
  induction d as [|[k0 v0] d IH]; simpl.
  - reflexivity.
  - destruct (node_eqb k0 k) eqn:E; simpl.
    + apply node_eqb_eq in E. subst k0.
      now destruct (node_eqb k k').
    + destruct (node_eqb k0 k') eqn:E'; [|exact IH].
      apply node_eqb_eq in E'. subst k0.
      rewrite node_eqb_sym in E. now rewrite E.
Qed.

Lemma get_In (d : dict) k v : get d k = Some v -> In (k, v) d.
Proof.
  induction d as [|[k0 v0] d IH]; simpl; [discriminate|].
  destruct (node_eqb k0 k) eqn:E.
  - apply node_eqb_eq in E. subst. intros [= ->]. now left.
  - intro H. right. now apply IH.
Qed.

Lemma get_None_notin (d : dict) k : get d k = None -> ~ In k (keys d).
Proof.
  induction d as [|[k0 v0] d IH]; simpl; [tauto|].
  destruct (node_eqb k0 k) eqn:E; [discriminate|].
  apply node_eqb_neq in E. intros H [H'|H']; [congruence | now apply IH].
Qed.

Lemma In_get (d : dict) k v : NoDup (keys d) -> In (k, v) d -> get d k = Some v.
Proof.
  induction d as [|[k0 v0] d IH]; simpl; [tauto|].
  intros Hnd [H|H].
  - inversion H; subst. now rewrite node_eqb_refl.
  - inversion Hnd as [|? ? Hnotin Hnd']; subst.
    destruct (node_eqb k0 k) eqn:E.
    + apply node_eqb_eq in E. subst. exfalso. apply Hnotin.
      apply in_map_iff. now exists (k, v).
    + now apply IH.
Qed.

Lemma keys_set (d : dict) k v :
  keys (set d k v) = if mem d k then keys d else keys d ++ [k].
Proof.
  unfold mem. induction d as [|[k0 v0] d IH]; simpl.
  - reflexivity.
  - destruct (node_eqb k0 k) eqn:E; simpl; [reflexivity|].
    rewrite IH. now destruct (get d k).
Qed.

Lemma keys_set_NoDup (d : dict) k v : NoDup (keys d) -> NoDup (keys (set d k v)).
Proof.
  intro H. rewrite keys_set. unfold mem.
  destruct (get d k) eqn:E; [exact H|].
  apply get_None_notin in E.
  apply NoDup_rev in H. rewrite <- (rev_involutive (keys d ++ [k])).
  apply NoDup_rev. rewrite rev_app_distr. simpl. constructor; [|exact H].
  now rewrite <- in_rev.
Qed.

Lemma Forall_set (P : V -> Prop) (d : dict) k v :
  Forall (fun e => P (snd e)) d -> P v ->
  Forall (fun e => P (snd e)) (set d k v).
Proof.
  intros Hd Hv. induction Hd as [|[k0 v0] d H0 Hd IH]; simpl.
  - constructor; [exact Hv | constructor].
  - destruct (node_eqb k0 k); constructor; auto.
Qed.

Lemma get_Forall (P : V -> Prop) (d : dict) k v :
  Forall (fun e => P (snd e)) d -> get d k = Some v -> P v.
Proof.
  intros Hd Hg. apply get_In in Hg.
  rewrite Forall_forall in Hd. exact (Hd _ Hg).
Qed.

(** With distinct keys the entries under one key are the one [get] finds. *)
Lemma filter_key (d : dict) k :
  NoDup (keys d) ->
  filter (fun e => node_eqb (fst e) k) d
  = match get d k with
    | Some v => [(k, v)]
    | None => []
    end.
Proof.
  induction d as [|[k0 v0] d IH]; simpl; intro Hnd; [reflexivity|].
  inversion Hnd as [|? ? Hnotin Hnd']; subst.
  destruct (node_eqb k0 k) eqn:E.
  - apply node_eqb_eq in E. subst k0. f_equal.
    rewrite IH by exact Hnd'.
    destruct (get d k) as [v|] eqn:Hg; [|reflexivity].
    exfalso. apply Hnotin. apply get_In in Hg.
    apply in_map_iff. now exists (k, v).
  - now apply IH.
Qed.

End Dict.

(** ** Graphs

    Both graph classes keep, for every node, the dictionary of its
    neighbours (successors, for a directed graph) with the attributes of
    the edge; nodes and neighbours are in insertion order. *)

Definition adjacency (W : Type) : Type := @dict (@dict W).

Section Graphs.

Context {W : Type}.

Definition neighbors (G : adjacency W) (n : node) : @dict W :=
  match get G n with
  | Some d => d
  | None => []
  end.

(** [G.add_node(n)]. *)
Definition add_node (G : adjacency W) (n : node) : adjacency W :=
  if mem G n then G else set G n [].

(** [G.has_edge(u, v)]. *)
Definition has_edge (G : adjacency W) (u v : node) : bool :=
  match get G u with
  | Some d => mem d v
  | None => false
  end.

(** The attributes of edge [(u, v)], when the graph has it. *)
Definition get_edge (G : adjacency W) (u v : node) : option W :=
  get (neighbors G u) v.

(** [nx.Graph.add_edge(u, v)] with attributes [w]: both endpoints become
    nodes and each is entered among the other's neighbours. *)
Definition Graph_add_edge (G : adjacency W) (u v : node) (w : W) : adjacency W :=
  let G := add_node (add_node G u) v in
  let G := set G u (set (neighbors G u) v w) in
  set G v (set (neighbors G v) u w).

(** [nx.DiGraph.add_edge(u, v, weight=w)]: both endpoints become nodes and
    [v] is entered, or its weight overwritten, among the successors of [u]. *)
Definition DiGraph_add_edge (G : adjacency W) (u v : node) (w : W) : adjacency W :=
  let G := add_node (add_node G u) v in
  set G u (set (neighbors G u) v w).

(** [G.degree]: for every node the number of neighbours, a self-loop
    counting twice. *)
Definition degree_view (G : adjacency W) : list (node * nat) :=
  map (fun e => (fst e, (length (snd e) + if mem (snd e) (fst e) then 1 else 0)%nat)) G.

(** All directed edges with their attributes. *)
Definition edges (G : adjacency W) : list ((node * node) * W) :=
  flat_map (fun e => map (fun x => ((fst e, fst x), snd x)) (snd e)) G.

Definition edges_between (G : adjacency W) (u v : node) : list ((node * node) * W) :=
  filter (fun e => (node_eqb (fst (fst e)) u && node_eqb (snd (fst e)) v)%bool)
         (edges G).

(** The representation invariant of a graph object: no node and no
    neighbour is entered twice. *)
Definition graph_wf (G : adjacency W) : Prop :=
  NoDup (keys G) /\ Forall (fun e => NoDup (keys (snd e))) G.

Lemma neighbors_add_node G n a : neighbors (add_node G n) a = neighbors G a.
Proof.
  unfold add_node, neighbors, mem. destruct (get G n) eqn:E; [reflexivity|].
  rewrite get_set. destruct (node_eqb n a) eqn:E'; [|reflexivity].
  apply node_eqb_eq in E'. subst. now rewrite E.
Qed.

Lemma mem_add_node G n a : mem (add_node G n) a = (node_eqb n a || mem G a)%bool.
Proof.
  unfold add_node, mem. destruct (get G n) eqn:E.
  - destruct (node_eqb n a) eqn:E'; [|reflexivity].
    apply node_eqb_eq in E'. subst. now rewrite E.
  - rewrite get_set. now destruct (node_eqb n a).
Qed.

Lemma add_node_wf G n : graph_wf G -> graph_wf (add_node G n).
Proof.
  intros [Hk Hv]. unfold add_node. destruct (mem G n); [now split|].
  split; [now apply keys_set_NoDup|].
  apply (Forall_set (fun d => NoDup (keys d))); [exact Hv | constructor].
Qed.

Lemma neighbors_wf G n : graph_wf G -> NoDup (keys (neighbors G n)).
Proof.
  intros [_ Hv]. unfold neighbors. destruct (get G n) eqn:E; [|constructor].
  exact (get_Forall (fun d => NoDup (keys d)) _ _ _ Hv E).
Qed.

Lemma set_neighbors_wf G u v w :
  graph_wf G -> graph_wf (set G u (set (neighbors G u) v w)).
Proof.
  intros HG. pose proof (neighbors_wf G u HG) as Hn. destruct HG as [Hk Hv].
  split; [now apply keys_set_NoDup|].
  apply (Forall_set (fun d => NoDup (keys d))); [exact Hv|].
  now apply keys_set_NoDup.
Qed.

Lemma Graph_add_edge_wf G u v w : graph_wf G -> graph_wf (Graph_add_edge G u v w).
Proof.
  intro H. unfold Graph_add_edge.
  apply set_neighbors_wf, set_neighbors_wf, add_node_wf, add_node_wf, H.
Qed.

Lemma DiGraph_add_edge_wf G u v w :
  graph_wf G -> graph_wf (DiGraph_add_edge G u v w).
Proof.
  intro H. unfold DiGraph_add_edge.
  apply set_neighbors_wf, add_node_wf, add_node_wf, H.
Qed.

Lemma neighbors_set G u d a :
  neighbors (set G u d) a = if node_eqb u a then d else neighbors G a.
Proof.
  unfold neighbors. rewrite get_set. now destruct (node_eqb u a).
Qed.

Lemma get_edge_DiGraph_add_edge G u v w a b :
  get_edge (DiGraph_add_edge G u v w) a b
  = if (node_eqb u a && node_eqb v b)%bool then Some w else get_edge G a b.
Proof.
  unfold get_edge, DiGraph_add_edge. rewrite neighbors_set.
  destruct (node_eqb u a) eqn:E; simpl.
  - rewrite get_set. apply node_eqb_eq in E. subst a.
    now rewrite !neighbors_add_node.
  - now rewrite !neighbors_add_node.
Qed.

Lemma get_edge_Graph_add_edge G u v w a b :
  get_edge (Graph_add_edge G u v w) a b
  = if ((node_eqb u a && node_eqb v b) || (node_eqb v a && node_eqb u b))%bool
    then Some w else get_edge G a b.
Proof.
  unfold get_edge, Graph_add_edge. rewrite !neighbors_set, !neighbors_add_node.
  destruct (node_eqb v a) eqn:Ev, (node_eqb u a) eqn:Eu;
    try (apply node_eqb_eq in Ev; subst a);
    try (apply node_eqb_eq in Eu; try subst a; try subst v);
    rewrite ?node_eqb_refl, ?get_set; cbn [andb orb];
    try reflexivity.
  - now destruct (node_eqb u b).
  - rewrite Eu. now destruct (node_eqb u b).
  - now rewrite orb_false_r.
Qed.

Lemma has_edge_get_edge G u v :
  has_edge G u v = match get_edge G u v with Some _ => true | None => false end.
Proof.
  unfold has_edge, get_edge, neighbors, mem. now destruct (get G u).
Qed.

Lemma edges_between_absent G u v :
  ~ In u (keys G) -> edges_between G u v = [].
Proof.
  unfold edges_between, edges. induction G as [|[k d] G IH]; simpl; intro H.
  - reflexivity.
  - rewrite filter_app, IH by tauto. rewrite app_nil_r.
    assert (Hk : node_eqb k u = false) by (apply node_eqb_neq; tauto).
    clear -Hk. induction d as [|[x w] d IH]; simpl; [reflexivity|].
    now rewrite Hk.
Qed.

Lemma edges_from_node (d : @dict W) u v :
  NoDup (keys d) ->
  filter (fun e => (node_eqb (fst (fst e)) u && node_eqb (snd (fst e)) v)%bool)
         (map (fun x => ((u, fst x), snd x)) d)
  = match get d v with
    | Some w => [((u, v), w)]
    | None => []
    end.
Proof.
  induction d as [|[x w] d IH]; simpl; intro Hnd; [reflexivity|].
  inversion Hnd as [|? ? Hnotin Hnd']; subst.
  rewrite node_eqb_refl. simpl.
  destruct (node_eqb x v) eqn:E.
  - apply node_eqb_eq in E. subst x. f_equal.
    rewrite IH by exact Hnd'.
    destruct (get d v) as [w'|] eqn:Hg; [|reflexivity].
    exfalso. apply Hnotin. apply get_In in Hg.
    apply in_map_iff. now exists (v, w').
  - now apply IH.
Qed.

(** In a well-formed graph an ordered pair of nodes carries at most one
    edge: the one [get_edge] finds. *)
Lemma edges_between_get_edge G u v :
  graph_wf G ->
  edges_between G u v
  = match get_edge G u v with
    | Some w => [((u, v), w)]
    | None => []
    end.
Proof.
  unfold get_edge, neighbors.
  induction G as [|[k d] G IH]; intros [Hk Hv]; [reflexivity|].
  inversion Hk as [|? ? Hnotin Hk']; subst.
  inversion Hv as [|? ? Hd Hv']; subst. simpl in Hd.
  unfold edges_between, edges. cbn [flat_map get fst snd].
  rewrite filter_app.
  fold (edges G). fold (edges_between G u v).
  destruct (node_eqb k u) eqn:E.
  - apply node_eqb_eq in E. subst k.
    rewrite edges_between_absent by exact Hnotin. rewrite app_nil_r.
    now apply edges_from_node.
  - rewrite (IH (conj Hk' Hv')).
    replace (filter _ (map _ d)) with (@nil ((node * node) * W)); [reflexivity|].
    clear -E. induction d as [|[x w] d IH]; simpl; [reflexivity|].
    now rewrite E.
Qed.

End Graphs.

End Nx.

(* ================================================================== *)
(** * [src/clustering.py] *)
(* ================================================================== *)

Module Clustering.

Import Py Np.

(** A similarity frame: row labels, column labels, values. *)
Record similarity_frame : Type := {
  index : list string;
  columns : list string;
  values : matrix Q
}.

(** A row of the long table of [get_top_similar_pairs]. *)
Record pair_row : Type := {
  GEOID_1 : string;
  GEOID_2 : string;
  Similarity : Q
}.

(** The result of [evaluate_clustering_performance]. *)
Record metrics : Type := {
  k_values : list Z;
  inertia : list Q;
  silhouette : list Q
}.

(** [similarity_df.unstack()]: one entry per (column, row), columns
    outermost.  A position outside the values, which a frame never has,
    reads 0. *)
Definition unstack (df : similarity_frame) : list pair_row :=
  flat_map
    (fun jc =>
       map (fun ir =>
              {| GEOID_1 := snd jc;
                 GEOID_2 := snd ir;
                 Similarity := match cell (values df) (fst ir) (fst jc) with
                               | Some q => q
                               | None => 0
                               end |})
           (combine (seq 0 (length (index df))) (index df)))
    (combine (seq 0 (length (columns df))) (columns df)).

(** [df.head(n)]: the first [n] rows; all but the last [-n] for negative [n]. *)
Definition head {A : Type} (n : Z) (l : list A) : list A :=
  if (0 <=? n)%Z then firstn (Z.to_nat n) l
  else firstn (length l - Z.to_nat (- n)) l.

Definition ids_differ (t : pair_row) : bool :=
  negb (String.eqb (GEOID_1 t) (GEOID_2 t)).

(** Descending order of similarity. *)
Definition sim_ge (a b : pair_row) : Prop := Similarity b <= Similarity a.

(** What [sort_values(by='Similarity', ascending=False)] promises with the
    default [kind='quicksort']: the rows rearranged into descending order.
    The library documents this kind as not stable. *)
Definition sorts_descending (sorter : list pair_row -> list pair_row) : Prop :=
  forall l, Permutation (sorter l) l /\ StronglySorted sim_ge (sorter l).

(** [a] occurs at a position before one of [b] in [l]. *)
Definition precedes {A : Type} (l : list A) (a b : A) : Prop :=
  exists i j, (i < j)%nat /\ nth_error l i = Some a /\ nth_error l j = Some b.

(** Rows of equal similarity keep the relative order they have in [enum]. *)
Definition keeps_order_of_ties (enum out : list pair_row) : Prop :=
  forall a b, Similarity a == Similarity b ->
              precedes out a b -> precedes enum a b.

(** A sorter meeting [sorts_descending] that places a row after the rows
    of equal similarity already placed: insertion from the right end. *)
Fixpoint insert_desc (x : pair_row) (l : list pair_row) : list pair_row :=
  match l with
  | [] => [x]
  | y :: l' =>
      if Qle_bool (Similarity x) (Similarity y) then y :: insert_desc x l'
      else x :: l
  end.

Definition insertion_sort_desc (l : list pair_row) : list pair_row :=
  fold_right insert_desc [] l.

Section Operations.

(** The kernels of scikit-learn, as in [Sklearn.Kernels]. *)
Variable sqrt : Q -> Q.
Variable lloyd : Z -> matrix Q -> list Z * Q.
Variable silhouette_value : matrix Q -> list Z -> Q.

(** [sort_values(by='Similarity', ascending=False)] on the long table. *)
Variable sort_values_desc : list pair_row -> list pair_row.

(** [calculate_county_similarity]. *)
Definition calculate_county_similarity
  (flattened_features : list ((Z * Z) * list Q)) : outcome similarity_frame :=
  scaled_features <- Sklearn.StandardScaler_fit_transform sqrt
                       (map snd flattened_features) ;;
  similarity <- Sklearn.cosine_similarity sqrt scaled_features ;;
  let state_county_geoids := map (fun x => Fmt.geoid_of_key (fst x))
                                 flattened_features in
  Return {| index := state_county_geoids;
            columns := state_county_geoids;
            values := similarity |}.

(** [get_top_similar_pairs]. *)
Definition get_top_similar_pairs (similarity_df : similarity_frame) (n : Z)
  : list pair_row :=
  let similarity_long := unstack similarity_df in
  head n (sort_values_desc (filter ids_differ similarity_long)).

Fixpoint evaluate_loop (distance_matrix : matrix float) (k_range : list Z)
  (inertia silhouette_scores : list Q) : outcome (list Q * list Q) :=
  match k_range with
  | [] => Return (inertia, silhouette_scores)
  | k :: rest =>
      fit <- Sklearn.KMeans_fit_predict lloyd k distance_matrix ;;
      score <- Sklearn.silhouette_score_precomputed silhouette_value
                 distance_matrix (fst fit) ;;
      evaluate_loop distance_matrix rest
        (inertia ++ [snd fit]) (silhouette_scores ++ [score])
  end.

(** [evaluate_clustering_performance]. *)
Definition evaluate_clustering_performance (distance_matrix : matrix float)
  (k_range : list Z) : outcome metrics :=
  r <- evaluate_loop distance_matrix k_range [] [] ;;
  Return {| k_values := k_range; inertia := fst r; silhouette := snd r |}.

(** Lines 104-108 of [perform_clustering]: the distance matrix handed to
    K-Means. *)
Definition distance_matrix_of (similarity : matrix Q) : outcome (matrix float) :=
  lo <- amin (flatten similarity) ;;
  hi <- amax (flatten similarity) ;;
  let similarity := map_matrix (fun x => fdiv (x - lo) (hi - lo)) similarity in
  let distance_matrix := map_matrix one_minus similarity in
  Return (fill_diagonal (Fin 0) distance_matrix).

(** [perform_clustering]: the (GEOID, Cluster) table, one label per row of
    the similarity frame. *)
Definition perform_clustering (similarity_df : similarity_frame) (n_clusters : Z)
  : outcome (list (string * Z)) :=
  distance_matrix <- distance_matrix_of (values similarity_df) ;;
  fit <- Sklearn.KMeans_fit_predict lloyd n_clusters distance_matrix ;;
  Return (combine (index similarity_df) (fst fit)).

End Operations.

Section Characteristics.

Import Frame.

(** [str(x)] of a double, as [astype(str)] renders it. *)
Variable repr_float : Q -> string.

(** [Series.astype(str)]. *)
Definition astype_str (v : value) : string :=
  match v with
  | VInt z => Fmt.str z
  | VStr s => s
  | VNum q => repr_float q
  end.

(** [data['STATE'].astype(str).str.zfill(2) + data['COUNTY'].astype(str).str.zfill(3)]. *)
Definition geoid_series (state county : series) : series :=
  map (fun sc => VStr (Fmt.pad0 2 (astype_str (fst sc))
                       ++ Fmt.pad0 3 (astype_str (snd sc))))
      (combine state county).

(** The rows of [data.merge(clustered_df, on='GEOID', how='inner')]: for
    every row of [data], in order, the clusters of the rows of
    [clustered_df] with the same identifier; each kept row is named by its
    position in [data]. *)
Definition merge_inner (geoids : series) (clustered_df : list (string * Z))
  : list (nat * Z) :=
  flat_map
    (fun ig =>
       map (fun gc => (fst ig, snd gc))
           (filter (fun gc => match snd ig with
                              | VStr g => String.eqb g (fst gc)
                              | _ => false
                              end) clustered_df))
    (combine (seq 0 (length geoids)) geoids).

Fixpoint insert_cluster (c : Z) (l : list Z) : list Z :=
  match l with
  | [] => [c]
  | d :: l' =>
      if (c <? d)%Z then c :: l
      else if (c =? d)%Z then l
      else d :: insert_cluster c l'
  end.

(** The group keys of [groupby('Cluster')]: distinct and ascending. *)
Definition group_keys (merged : list (nat * Z)) : list Z :=
  fold_right insert_cluster [] (map snd merged).

Fixpoint numbers (vs : list value) : outcome (list Q) :=
  match vs with
  | [] => Return []
  | v :: vs' =>
      match to_number v with
      | Some q => qs <- numbers vs' ;; Return (q :: qs)
      | None => Raise "TypeError"%string
      end
  end.

(** The mean of one feature column over the rows of one cluster. *)
Definition cluster_mean (column : series) (merged : list (nat * Z)) (c : Z)
  : outcome Q :=
  qs <- numbers (flat_map (fun ic => if (snd ic =? c)%Z
                                     then match nth_error column (fst ic) with
                                          | Some v => [v]
                                          | None => []
                                          end
                                     else []) merged) ;;
  Return (Sklearn.mean qs).

Fixpoint each {A B : Type} (f : A -> outcome B) (l : list A) : outcome (list B) :=
  match l with
  | [] => Return []
  | a :: l' => b <- f a ;; bs <- each f l' ;; Return (b :: bs)
  end.

(** [merged.groupby('Cluster')[feature_cols].mean()]: per cluster, the
    mean of every requested column. *)
Definition groupby_mean (data : frame) (merged : list (nat * Z))
  (feature_cols : list string) : outcome (list (Z * list Q)) :=
  features <- each (getitem data) feature_cols ;;
  each (fun c => means <- each (fun col => cluster_mean col merged c) features ;;
                 Return (c, means))
       (group_keys merged).

(** [analyze_cluster_characteristics].  The frame [data] is the caller's
    object: the first component of the result is that object when the call
    ends, by return or by exception; the second is the call's outcome.
    When [data] has a column named Cluster of its own, the merge renames
    both Cluster columns with suffixes and the grouping finds none. *)
Definition analyze_cluster_characteristics (data : frame)
  (clustered_df : list (string * Z)) (feature_cols : list string)
  : frame * outcome (list (Z * list Q)) :=
  match getitem data "STATE" with
  | Raise cls => (data, Raise cls)
  | Return state =>
      match getitem data "COUNTY" with
      | Raise cls => (data, Raise cls)
      | Return county =>
          let data := setitem data "GEOID" (geoid_series state county) in
          (data,
           if existsb (fun nc => String.eqb (fst nc) "Cluster") data
           then Raise KeyError
           else
             geoids <- getitem data "GEOID" ;;
             let merged := merge_inner geoids clustered_df in
             groupby_mean data merged feature_cols)
      end
  end.

End Characteristics.

(** ** The distance matrix of [perform_clustering] *)

Lemma unit_interval_normalized lo hi q :
  lo < hi -> lo <= q -> q <= hi ->
  0 <= 1 - (q - lo) / (hi - lo) /\ 1 - (q - lo) / (hi - lo) <= 1.
Proof.
  intros Hlt Hlo Hhi.
  assert (Hpos : 0 < hi - lo) by lra.
  assert (H0 : 0 <= (q - lo) / (hi - lo)).
  { apply Qle_shift_div_l; [exact Hpos | lra]. }
  assert (H1 : (q - lo) / (hi - lo) <= 1).
  { apply Qle_shift_div_r; [exact Hpos | lra]. }
  split; lra.
Qed.

Lemma fdiv_finite a b : ~ b == 0 -> fdiv a b = Fin (a / b).
Proof.
  intro Hb. unfold fdiv. destruct (Qeq_bool b 0) eqn:E; [|reflexivity].
  apply Qeq_bool_iff in E. contradiction.
Qed.

Lemma distance_matrix_of_eq S lo hi :
  amin (flatten S) = Return lo -> amax (flatten S) = Return hi ->
  distance_matrix_of S =
  Return (fill_diagonal (Fin 0)
            (map_matrix one_minus
               (map_matrix (fun x => fdiv (x - lo) (hi - lo)) S))).
Proof.
  intros Hlo Hhi. unfold distance_matrix_of. rewrite Hlo, Hhi. reflexivity.
Qed.

Lemma cell_distance S lo hi i j :
  cell (fill_diagonal (Fin 0)
          (map_matrix one_minus
             (map_matrix (fun x => fdiv (x - lo) (hi - lo)) S))) i j
  = match cell S i j with
    | Some q => Some (if Nat.eqb j i then Fin 0
                      else one_minus (fdiv (q - lo) (hi - lo)))
    | None => None
    end.
Proof.
  rewrite cell_fill_diagonal, !cell_map_matrix.
  destruct (cell S i j); simpl; now destruct (Nat.eqb j i).
Qed.

(** C1, as amended.  Whenever the similarity matrix holds two different
    values, the distance matrix exists, all its entries lie in [0,1], it
    is symmetric for a symmetric input, and its diagonal is zero whatever
    the diagonal of the input was. *)
Theorem distance_matrix_nonconstant S :
  (exists x y, In x (flatten S) /\ In y (flatten S) /\ x < y) ->
  exists D, distance_matrix_of S = Return D
    /\ all_cells in_unit_interval D
    /\ (symmetric S -> fsymmetric D)
    /\ zero_diagonal D.
Proof.
  intros (x & y & Hx & Hy & Hxy).
  destruct (amin (flatten S)) as [lo|] eqn:Hlo.
  2:{ destruct (flatten S); [contradiction | discriminate]. }
  destruct (amax (flatten S)) as [hi|] eqn:Hhi.
  2:{ destruct (flatten S); [contradiction | discriminate]. }
  pose proof (amin_lower _ _ Hlo) as Hmin.
  pose proof (amax_upper _ _ Hhi) as Hmax.
  assert (Hlt : lo < hi).
  { apply Qle_lt_trans with x; [now apply Hmin|].
    apply Qlt_le_trans with y; [exact Hxy | now apply Hmax]. }
  assert (Hnz : ~ hi - lo == 0) by (intro; lra).
  eexists. split; [apply (distance_matrix_of_eq _ _ _ Hlo Hhi)|].
  split; [|split].
  - apply all_cells_cell. intros i j c. rewrite cell_distance.
    destruct (cell S i j) as [q|] eqn:Hq; [|discriminate].
    intros [= <-]. destruct (Nat.eqb j i).
    + simpl. split; lra.
    + rewrite fdiv_finite by exact Hnz. simpl.
      apply cell_In in Hq. apply unit_interval_normalized; auto.
  - intros Hsym i j. specialize (Hsym i j). rewrite !cell_distance.
    destruct (cell S i j) as [a|], (cell S j i) as [b|]; try exact Hsym.
    rewrite (Nat.eqb_sym i j). destruct (Nat.eqb j i).
    + simpl. reflexivity.
    + rewrite !fdiv_finite by exact Hnz. simpl. now rewrite Hsym.
  - intros i c. rewrite cell_distance.
    destruct (cell S i i); [|discriminate].
    rewrite Nat.eqb_refl. intros [= <-]. simpl. reflexivity.
Qed.

Lemma distance_matrix_nonconstant_witness :
  exists D, distance_matrix_of [[1; -1]; [-1; 1]] = Return D
    /\ all_cells in_unit_interval D
    /\ (symmetric [[1; -1]; [-1; 1]] -> fsymmetric D)
    /\ zero_diagonal D.
Proof.
  apply (distance_matrix_nonconstant [[1; -1]; [-1; 1]]).
  exists (-1), 1. simpl. repeat split; auto. 
Defined.

(** C1, as stated, fails: the all-zero 2x2 similarity matrix (what two
    counties with identical features produce) is symmetric, yet its
    distance matrix holds NaN off the diagonal, the min-max range being
    zero and the normalisation dividing 0 by 0.  The entries are then not
    all in [0,1] and the matrix is not symmetric under IEEE equality; only
    the diagonal is zero. *)
Lemma distance_matrix_constant_similarity :
  symmetric [[0; 0]; [0; 0]] /\
  exists D, distance_matrix_of [[0; 0]; [0; 0]] = Return D
    /\ cell D 0 1 = Some NaN
    /\ ~ all_cells in_unit_interval D
    /\ ~ fsymmetric D
    /\ zero_diagonal D.
Proof.
  split.
  - intros i j. unfold cell.
    destruct i as [|[|[|i]]], j as [|[|[|j]]]; simpl; try reflexivity; exact I.
  - exists [[Fin 0; NaN]; [NaN; Fin 0]]. repeat split.
    + intro H.
      apply all_cells_cell with (i := 0%nat) (j := 1%nat) (x := NaN) in H; auto.
    + intro H. exact (H 0%nat 1%nat).
    + intros i c. unfold cell.
      destruct i as [|[|[|i]]]; simpl; try discriminate;
        intros [= <-]; reflexivity.
Qed.

(** Two counties whose similarity is the same everywhere: K-Means is handed
    the NaN entries and rejects them, whatever the number of clusters. *)
Example perform_clustering_constant_similarity :
  forall lloyd n_clusters,
    perform_clustering lloyd
      {| index := ["01001"; "01003"]%string;
         columns := ["01001"; "01003"]%string;
         values := [[0; 0]; [0; 0]] |} n_clusters
    = Raise ValueError.
Proof.
  intros lloyd n_clusters. unfold perform_clustering. cbn [values].
  change (distance_matrix_of [[0; 0]; [0; 0]])
    with (Return [[Fin 0; NaN]; [NaN; Fin 0]] : outcome (matrix float)).
  cbn [bind]. unfold Sklearn.KMeans_fit_predict.
  destruct (n_clusters <? 1)%Z; reflexivity.
Qed.

(** Such a similarity matrix is what identical feature rows lead to: every
    column is constant, is standardised to zeros, and zero rows have
    cosine similarity 0. *)
Example similarity_of_identical_counties :
  exists df,
    calculate_county_similarity Sklearn.sqrt_up
      [ ((1, 1)%Z, [5; 7]); ((1, 3)%Z, [5; 7]) ] = Return df
    /\ Forall2 (Forall2 Qeq) (values df) [[0; 0]; [0; 0]].
Proof.
  eexists. split; [vm_compute; reflexivity|]. repeat constructor.
Qed.

(** ** Top-N similar pairs *)

Lemma insert_desc_perm x l : Permutation (insert_desc x l) (x :: l).
Proof.
  induction l as [|y l IH]; simpl.
  - apply Permutation_refl.
  - destruct (Qle_bool (Similarity x) (Similarity y)).
    + eapply perm_trans; [apply perm_skip, IH | apply perm_swap].
    + apply Permutation_refl.
Qed.

Lemma insert_desc_sorted x l :
  StronglySorted sim_ge l -> StronglySorted sim_ge (insert_desc x l).
Proof.
  induction 1 as [|y l Hs IH Hy]; simpl.
  - constructor; constructor.
  - destruct (Qle_bool (Similarity x) (Similarity y)) eqn:E.
    + constructor; [exact IH|].
      apply (Permutation_Forall (Permutation_sym (insert_desc_perm x l))).
      constructor; [|exact Hy].
      unfold sim_ge. now apply Qle_bool_iff.
    + assert (Hlt : Similarity y < Similarity x).
      { apply Qnot_le_lt. intro H. apply Qle_bool_iff in H. congruence. }
      constructor; [now constructor|].
      constructor; [unfold sim_ge; lra|].
      eapply Forall_impl; [|exact Hy].
      unfold sim_ge. intros z Hz. lra.
Qed.

Lemma insertion_sort_desc_sorts : sorts_descending insertion_sort_desc.
Proof.
  intro l. induction l as [|x l [IHp IHs]]; simpl.
  - split; constructor.
  - split.
    + eapply perm_trans; [apply insert_desc_perm | now apply perm_skip].
    + now apply insert_desc_sorted.
Qed.

Lemma head_prefix {A : Type} (n : Z) (l : list A) :
  exists rest, l = head n l ++ rest.
Proof.
  unfold head. destruct (0 <=? n)%Z;
    eexists; symmetry; apply firstn_skipn.
Qed.

Lemma StronglySorted_prefix {A : Type} (R : A -> A -> Prop) (l1 l2 : list A) :
  StronglySorted R (l1 ++ l2) -> StronglySorted R l1.
Proof.
  induction l1 as [|x l1 IH]; simpl; intro H.
  - constructor.
  - inversion H as [|? ? Hs Hx]; subst. constructor; [now apply IH|].
    apply Forall_app in Hx. tauto.
Qed.

(** C2, as amended.  Whatever sorter realises the library's descending
    sort, the rows returned never pair a county with itself and their
    similarities are non-increasing. *)
Theorem top_pairs_distinct_and_sorted
  (sorter : list pair_row -> list pair_row) (df : similarity_frame) (n : Z) :
  sorts_descending sorter ->
  Forall (fun t => GEOID_1 t <> GEOID_2 t) (get_top_similar_pairs sorter df n)
  /\ StronglySorted sim_ge (get_top_similar_pairs sorter df n).
Proof.
  intro Hsort. unfold get_top_similar_pairs.
  set (kept := filter ids_differ (unstack df)).
  destruct (Hsort kept) as [Hperm Hsorted].
  destruct (head_prefix n (sorter kept)) as [rest Hrest].
  split.
  - apply Forall_forall. intros t Ht.
    assert (Hin : In t kept).
    { apply (Permutation_in _ Hperm). rewrite Hrest. apply in_or_app. now left. }
    apply filter_In in Hin. destruct Hin as [_ Hd].
    unfold ids_differ in Hd. apply negb_true_iff in Hd.
    now apply String.eqb_neq.
  - rewrite Hrest in Hsorted. now apply StronglySorted_prefix in Hsorted.
Qed.

Definition two_counties : similarity_frame :=
  {| index := ["01001"; "01003"]%string;
     columns := ["01001"; "01003"]%string;
     values := [[1; 1 # 2]; [1 # 2; 1]] |}.

Lemma top_pairs_distinct_and_sorted_witness :
  Forall (fun t => GEOID_1 t <> GEOID_2 t)
         (get_top_similar_pairs insertion_sort_desc two_counties 100)
  /\ StronglySorted sim_ge
         (get_top_similar_pairs insertion_sort_desc two_counties 100).
Proof.
  apply (top_pairs_distinct_and_sorted insertion_sort_desc two_counties 100).
  exact insertion_sort_desc_sorts.
Defined.

(** Six counties: 30 rows off the diagonal, every similarity in them
    twice, once on each side of the diagonal. *)
Definition six_counties : similarity_frame :=
  {| index := ["01001"; "01003"; "01005"; "01007"; "01009"; "01011"]%string;
     columns := ["01001"; "01003"; "01005"; "01007"; "01009"; "01011"]%string;
     values :=
       [ [1; 91 # 100; 34 # 100; (-12) # 100; 57 # 100; 8 # 100];
         [91 # 100; 1; 76 # 100; 45 # 100; (-30) # 100; 63 # 100];
         [34 # 100; 76 # 100; 1; 22 # 100; 85 # 100; (-5) # 100];
         [(-12) # 100; 45 # 100; 22 # 100; 1; 50 # 100; 13 # 100];
         [57 # 100; (-30) # 100; 85 # 100; 50 # 100; 1; 70 # 100];
         [8 # 100; 63 # 100; (-5) # 100; 13 # 100; 70 # 100; 1] ] |}.

(** Some row satisfying [p] lies before a row satisfying [q]. *)
Fixpoint precedes_by {A : Type} (p q : A -> bool) (l : list A) : bool :=
  match l with
  | [] => false
  | x :: l' => (p x && existsb q l') || precedes_by p q l'
  end.

Lemma precedes_precedes_by {A : Type} (p q : A -> bool) (l : list A) a b :
  p a = true -> q b = true -> precedes l a b -> precedes_by p q l = true.
Proof.
  intros Hp Hq (i & j & Hij & Hi & Hj). revert i j Hij Hi Hj.
  induction l as [|x l IH]; intros i j Hij Hi Hj.
  - destruct i; discriminate.
  - cbn [precedes_by]. apply orb_true_iff.
    destruct j as [|j]; [lia|]. cbn [nth_error] in Hj.
    destruct i as [|i].
    + left. cbn [nth_error] in Hi. injection Hi as ->. rewrite Hp. cbn [andb].
      apply existsb_exists. exists b. split; [|exact Hq].
      now apply nth_error_In with j.
    + right. cbn [nth_error] in Hi. apply (IH i j); [lia | exact Hi | exact Hj].
Qed.

Definition is_pair (g1 g2 : string) (t : pair_row) : bool :=
  (String.eqb (GEOID_1 t) g1 && String.eqb (GEOID_2 t) g2)%bool.

(** C2, as stated, fails on [six_counties]: the library's default sort
    kind promises the descending order and nothing about rows of equal
    similarity, and a sort that keeps that promise can return the pair
    (01009, 01005) before the pair (01005, 01009), which the enumeration
    has the other way round. *)
Lemma top_pairs_ties_may_be_reordered :
  ~ (forall sorter,
        sorts_descending sorter ->
        keeps_order_of_ties (unstack six_counties)
          (get_top_similar_pairs sorter six_counties 30)).
Proof.
  intro H.
  specialize (H insertion_sort_desc insertion_sort_desc_sorts).
  set (ab := {| GEOID_1 := "01005"; GEOID_2 := "01009"; Similarity := 85 # 100 |}).
  set (ba := {| GEOID_1 := "01009"; GEOID_2 := "01005"; Similarity := 85 # 100 |}).
  assert (Hout : precedes (get_top_similar_pairs insertion_sort_desc six_counties 30)
                          ba ab).
  { exists 2%nat, 3%nat. repeat split. lia. }
  apply (H ba ab) in Hout; [|reflexivity].
  apply (precedes_precedes_by (is_pair "01009" "01005") (is_pair "01005" "01009"))
    in Hout; [|reflexivity|reflexivity].
  vm_compute in Hout. discriminate.
Qed.

(** A sorter that places a row before the rows of equal similarity already
    placed is stable; with it the two tied rows of [two_counties] come out
    in enumeration order, where the library's default sort leaves them on
    a frame this small.  The order of ties is decided by the sort the
    library happens to run, not by the operation. *)
Definition stable_sort_desc : list pair_row -> list pair_row :=
  Sort.insertion_sort (fun a b => Qle_bool (Similarity b) (Similarity a)).

Example top_pairs_under_a_stable_sort :
  get_top_similar_pairs stable_sort_desc two_counties 100
  = [ {| GEOID_1 := "01001"; GEOID_2 := "01003"; Similarity := 1 # 2 |};
      {| GEOID_1 := "01003"; GEOID_2 := "01001"; Similarity := 1 # 2 |} ]
  /\ get_top_similar_pairs insertion_sort_desc two_counties 100
     = [ {| GEOID_1 := "01003"; GEOID_2 := "01001"; Similarity := 1 # 2 |};
         {| GEOID_1 := "01001"; GEOID_2 := "01003"; Similarity := 1 # 2 |} ].
Proof. split; reflexivity. Qed.

(** ** Standardisation of constant columns *)

Lemma sqrt_up_pos q : 0 < q -> 0 < Sklearn.sqrt_up q.
Proof.
  destruct q as [n d]. unfold Sklearn.sqrt_up, Qlt. simpl.
  intro H. rewrite Z.mul_1_r in *.
  apply Z.sqrt_up_pos. lia.
Qed.

Lemma Qsum_nonneg l : Forall (fun x => 0 <= x) l -> 0 <= Sklearn.Qsum l.
Proof.
  induction 1 as [|x l Hx _ IH]; simpl.
  - apply Qle_refl.
  - lra.
Qed.

Lemma variance_nonneg c : 0 <= Sklearn.variance c.
Proof.
  unfold Sklearn.variance, Sklearn.mean at 1. unfold Qdiv.
  apply Qmult_le_0_compat.
  - apply Qsum_nonneg. apply Forall_forall. intros y Hy.
    apply in_map_iff in Hy. destruct Hy as (x & <- & _).
    generalize (x - Sklearn.mean c). intro a. nra.
  - apply Qinv_le_0_compat. rewrite length_map.
    change 0 with (inject_Z 0). rewrite <- Zle_Qle. lia.
Qed.

Lemma Qsum_zero_all l :
  Forall (fun x => 0 <= x) l -> Sklearn.Qsum l == 0 -> Forall (fun x => x == 0) l.
Proof.
  induction 1 as [|x l Hx Hl IH]; simpl; intro Hsum; constructor.
  - pose proof (Qsum_nonneg l Hl). lra.
  - apply IH. pose proof (Qsum_nonneg l Hl). lra.
Qed.

(** A column of zero variance is constant: every entry equals the mean. *)
Lemma zero_variance_constant c y :
  Sklearn.variance c == 0 -> In y c -> y == Sklearn.mean c.
Proof.
  intros Hvar Hy.
  set (sq := map (fun x => (x - Sklearn.mean c) * (x - Sklearn.mean c)) c).
  assert (Hlen : 0 < inject_Z (Z.of_nat (length sq))).
  { unfold sq. rewrite length_map. change 0 with (inject_Z 0).
    rewrite <- Zlt_Qlt. destruct c; [contradiction | simpl; lia]. }
  assert (Hsum : Sklearn.Qsum sq == 0).
  { unfold Sklearn.variance, Sklearn.mean at 1 in Hvar. fold sq in Hvar.
    assert (Hne : ~ inject_Z (Z.of_nat (length sq)) == 0) by (intro; lra).
    rewrite <- (Qmult_div_r (Sklearn.Qsum sq) _ Hne), Hvar. ring. }
  assert (Hall : Forall (fun x => x == 0) sq).
  { apply Qsum_zero_all; [|exact Hsum]. apply Forall_forall. intros z Hz.
    unfold sq in Hz. apply in_map_iff in Hz. destruct Hz as (x & <- & _).
    generalize (x - Sklearn.mean c). intro a. nra. }
  rewrite Forall_forall in Hall.
  assert (Hsq : (y - Sklearn.mean c) * (y - Sklearn.mean c) == 0).
  { apply Hall. unfold sq. apply in_map_iff. now exists y. }
  apply Qmult_integral in Hsq. lra.
Qed.

Section Standardisation.

Variable sqrt : Q -> Q.
Hypothesis sqrt_pos : forall x, 0 < x -> 0 < sqrt x.

Lemma scale_of_nonzero c : ~ Sklearn.scale_of sqrt c == 0.
Proof.
  unfold Sklearn.scale_of.
  destruct (Qeq_bool (Sklearn.variance c) 0) eqn:E.
  - intro H. discriminate H.
  - assert (Hne : ~ Sklearn.variance c == 0).
    { intro H. apply Qeq_bool_iff in H. congruence. }
    pose proof (variance_nonneg c) as Hge.
    assert (Hpos : 0 < Sklearn.variance c).
    { apply Qle_lteq in Hge. destruct Hge as [Hlt|Heq]; [exact Hlt|].
      exfalso. apply Hne. now symmetry. }
    apply sqrt_pos in Hpos. intro H. lra.
Qed.

Lemma standardize_row_finite X r :
  exists qs, Sklearn.finite_row
               (Sklearn.standardize_row (Sklearn.column_stats sqrt X) r) = Some qs
             /\ length qs = Nat.min (length r) (Sklearn.n_features X).
Proof.
  unfold Sklearn.standardize_row.
  assert (Hstats : Forall (fun st => ~ snd st == 0) (Sklearn.column_stats sqrt X)).
  { unfold Sklearn.column_stats. apply Forall_forall. intros st Hst.
    apply in_map_iff in Hst. destruct Hst as (j & <- & _). simpl.
    apply scale_of_nonzero. }
  assert (Hlen : length (Sklearn.column_stats sqrt X) = Sklearn.n_features X).
  { unfold Sklearn.column_stats. now rewrite length_map, length_seq. }
  rewrite <- Hlen. clear Hlen.
  generalize dependent (Sklearn.column_stats sqrt X). intros stats Hstats.
  revert stats Hstats.
  induction r as [|x r IH]; intros stats Hstats.
  - exists []. split; reflexivity.
  - destruct stats as [|st stats].
    + exists []. split; reflexivity.
    + inversion Hstats as [|? ? Hst Hrest]; subst.
      destruct (IH stats Hrest) as (qs & Hqs & Hl).
      simpl. rewrite fdiv_finite by exact Hst. simpl.
      rewrite Hqs. eexists. split; [reflexivity|]. simpl. now rewrite Hl.
Qed.

Lemma standardized_finite X rows :
  exists M, Sklearn.finite_matrix
              (map (Sklearn.standardize_row (Sklearn.column_stats sqrt X)) rows)
            = Some M
            /\ length M = length rows.
Proof.
  induction rows as [|r rows (M & HM & Hl)].
  - exists []. split; reflexivity.
  - destruct (standardize_row_finite X r) as (qs & Hqs & _).
    simpl. rewrite Hqs, HM. eexists. split; [reflexivity|]. simpl. now rewrite Hl.
Qed.

(** Standardisation turns a column of zero variance into zeros. *)
Lemma zero_variance_column_standardized X scaled i j x :
  Sklearn.StandardScaler_fit_transform sqrt X = Return scaled ->
  Sklearn.variance (Sklearn.column j X) == 0 ->
  cell scaled i j = Some x ->
  is_zero x.
Proof.
  unfold Sklearn.StandardScaler_fit_transform.
  destruct (Nat.eqb (Sklearn.n_samples X) 0); [discriminate|].
  destruct (Nat.eqb (Sklearn.n_features X) 0); [discriminate|].
  intros [= <-] Hvar. unfold cell. rewrite nth_error_map.
  destruct (nth_error X i) as [r|] eqn:Hr; [|discriminate]. cbn [option_map].
  unfold Sklearn.standardize_row. rewrite nth_error_map.
  destruct (nth_error (combine r (Sklearn.column_stats sqrt X)) j)
    as [[a st]|] eqn:Hc; [|discriminate].
  cbn [option_map]. intros [= <-]. cbn [fst snd].
  apply nth_error_In in Hc as Hin. apply in_combine_l in Hin as Ha.
  assert (Hj : nth_error r j = Some a /\
               nth_error (Sklearn.column_stats sqrt X) j = Some st).
  { clear -Hc. revert j Hc.
    generalize (Sklearn.column_stats sqrt X). intro stats. revert stats.
    induction r as [|x r IH]; intros [|s stats] [|j] Hc; simpl in *;
      try discriminate.
    - inversion Hc. now split.
    - now apply IH. }
  destruct Hj as [Hrj Hst].
  unfold Sklearn.column_stats in Hst. rewrite nth_error_map in Hst.
  destruct (nth_error (seq 0 (Sklearn.n_features X)) j) as [j'|] eqn:Hseq;
    [|discriminate].
  assert (j' = j).
  { assert (Hlt : (j < length (seq 0 (Sklearn.n_features X)))%nat).
    { apply nth_error_Some. congruence. }
    rewrite length_seq in Hlt.
    apply nth_error_nth with (d := 0%nat) in Hseq.
    rewrite seq_nth in Hseq by exact Hlt. lia. }
  subst j'. cbn [option_map] in Hst. inversion Hst; subst st. cbn [fst snd].
  assert (Hscale : Sklearn.scale_of sqrt (Sklearn.column j X) = 1).
  { unfold Sklearn.scale_of. apply Qeq_bool_iff in Hvar. now rewrite Hvar. }
  rewrite Hscale. rewrite fdiv_finite by (intro H; discriminate H). simpl.
  assert (Hcol : In a (Sklearn.column j X)).
  { unfold Sklearn.column. apply in_map_iff. exists r. split.
    - now apply nth_error_nth.
    - eapply nth_error_In; eauto. }
  rewrite (zero_variance_constant _ _ Hvar Hcol). field.
Qed.

(** A feature matrix with a sample and a feature is standardised and its
    cosine similarity returned; no input makes this raise for the variance
    of a column. *)
Lemma similarity_returns (flattened_features : list ((Z * Z) * list Q)) :
  (0 < Sklearn.n_features (map snd flattened_features))%nat ->
  exists df, calculate_county_similarity sqrt flattened_features = Return df
             /\ length (index df) = length flattened_features
             /\ length (values df) = length flattened_features.
Proof.
  intro Hfeat.
  unfold calculate_county_similarity, Sklearn.StandardScaler_fit_transform.
  set (X := map snd flattened_features) in *.
  assert (HX : X <> []).
  { intro HX. rewrite HX in Hfeat. simpl in Hfeat. lia. }
  destruct X as [|r X'] eqn:EX; [congruence|].
  cbn [Sklearn.n_samples length Nat.eqb].
  destruct (Nat.eqb (Sklearn.n_features (r :: X')) 0) eqn:En.
  { apply Nat.eqb_eq in En. lia. }
  cbn [bind]. unfold Sklearn.cosine_similarity, Sklearn.check_array.
  destruct (standardized_finite (r :: X') (r :: X')) as (M & HM & Hl).
  destruct (standardize_row_finite (r :: X') r) as (qs & Hqs & Hlq).
  cbn [map Sklearn.n_samples length Nat.eqb Sklearn.n_features].
  assert (Hlen1 : length (Sklearn.standardize_row
                            (Sklearn.column_stats sqrt (r :: X')) r) <> 0%nat).
  { unfold Sklearn.standardize_row. rewrite length_map, length_combine.
    unfold Sklearn.column_stats. rewrite length_map, length_seq.
    simpl in Hfeat |- *. lia. }
  apply Nat.eqb_neq in Hlen1. rewrite Hlen1.
  cbn [map] in HM. rewrite HM. cbn [bind].
  eexists. split; [reflexivity|]. cbn [index values].
  rewrite !length_map.
  assert (Hff : length flattened_features = length (r :: X')).
  { rewrite <- EX. unfold X. now rewrite length_map. }
  split; [reflexivity|]. rewrite Hl. now rewrite Hff.
Qed.

End Standardisation.

(** C3, as amended.  A feature matrix with a zero-variance column does not
    make the similarity computation fail: every such column is divided by 1
    instead of its standard deviation, which leaves it all zeros, and a
    similarity matrix with one row per county is returned. *)
Theorem zero_variance_column_is_scaled_by_one
  (sqrt : Q -> Q) (flattened_features : list ((Z * Z) * list Q)) :
  (forall x, 0 < x -> 0 < sqrt x) ->
  Sklearn.has_zero_variance_column (map snd flattened_features) ->
  (forall j, Sklearn.variance (Sklearn.column j (map snd flattened_features)) == 0 ->
             Sklearn.scale_of sqrt (Sklearn.column j (map snd flattened_features)) = 1)
  /\ (forall scaled i j x,
        Sklearn.StandardScaler_fit_transform sqrt (map snd flattened_features)
        = Return scaled ->
        Sklearn.variance (Sklearn.column j (map snd flattened_features)) == 0 ->
        cell scaled i j = Some x ->
        is_zero x)
  /\ exists df,
       calculate_county_similarity sqrt flattened_features = Return df
       /\ length (index df) = length flattened_features
       /\ length (values df) = length flattened_features.
Proof.
  intros Hsqrt (j & Hj & _). split; [|split].
  - intros j' Hv. unfold Sklearn.scale_of.
    apply Qeq_bool_iff in Hv. now rewrite Hv.
  - intros scaled i j' x. apply zero_variance_column_standardized.
  - apply similarity_returns; [exact Hsqrt | lia].
Qed.

(** Two counties whose second feature is constant. *)
Definition constant_second_feature : list ((Z * Z) * list Q) :=
  [ ((1, 1)%Z, [1; 5]); ((1, 3)%Z, [3; 5]) ].

Lemma constant_second_feature_zero_variance :
  Sklearn.has_zero_variance_column (map snd constant_second_feature).
Proof. exists 1%nat. split; [simpl; lia | reflexivity]. Qed.

Lemma zero_variance_column_is_scaled_by_one_witness :
  (forall j, Sklearn.variance
               (Sklearn.column j (map snd constant_second_feature)) == 0 ->
             Sklearn.scale_of Sklearn.sqrt_up
               (Sklearn.column j (map snd constant_second_feature)) = 1)
  /\ (forall scaled i j x,
        Sklearn.StandardScaler_fit_transform Sklearn.sqrt_up
          (map snd constant_second_feature) = Return scaled ->
        Sklearn.variance
          (Sklearn.column j (map snd constant_second_feature)) == 0 ->
        cell scaled i j = Some x ->
        is_zero x)
  /\ exists df,
       calculate_county_similarity Sklearn.sqrt_up constant_second_feature
       = Return df
       /\ length (index df) = length constant_second_feature
       /\ length (values df) = length constant_second_feature.
Proof.
  apply (zero_variance_column_is_scaled_by_one
           Sklearn.sqrt_up constant_second_feature).
  - exact sqrt_up_pos.
  - exact constant_second_feature_zero_variance.
Defined.

(** C3, as stated, fails: the second feature below has zero variance and
    the similarity computation returns the matrix [[1, -1], [-1, 1]]
    instead of raising InvalidInputError. *)
Lemma zero_variance_column_does_not_raise :
  Sklearn.has_zero_variance_column (map snd constant_second_feature)
  /\ calculate_county_similarity Sklearn.sqrt_up constant_second_feature
     <> Raise InvalidInputError
  /\ exists df,
       calculate_county_similarity Sklearn.sqrt_up constant_second_feature
       = Return df
       /\ index df = ["01001"; "01003"]%string
       /\ Forall2 (Forall2 Qeq) (values df) [[1; -1]; [-1; 1]].
Proof.
  split; [exact constant_second_feature_zero_variance|].
  split; [vm_compute; discriminate|].
  eexists. split; [vm_compute; reflexivity|].
  split; [reflexivity|].
  repeat constructor.
Qed.

(** ** Cluster counts beyond the number of rows *)

Lemma finite_matrix_length X M :
  Sklearn.finite_matrix X = Some M -> length M = length X.
Proof.
  revert M. induction X as [|r X IH]; simpl; intros M H.
  - now inversion H.
  - destruct (Sklearn.finite_row r); [|discriminate].
    destruct (Sklearn.finite_matrix X) as [M'|]; [|discriminate].
    inversion H; subst. simpl. f_equal. now apply IH.
Qed.

Lemma check_array_outcome X :
  Sklearn.check_array X = Raise ValueError
  \/ exists M, Sklearn.check_array X = Return M /\ length M = length X.
Proof.
  unfold Sklearn.check_array.
  destruct (Nat.eqb (Sklearn.n_samples X) 0); [now left|].
  destruct (Nat.eqb (Sklearn.n_features X) 0); [now left|].
  destruct (Sklearn.finite_matrix X) as [M|] eqn:E; [|now left].
  right. exists M. split; [reflexivity | now apply finite_matrix_length].
Qed.

Section Evaluation.

Variable lloyd : Z -> matrix Q -> list Z * Q.
Variable silhouette_value : matrix Q -> list Z -> Q.

Lemma KMeans_outcome k X :
  Sklearn.KMeans_fit_predict lloyd k X = Raise ValueError
  \/ ((Z.of_nat (length X) >= k)%Z
      /\ exists fit, Sklearn.KMeans_fit_predict lloyd k X = Return fit).
Proof.
  unfold Sklearn.KMeans_fit_predict.
  destruct (k <? 1)%Z; [now left|].
  destruct (check_array_outcome X) as [-> | (M & -> & Hlen)]; [now left|].
  cbn [bind]. unfold Sklearn.n_samples. rewrite Hlen.
  destruct (Z.of_nat (length X) <? k)%Z eqn:E; [now left|].
  right. apply Z.ltb_ge in E. split; [lia | eauto].
Qed.

Lemma silhouette_outcome X labels :
  Sklearn.silhouette_score_precomputed silhouette_value X labels = Raise ValueError
  \/ exists s, Sklearn.silhouette_score_precomputed silhouette_value X labels
               = Return s.
Proof.
  unfold Sklearn.silhouette_score_precomputed.
  destruct (check_array_outcome X) as [-> | (M & -> & _)]; [now left|].
  cbn [bind].
  repeat match goal with
         | |- context [if ?b then _ else _] => destruct b; [now left|]
         end.
  right. eauto.
Qed.

Lemma evaluate_loop_fails distance_matrix k_range :
  forall inertia silhouette_scores,
    (exists k, In k k_range /\ (Z.of_nat (length distance_matrix) < k)%Z) ->
    evaluate_loop lloyd silhouette_value distance_matrix k_range
      inertia silhouette_scores = Raise ValueError.
Proof.
  induction k_range as [|k rest IH]; intros acc1 acc2 (k' & Hin & Hk').
  - contradiction.
  - cbn [evaluate_loop].
    destruct (KMeans_outcome k distance_matrix) as [-> | (Hge & fit & ->)];
      [reflexivity|].
    cbn [bind].
    destruct (silhouette_outcome distance_matrix (fst fit)) as [-> | (s & ->)];
      [reflexivity|].
    cbn [bind]. apply IH. exists k'. split; [|exact Hk'].
    destruct Hin as [<-|Hin]; [lia | exact Hin].
Qed.

End Evaluation.

(** C4, as amended.  When some candidate cluster count exceeds the number
    of rows the evaluation raises ValueError, the exception of the library
    call that rejects a count, and returns no metrics at all. *)
Theorem evaluation_raises_ValueError_when_k_exceeds_rows
  (lloyd : Z -> matrix Q -> list Z * Q)
  (silhouette_value : matrix Q -> list Z -> Q)
  (distance_matrix : matrix float) (k_range : list Z) :
  (exists k, In k k_range /\ (Z.of_nat (length distance_matrix) < k)%Z) ->
  evaluate_clustering_performance lloyd silhouette_value distance_matrix k_range
  = Raise ValueError.
Proof.
  intro H. unfold evaluate_clustering_performance.
  now rewrite evaluate_loop_fails.
Qed.

(** Stand-ins for the kernels when evaluating examples: every sample in
    cluster 0, inertia and silhouette 0. *)
Definition one_cluster (k : Z) (M : matrix Q) : list Z * Q :=
  (map (fun _ => 0%Z) M, 0).

Definition no_silhouette (M : matrix Q) (labels : list Z) : Q := 0.

Definition two_points : matrix float := [[Fin 0; Fin 1]; [Fin 1; Fin 0]].

Lemma evaluation_raises_ValueError_witness :
  evaluate_clustering_performance one_cluster no_silhouette two_points [3%Z]
  = Raise ValueError.
Proof.
  apply (evaluation_raises_ValueError_when_k_exceeds_rows
           one_cluster no_silhouette two_points [3%Z]).
  exists 3%Z. split; [now left | simpl; lia].
Defined.

(** C4, as stated, fails: three clusters are asked of two rows and the
    operation raises, but never an InsufficientDataError, whatever the
    kernels compute. *)
Lemma evaluation_never_raises_InsufficientDataError :
  (exists k, In k [3%Z] /\ (Z.of_nat (length two_points) < k)%Z)
  /\ forall lloyd silhouette_value,
       evaluate_clustering_performance lloyd silhouette_value two_points [3%Z]
       <> Raise InsufficientDataError.
Proof.
  split.
  - exists 3%Z. split; [now left | simpl; lia].
  - intros lloyd sv. vm_compute. discriminate.
Qed.

(** ** The caller's table after cluster characterisation *)

Lemma frame_grows_by_a_column (df : Frame.frame) (col : string * Frame.series) :
  df ++ [col] <> df.
Proof.
  intro H. apply (f_equal (@length _)) in H.
  rewrite length_app in H. simpl in H. lia.
Qed.

(** C10.  Once the STATE and COUNTY columns are read, the caller's table
    itself carries the GEOID column the operation computed: appended when
    the table had none, so the table the caller holds afterwards is not the
    table it passed; and it stays changed whether the merge and the
    grouping that follow return or raise. *)
Theorem analyze_writes_GEOID_into_caller_frame
  (repr_float : Q -> string) (data : Frame.frame)
  (clustered_df : list (string * Z)) (feature_cols : list string)
  (state county : Frame.series) :
  Frame.getitem data "STATE" = Return state ->
  Frame.getitem data "COUNTY" = Return county ->
  fst (analyze_cluster_characteristics repr_float data clustered_df feature_cols)
  = Frame.setitem data "GEOID" (geoid_series repr_float state county)
  /\ Frame.getitem
       (fst (analyze_cluster_characteristics repr_float data clustered_df
               feature_cols)) "GEOID"
     = Return (geoid_series repr_float state county)
  /\ (Frame.getitem data "GEOID" <> Return (geoid_series repr_float state county) ->
      fst (analyze_cluster_characteristics repr_float data clustered_df
             feature_cols) <> data)
  /\ (Frame.lookup data "GEOID" = None ->
      fst (analyze_cluster_characteristics repr_float data clustered_df
             feature_cols)
      = data ++ [("GEOID"%string, geoid_series repr_float state county)]).
Proof.
  intros Hs Hc. unfold analyze_cluster_characteristics. rewrite Hs, Hc.
  cbn [fst].
  assert (Hget : Frame.getitem
                   (Frame.setitem data "GEOID"
                      (geoid_series repr_float state county)) "GEOID"
                 = Return (geoid_series repr_float state county)).
  { unfold Frame.getitem. now rewrite Frame.lookup_setitem_same. }
  split; [reflexivity|]. split; [exact Hget|]. split.
  - intros Hne Heq. apply Hne. now rewrite Heq in Hget.
  - apply Frame.setitem_new_column.
Qed.

Definition digits_only (q : Q) : string := Fmt.str (Qnum q / Zpos (Qden q)).

Definition demographics : Frame.frame :=
  [ ("STATE"%string,  [Frame.VInt 1; Frame.VInt 6]);
    ("COUNTY"%string, [Frame.VInt 1; Frame.VInt 37]);
    ("AGE"%string,    [Frame.VNum 30; Frame.VNum 40]) ].

Definition demographics_clusters : list (string * Z) :=
  [ ("01001"%string, 0%Z); ("06037"%string, 1%Z) ].

Lemma analyze_writes_GEOID_witness :
  fst (analyze_cluster_characteristics digits_only demographics
         demographics_clusters ["AGE"%string]) <> demographics
  /\ fst (analyze_cluster_characteristics digits_only demographics
            demographics_clusters ["AGE"%string])
     = demographics
       ++ [("GEOID"%string, [Frame.VStr "01001"; Frame.VStr "06037"])].
Proof.
  destruct (analyze_writes_GEOID_into_caller_frame digits_only demographics
              demographics_clusters ["AGE"%string]
              [Frame.VInt 1; Frame.VInt 6] [Frame.VInt 1; Frame.VInt 37]
              eq_refl eq_refl) as (_ & _ & Hchanged & Happended).
  split.
  - apply Hchanged. discriminate.
  - apply Happended. reflexivity.
Defined.

(** On the table above the call returns the mean age of each cluster and
    leaves the caller with a fourth column. *)
Example analyze_demographics :
  analyze_cluster_characteristics digits_only demographics
    demographics_clusters ["AGE"%string]
  = (demographics
       ++ [("GEOID"%string, [Frame.VStr "01001"; Frame.VStr "06037"])],
     Return [ (0%Z, [Sklearn.mean [30]]); (1%Z, [Sklearn.mean [40]]) ]).
Proof. reflexivity. Qed.

(** The column is written before the rest of the call can fail: asking for
    a feature the table does not have raises KeyError and the caller's
    table has gained the column all the same. *)
Example analyze_mutates_even_when_raising :
  analyze_cluster_characteristics digits_only demographics
    demographics_clusters ["INCOME"%string]
  = (demographics
       ++ [("GEOID"%string, [Frame.VStr "01001"; Frame.VStr "06037"])],
     Raise KeyError).
Proof. reflexivity. Qed.

(** ** Further properties of the similarity matrix *)

Lemma dot_comm u v : Sklearn.dot u v == Sklearn.dot v u.
Proof.
  unfold Sklearn.dot. revert v.
  induction u as [|x u IH]; intros [|y v]; simpl; try reflexivity.
  rewrite IH. ring.
Qed.

Lemma cell_gram {A : Type} (f : A -> A -> Q) (rows : list A) i j :
  cell (map (fun u => map (fun v => f u v) rows) rows) i j
  = match nth_error rows i, nth_error rows j with
    | Some u, Some v => Some (f u v)
    | _, _ => None
    end.
Proof.
  unfold cell. rewrite nth_error_map.
  destruct (nth_error rows i) as [u|]; simpl; [|reflexivity].
  rewrite nth_error_map. now destruct (nth_error rows j).
Qed.

Lemma cosine_similarity_returns sqrt X S :
  Sklearn.cosine_similarity sqrt X = Return S ->
  length S = length X
  /\ Forall (fun row => length row = length X) S
  /\ symmetric S.
Proof.
  unfold Sklearn.cosine_similarity.
  destruct (check_array_outcome X) as [-> | (M & -> & Hlen)]; [discriminate|].
  cbn [bind]. intros [= <-].
  set (unit_rows := map (Sklearn.normalize_row sqrt) M).
  assert (Hn : length unit_rows = length X).
  { unfold unit_rows. now rewrite length_map. }
  split; [now rewrite length_map|]. split.
  - apply Forall_forall. intros row Hrow. apply in_map_iff in Hrow.
    destruct Hrow as (u & <- & _). now rewrite length_map.
  - intros i j. rewrite !cell_gram.
    destruct (nth_error unit_rows i), (nth_error unit_rows j);
      try exact I. apply dot_comm.
Qed.

Lemma standard_scaler_length sqrt X scaled :
  Sklearn.StandardScaler_fit_transform sqrt X = Return scaled ->
  length scaled = length X.
Proof.
  unfold Sklearn.StandardScaler_fit_transform.
  destruct (Nat.eqb (Sklearn.n_samples X) 0); [discriminate|].
  destruct (Nat.eqb (Sklearn.n_features X) 0); [discriminate|].
  intros [= <-]. now rewrite length_map.
Qed.

(** Whenever the similarity computation returns, the frame is square with
    one row and one column per county, both axes carry the five-character
    identifiers of the counties in input order, and the matrix is
    symmetric. *)
Theorem similarity_frame_is_square_and_symmetric
  (sqrt : Q -> Q) (flattened_features : list ((Z * Z) * list Q))
  (df : similarity_frame) :
  calculate_county_similarity sqrt flattened_features = Return df ->
  index df = map (fun x => Fmt.geoid_of_key (fst x)) flattened_features
  /\ columns df = index df
  /\ length (values df) = length flattened_features
  /\ Forall (fun row => length row = length flattened_features) (values df)
  /\ symmetric (values df).
Proof.
  unfold calculate_county_similarity.
  destruct (Sklearn.StandardScaler_fit_transform sqrt (map snd flattened_features))
    as [scaled|] eqn:Hs; [|discriminate].
  cbn [bind].
  destruct (Sklearn.cosine_similarity sqrt scaled) as [S|] eqn:Hc; [|discriminate].
  cbn [bind]. intros [= <-]. cbn [index columns values].
  apply standard_scaler_length in Hs. rewrite length_map in Hs.
  destruct (cosine_similarity_returns _ _ _ Hc) as (Hl & Hrows & Hsym).
  rewrite Hs in Hl, Hrows. repeat split; assumption.
Qed.

Lemma similarity_frame_is_square_and_symmetric_witness :
  exists df,
    calculate_county_similarity Sklearn.sqrt_up constant_second_feature
    = Return df
    /\ index df = ["01001"; "01003"]%string
    /\ columns df = index df
    /\ length (values df) = 2%nat
    /\ Forall (fun row => length row = 2%nat) (values df)
    /\ symmetric (values df).
Proof.
  destruct (calculate_county_similarity Sklearn.sqrt_up constant_second_feature)
    as [df|] eqn:E; [|vm_compute in E; discriminate E].
  exists df. split; [reflexivity|].
  exact (similarity_frame_is_square_and_symmetric
           Sklearn.sqrt_up constant_second_feature df E).
Defined.

(** The similarity computation returns exactly for tables with at least one
    county and one feature; any other table makes it raise ValueError. *)
Theorem similarity_raises_without_rows_or_features
  (sqrt : Q -> Q) (flattened_features : list ((Z * Z) * list Q)) :
  (forall x, 0 < x -> 0 < sqrt x) ->
  (Sklearn.n_features (map snd flattened_features) = 0%nat ->
   calculate_county_similarity sqrt flattened_features = Raise ValueError)
  /\ (Sklearn.n_features (map snd flattened_features) <> 0%nat ->
      exists df, calculate_county_similarity sqrt flattened_features = Return df).
Proof.
  intro Hsqrt. split.
  - intro H0. unfold calculate_county_similarity,
      Sklearn.StandardScaler_fit_transform.
    destruct (Nat.eqb (Sklearn.n_samples (map snd flattened_features)) 0);
      [reflexivity|].
    now rewrite H0.
  - intro Hn.
    destruct (similarity_returns sqrt Hsqrt flattened_features) as (df & Hdf & _);
      [lia | eauto].
Qed.

Lemma similarity_raises_without_rows_or_features_witness :
  calculate_county_similarity Sklearn.sqrt_up [] = Raise ValueError
  /\ calculate_county_similarity Sklearn.sqrt_up [((1, 1)%Z, []); ((1, 3)%Z, [])]
     = Raise ValueError
  /\ exists df,
       calculate_county_similarity Sklearn.sqrt_up constant_second_feature
       = Return df.
Proof.
  destruct (similarity_raises_without_rows_or_features Sklearn.sqrt_up []
              sqrt_up_pos) as [Hnone _].
  destruct (similarity_raises_without_rows_or_features Sklearn.sqrt_up
              [((1, 1)%Z, []); ((1, 3)%Z, [])] sqrt_up_pos) as [Hnofeat _].
  destruct (similarity_raises_without_rows_or_features Sklearn.sqrt_up
              constant_second_feature sqrt_up_pos) as [_ Hsome].
  split; [apply Hnone; reflexivity|].
  split; [apply Hnofeat; reflexivity|].
  apply Hsome. discriminate.
Defined.

(** ** The rows the top-N extraction keeps and drops *)

Lemma StronglySorted_app_le {A : Type} (R : A -> A -> Prop) (l1 l2 : list A) :
  StronglySorted R (l1 ++ l2) ->
  forall a b, In a l1 -> In b l2 -> R a b.
Proof.
  induction l1 as [|x l1 IH]; simpl; intros H a b Ha Hb; [contradiction|].
  inversion H as [|? ? Hs Hx]; subst.
  destruct Ha as [<-|Ha].
  - rewrite Forall_forall in Hx. apply Hx. apply in_or_app. now right.
  - now apply IH.
Qed.

Lemma head_length {A : Type} (n : Z) (l : list A) :
  length (head n l)
  = if (0 <=? n)%Z then Nat.min (Z.to_nat n) (length l)
    else (length l - Z.to_nat (- n))%nat.
Proof.
  unfold head. destruct (0 <=? n)%Z; rewrite length_firstn; lia.
Qed.

(** The extraction returns the most similar pairs: the rows it returns and
    the rows it leaves out together are exactly the off-diagonal entries of
    the frame, no row left out is more similar than a row returned, and
    the number of rows returned is [n] capped by the number of entries
    (for a negative [n], all but the [-n] least similar). *)
Theorem top_pairs_are_the_most_similar
  (sorter : list pair_row -> list pair_row) (df : similarity_frame) (n : Z) :
  sorts_descending sorter ->
  exists left_out,
    Permutation (get_top_similar_pairs sorter df n ++ left_out)
                (filter ids_differ (unstack df))
    /\ (forall a b, In a (get_top_similar_pairs sorter df n) ->
                    In b left_out -> Similarity b <= Similarity a)
    /\ length (get_top_similar_pairs sorter df n)
       = if (0 <=? n)%Z
         then Nat.min (Z.to_nat n) (length (filter ids_differ (unstack df)))
         else (length (filter ids_differ (unstack df)) - Z.to_nat (- n))%nat.
Proof.
  intro Hsort. unfold get_top_similar_pairs.
  set (kept := filter ids_differ (unstack df)).
  destruct (Hsort kept) as [Hperm Hsorted].
  destruct (head_prefix n (sorter kept)) as [rest Hrest].
  exists rest. split; [now rewrite <- Hrest|]. split.
  - rewrite Hrest in Hsorted. intros a b Ha Hb.
    exact (StronglySorted_app_le _ _ _ Hsorted a b Ha Hb).
  - rewrite head_length. now rewrite (Permutation_length Hperm).
Qed.

Lemma top_pairs_are_the_most_similar_witness :
  exists left_out,
    Permutation (get_top_similar_pairs insertion_sort_desc two_counties 1
                 ++ left_out)
                (filter ids_differ (unstack two_counties))
    /\ (forall a b,
          In a (get_top_similar_pairs insertion_sort_desc two_counties 1) ->
          In b left_out -> Similarity b <= Similarity a)
    /\ length (get_top_similar_pairs insertion_sort_desc two_counties 1) = 1%nat.
Proof.
  exact (top_pairs_are_the_most_similar insertion_sort_desc two_counties 1
           insertion_sort_desc_sorts).
Defined.

(** ** A successful evaluation *)

Section EvaluationReturns.

Variable lloyd : Z -> matrix Q -> list Z * Q.
Variable silhouette_value : matrix Q -> list Z -> Q.

Lemma KMeans_returns k X fit :
  Sklearn.KMeans_fit_predict lloyd k X = Return fit ->
  (1 <= k <= Z.of_nat (length X))%Z
  /\ exists M, Sklearn.check_array X = Return M /\ fit = lloyd k M.
Proof.
  unfold Sklearn.KMeans_fit_predict.
  destruct (Z.ltb_spec k 1); [discriminate|].
  destruct (check_array_outcome X) as [-> | (M & HM & Hlen)]; [discriminate|].
  rewrite HM. cbn [bind]. unfold Sklearn.n_samples. rewrite Hlen.
  destruct (Z.ltb_spec (Z.of_nat (length X)) k); [discriminate|].
  intros [= <-]. split; [lia | eauto].
Qed.

Lemma silhouette_returns X M labels s :
  Sklearn.check_array X = Return M ->
  Sklearn.silhouette_score_precomputed silhouette_value X labels = Return s ->
  s = silhouette_value M labels.
Proof.
  unfold Sklearn.silhouette_score_precomputed. intros ->. cbn [bind].
  repeat match goal with
         | |- context [if ?b then _ else _] => destruct b; [discriminate|]
         end.
  now intros [= <-].
Qed.

Lemma evaluate_loop_returns distance_matrix k_range :
  forall inertia silhouette_scores i s,
    evaluate_loop lloyd silhouette_value distance_matrix k_range
      inertia silhouette_scores = Return (i, s) ->
    (forall k, In k k_range ->
               (1 <= k <= Z.of_nat (length distance_matrix))%Z)
    /\ (k_range <> [] -> exists M, Sklearn.check_array distance_matrix = Return M)
    /\ forall M, Sklearn.check_array distance_matrix = Return M ->
         i = inertia ++ map (fun k => snd (lloyd k M)) k_range
         /\ s = silhouette_scores
                ++ map (fun k => silhouette_value M (fst (lloyd k M))) k_range.
Proof.
  induction k_range as [|k rest IH]; intros acc1 acc2 i s; cbn [evaluate_loop].
  - intros [= <- <-]. split; [intros k []|]. split; [congruence|].
    intros M _. cbn [map]. now rewrite !app_nil_r.
  - destruct (Sklearn.KMeans_fit_predict lloyd k distance_matrix) as [fit|] eqn:Hfit;
      [|discriminate].
    cbn [bind].
    destruct (Sklearn.silhouette_score_precomputed silhouette_value
                distance_matrix (fst fit)) as [score|] eqn:Hscore;
      [|discriminate].
    cbn [bind]. intro Hloop.
    destruct (KMeans_returns _ _ _ Hfit) as (Hk & M0 & HM0 & ->).
    pose proof (silhouette_returns _ _ _ _ HM0 Hscore) as ->.
    destruct (IH _ _ _ _ Hloop) as (Hbounds & _ & Hvalues).
    split; [|split].
    + intros k' [<-|Hin]; [exact Hk | now apply Hbounds].
    + intros _. eauto.
    + intros M HM. assert (M = M0) by congruence. subst M0.
      destruct (Hvalues M HM) as [-> ->].
      cbn [map]. rewrite <- !app_assoc. split; reflexivity.
Qed.

End EvaluationReturns.

(** When the evaluation returns, its three sequences are parallel: the
    candidate counts as given, and for each of them, in order, the inertia
    and the silhouette score of the K-Means fit with that many clusters on
    the validated matrix.  Every candidate count then lies between 1 and
    the number of rows. *)
Theorem evaluation_returns_parallel_sequences
  (lloyd : Z -> matrix Q -> list Z * Q)
  (silhouette_value : matrix Q -> list Z -> Q)
  (distance_matrix : matrix float) (k_range : list Z) (m : metrics) :
  evaluate_clustering_performance lloyd silhouette_value distance_matrix k_range
  = Return m ->
  k_values m = k_range
  /\ length (inertia m) = length k_range
  /\ length (silhouette m) = length k_range
  /\ (forall k, In k k_range ->
                (1 <= k <= Z.of_nat (length distance_matrix))%Z)
  /\ forall M, Sklearn.check_array distance_matrix = Return M ->
       inertia m = map (fun k => snd (lloyd k M)) k_range
       /\ silhouette m
          = map (fun k => silhouette_value M (fst (lloyd k M))) k_range.
Proof.
  unfold evaluate_clustering_performance.
  destruct (evaluate_loop lloyd silhouette_value distance_matrix k_range [] [])
    as [[i s]|] eqn:Hloop; [|discriminate].
  cbn [bind]. intros [= <-]. cbn [k_values inertia silhouette fst snd].
  destruct (evaluate_loop_returns _ _ _ _ _ _ _ _ Hloop)
    as (Hbounds & Hchecked & Hvalues).
  assert (Hlen : length i = length k_range /\ length s = length k_range).
  { destruct k_range as [|k rest].
    - cbn [evaluate_loop] in Hloop. inversion Hloop. now split.
    - destruct Hchecked as [M HM]; [discriminate|].
      destruct (Hvalues M HM) as [-> ->]. cbn [app].
      now rewrite !length_map. }
  destruct Hlen as [Hli Hls].
  split; [reflexivity|]. split; [exact Hli|]. split; [exact Hls|].
  split; [exact Hbounds|]. exact Hvalues.
Qed.

(** A stand-in for the fit that alternates between two clusters. *)
Definition two_clusters (k : Z) (M : matrix Q) : list Z * Q :=
  (map (fun i => Z.of_nat (i mod 2)) (seq 0 (length M)), inject_Z k).

Definition three_points : matrix float :=
  [[Fin 0; Fin 1; Fin 2]; [Fin 1; Fin 0; Fin 1]; [Fin 2; Fin 1; Fin 0]].

Lemma evaluation_returns_parallel_sequences_witness :
  exists m,
    evaluate_clustering_performance two_clusters no_silhouette three_points
      [2%Z; 3%Z] = Return m
    /\ k_values m = [2%Z; 3%Z]
    /\ length (inertia m) = 2%nat
    /\ length (silhouette m) = 2%nat
    /\ inertia m = [2; 3].
Proof.
  destruct (evaluate_clustering_performance two_clusters no_silhouette
              three_points [2%Z; 3%Z]) as [m|] eqn:E;
    [|vm_compute in E; discriminate E].
  exists m. split; [reflexivity|].
  destruct (evaluation_returns_parallel_sequences two_clusters no_silhouette
              three_points [2%Z; 3%Z] m E) as (Hk & Hi & Hs & _ & Hv).
  split; [exact Hk|]. split; [exact Hi|]. split; [exact Hs|].
  destruct (Hv [[0; 1; 2]; [1; 0; 1]; [2; 1; 0]] eq_refl) as [-> _].
  reflexivity.
Defined.

(** ** Outcomes of [perform_clustering] *)

Lemma fill_diagonal_from_length {A : Type} (v : A) (M : matrix A) :
  forall i, length (fill_diagonal_from i v M) = length M.
Proof. induction M as [|r M IH]; intro i; simpl; [reflexivity | now rewrite IH]. Qed.

Lemma distance_matrix_outcome S :
  distance_matrix_of S = Raise ValueError
  \/ exists lo hi,
       amin (flatten S) = Return lo /\ amax (flatten S) = Return hi
       /\ distance_matrix_of S
          = Return (fill_diagonal (Fin 0)
                      (map_matrix one_minus
                         (map_matrix (fun x => fdiv (x - lo) (hi - lo)) S))).
Proof.
  unfold distance_matrix_of.
  destruct (flatten S) as [|x l] eqn:E; [now left|].
  right. simpl. eauto 6.
Qed.

Lemma distance_matrix_length S D :
  distance_matrix_of S = Return D -> length D = length S.
Proof.
  destruct (distance_matrix_outcome S) as [-> | (lo & hi & _ & _ & ->)];
    [discriminate|].
  intros [= <-]. unfold fill_diagonal, map_matrix.
  now rewrite fill_diagonal_from_length, !length_map.
Qed.

(** Clustering raises ValueError whenever the requested number of clusters
    is below 1 or above the number of counties in the frame; an empty frame
    therefore never clusters. *)
Theorem perform_clustering_rejects_cluster_count
  (lloyd : Z -> matrix Q -> list Z * Q) (similarity_df : similarity_frame)
  (n_clusters : Z) :
  (n_clusters < 1 \/ Z.of_nat (length (values similarity_df)) < n_clusters)%Z ->
  perform_clustering lloyd similarity_df n_clusters = Raise ValueError.
Proof.
  intro Hk. unfold perform_clustering.
  destruct (distance_matrix_of (values similarity_df)) as [D|cls] eqn:HD.
  - cbn [bind]. apply distance_matrix_length in HD.
    destruct (KMeans_outcome lloyd n_clusters D) as [-> | (Hge & fit & Hfit)];
      [reflexivity|].
    unfold Sklearn.KMeans_fit_predict in Hfit.
    destruct (Z.ltb_spec n_clusters 1); [discriminate|]. lia.
  - destruct (distance_matrix_outcome (values similarity_df))
      as [H | (lo & hi & _ & _ & H)]; rewrite H in HD; [|discriminate].
    inversion HD. reflexivity.
Qed.

Lemma perform_clustering_rejects_cluster_count_witness :
  perform_clustering one_cluster two_counties 3 = Raise ValueError
  /\ perform_clustering one_cluster two_counties 0 = Raise ValueError
  /\ perform_clustering one_cluster
       {| index := []; columns := []; values := [] |} 1 = Raise ValueError.
Proof.
  split; [|split];
    apply perform_clustering_rejects_cluster_count; simpl; lia.
Defined.

(** *** A similarity that is the same everywhere *)

Lemma fold_min_In l : forall x, In (fold_left Qmin2 l x) (x :: l).
Proof.
  induction l as [|y l IH]; intro x; simpl; [now left|].
  destruct (IH (Qmin2 x y)) as [H|H]; [|now right; right].
  rewrite <- H. unfold Qmin2. destruct (Qle_bool x y); [now left | right; now left].
Qed.

Lemma fold_max_In l : forall x, In (fold_left Qmax2 l x) (x :: l).
Proof.
  induction l as [|y l IH]; intro x; simpl; [now left|].
  destruct (IH (Qmax2 x y)) as [H|H]; [|now right; right].
  rewrite <- H. unfold Qmax2. destruct (Qle_bool x y); [right; now left | now left].
Qed.

Lemma finite_row_nth r j x :
  nth_error r j = Some x -> Sklearn.finite x = None -> Sklearn.finite_row r = None.
Proof.
  revert j. induction r as [|y r IH]; intros [|j] Hj Hx; simpl in *;
    try discriminate.
  - inversion Hj; subst. now rewrite Hx.
  - rewrite (IH _ Hj Hx). now destruct (Sklearn.finite y).
Qed.

Lemma finite_matrix_cell X i j x :
  cell X i j = Some x -> Sklearn.finite x = None -> Sklearn.finite_matrix X = None.
Proof.
  unfold cell. revert i. induction X as [|r X IH]; intros [|i] Hc Hx; simpl in *;
    try discriminate.
  - now rewrite (finite_row_nth _ _ _ Hc Hx).
  - rewrite (IH _ Hc Hx). now destruct (Sklearn.finite_row r).
Qed.

(** A frame whose similarities are all equal and which has an entry off the
    diagonal, that is at least two counties, cannot be clustered: the
    normalised matrix holds NaN there and K-Means raises ValueError,
    whatever the number of clusters. *)
Theorem perform_clustering_constant_frame
  (lloyd : Z -> matrix Q -> list Z * Q) (similarity_df : similarity_frame)
  (n_clusters : Z) (c : Q) (i j : nat) (x : Q) :
  all_cells (fun y => y == c) (values similarity_df) ->
  cell (values similarity_df) i j = Some x ->
  i <> j ->
  perform_clustering lloyd similarity_df n_clusters = Raise ValueError.
Proof.
  intros Hconst Hcell Hij. unfold perform_clustering.
  set (S := values similarity_df) in *.
  assert (Hall : forall y, In y (flatten S) -> y == c).
  { intros y Hy. unfold flatten in Hy. apply in_concat in Hy.
    destruct Hy as (r & Hr & Hy). unfold all_cells in Hconst.
    rewrite Forall_forall in Hconst. specialize (Hconst r Hr).
    rewrite Forall_forall in Hconst. now apply Hconst. }
  destruct (distance_matrix_outcome S) as [-> | (lo & hi & Hlo & Hhi & ->)];
    [reflexivity|].
  cbn [bind].
  assert (Hlo' : lo == c).
  { destruct (flatten S) as [|y l]; [discriminate|]. simpl in Hlo.
    inversion Hlo; subst lo. apply Hall. apply fold_min_In. }
  assert (Hhi' : hi == c).
  { destruct (flatten S) as [|y l]; [discriminate|]. simpl in Hhi.
    inversion Hhi; subst hi. apply Hall. apply fold_max_In. }
  assert (Hx : x == c) by (apply Hall; eapply cell_In; eauto).
  assert (HNaN : cell (fill_diagonal (Fin 0)
                         (map_matrix one_minus
                            (map_matrix (fun x => fdiv (x - lo) (hi - lo)) S)))
                      i j = Some NaN).
  { rewrite cell_distance, Hcell.
    assert (E : Nat.eqb j i = false) by (apply Nat.eqb_neq; congruence).
    rewrite E. unfold fdiv.
    assert (E1 : Qeq_bool (hi - lo) 0 = true) by (apply Qeq_bool_iff; lra).
    assert (E2 : Qeq_bool (x - lo) 0 = true) by (apply Qeq_bool_iff; lra).
    now rewrite E1, E2. }
  unfold Sklearn.KMeans_fit_predict.
  destruct (n_clusters <? 1)%Z; [reflexivity|].
  unfold Sklearn.check_array.
  rewrite (finite_matrix_cell _ _ _ _ HNaN eq_refl).
  repeat match goal with
         | |- context [if ?b then _ else _] => destruct b
         end; reflexivity.
Qed.

Lemma perform_clustering_constant_frame_witness :
  perform_clustering one_cluster
    {| index := ["01001"; "01003"]%string;
       columns := ["01001"; "01003"]%string;
       values := [[1; 1]; [1; 1]] |} 2 = Raise ValueError.
Proof.
  apply (perform_clustering_constant_frame one_cluster _ 2 1 0%nat 1%nat 1).
  - repeat constructor.
  - reflexivity.
  - discriminate.
Defined.

(** *** One label per county *)

Lemma map_fst_combine {A B : Type} (a : list A) (b : list B) :
  length a = length b -> map fst (combine a b) = a.
Proof.
  revert b. induction a as [|x a IH]; intros [|y b] H; simpl in *;
    try discriminate; [reflexivity|].
  f_equal. apply IH. lia.
Qed.

(** When the fit labels every sample and the frame has one identifier per
    row, a clustering that returns lists the counties of the frame, each
    once and in the order of the index. *)
Theorem perform_clustering_labels_every_county
  (lloyd : Z -> matrix Q -> list Z * Q) (similarity_df : similarity_frame)
  (n_clusters : Z) (clustered_df : list (string * Z)) :
  (forall k M, length (fst (lloyd k M)) = length M) ->
  length (index similarity_df) = length (values similarity_df) ->
  perform_clustering lloyd similarity_df n_clusters = Return clustered_df ->
  map fst clustered_df = index similarity_df
  /\ (1 <= n_clusters <= Z.of_nat (length (index similarity_df)))%Z.
Proof.
  intros Hlloyd Hframe. unfold perform_clustering.
  destruct (distance_matrix_of (values similarity_df)) as [D|] eqn:HD;
    [|discriminate].
  cbn [bind]. apply distance_matrix_length in HD.
  destruct (Sklearn.KMeans_fit_predict lloyd n_clusters D) as [fit|] eqn:Hfit;
    [|discriminate].
  cbn [bind]. intros [= <-].
  destruct (KMeans_returns _ _ _ _ Hfit) as (Hk & M & HM & ->).
  destruct (check_array_outcome D) as [HR | (M' & HM' & Hlen)]; [congruence|].
  assert (M' = M) by congruence. subst M'.
  split; [|lia].
  apply map_fst_combine. rewrite Hlloyd. lia.
Qed.

Lemma perform_clustering_labels_every_county_witness :
  exists clustered_df,
    perform_clustering one_cluster two_counties 2 = Return clustered_df
    /\ map fst clustered_df = ["01001"; "01003"]%string.
Proof.
  destruct (perform_clustering one_cluster two_counties 2) as [r|] eqn:E;
    [|vm_compute in E; discriminate E].
  exists r. split; [reflexivity|].
  apply (perform_clustering_labels_every_county one_cluster two_counties 2 r).
  - intros k M. unfold one_cluster. simpl. now rewrite length_map.
  - reflexivity.
  - exact E.
Defined.

(** ** What cluster characterisation leaves alone, and what it returns *)

Lemma lookup_setitem_other df name c other :
  other <> name -> Frame.lookup (Frame.setitem df name c) other = Frame.lookup df other.
Proof.
  intro Hne. induction df as [|[n old] df IH]; simpl.
  - destruct (String.eqb_spec name other); [congruence | reflexivity].
  - destruct (String.eqb_spec n name) as [->|Hn]; simpl.
    + destruct (String.eqb_spec name other); [congruence | reflexivity].
    + destruct (String.eqb n other); [reflexivity | exact IH].
Qed.

Lemma setitem_twice df name c :
  Frame.setitem (Frame.setitem df name c) name c = Frame.setitem df name c.
Proof.
  induction df as [|[n old] df IH]; simpl.
  - now rewrite String.eqb_refl.
  - destruct (String.eqb n name) eqn:E; simpl; rewrite E; [reflexivity|].
    now rewrite IH.
Qed.

(** Cluster characterisation changes nothing of the caller's table but the
    GEOID column; a table without a STATE or a COUNTY column is left as it
    was and the call raises KeyError; and a second call on the same table
    changes it no further. *)
Theorem analyze_touches_only_the_GEOID_column
  (repr_float : Q -> string) (data : Frame.frame)
  (clustered_df : list (string * Z)) (feature_cols : list string) :
  (forall name, name <> "GEOID"%string ->
     Frame.lookup
       (fst (analyze_cluster_characteristics repr_float data clustered_df
               feature_cols)) name
     = Frame.lookup data name)
  /\ (Frame.lookup data "STATE" = None \/ Frame.lookup data "COUNTY" = None ->
      analyze_cluster_characteristics repr_float data clustered_df feature_cols
      = (data, Raise KeyError))
  /\ (forall clustered_df' feature_cols',
        fst (analyze_cluster_characteristics repr_float
               (fst (analyze_cluster_characteristics repr_float data
                       clustered_df feature_cols))
               clustered_df' feature_cols')
        = fst (analyze_cluster_characteristics repr_float data clustered_df
                 feature_cols)).
Proof.
  unfold analyze_cluster_characteristics, Frame.getitem.
  destruct (Frame.lookup data "STATE") as [state|] eqn:Hs.
  2:{ split; [reflexivity|]. split; [reflexivity|].
      intros. cbn [fst]. now rewrite Hs. }
  destruct (Frame.lookup data "COUNTY") as [county|] eqn:Hc.
  2:{ split; [reflexivity|]. split; [reflexivity|].
      intros. cbn [fst]. now rewrite Hs, Hc. }
  cbn [fst]. split; [|split].
  - intros name Hname. now apply lookup_setitem_other.
  - intros [H|H]; discriminate H.
  - intros clustered_df' feature_cols'.
    rewrite !lookup_setitem_other by discriminate.
    rewrite Hs, Hc. cbn [fst]. apply setitem_twice.
Qed.

Example analyze_without_county_column :
  analyze_cluster_characteristics digits_only
    [ ("STATE"%string, [Frame.VInt 1]); ("AGE"%string, [Frame.VNum 30]) ]
    demographics_clusters ["AGE"%string]
  = ([ ("STATE"%string, [Frame.VInt 1]); ("AGE"%string, [Frame.VNum 30]) ],
     Raise KeyError).
Proof. reflexivity. Qed.

(** *** The rows of the summary *)

Lemma each_returns {A B : Type} (f : A -> outcome B) (l : list A) (bs : list B) :
  each f l = Return bs -> Forall2 (fun a b => f a = Return b) l bs.
Proof.
  revert bs. induction l as [|a l IH]; simpl; intros bs H.
  - inversion H. constructor.
  - destruct (f a) as [b|] eqn:Hb; [|discriminate]. cbn [bind] in H.
    destruct (each f l) as [bs'|]; [|discriminate]. cbn [bind] in H.
    inversion H; subst. constructor; [exact Hb | now apply IH].
Qed.

Lemma insert_cluster_In c l x :
  In x (insert_cluster c l) <-> x = c \/ In x l.
Proof.
  induction l as [|d l IH]; simpl; [intuition|].
  destruct (Z.ltb_spec c d); [simpl; intuition|].
  destruct (Z.eqb_spec c d) as [->|Hne]; simpl; [intuition|].
  rewrite IH. intuition.
Qed.

Lemma insert_cluster_sorted c l :
  StronglySorted Z.lt l -> StronglySorted Z.lt (insert_cluster c l).
Proof.
  induction 1 as [|d l Hs IH Hd]; simpl.
  - constructor; constructor.
  - destruct (Z.ltb_spec c d).
    + constructor; [now constructor|].
      constructor; [exact H|]. eapply Forall_impl; [|exact Hd].
      intros z Hz. simpl in Hz. lia.
    + destruct (Z.eqb_spec c d) as [->|Hne]; [now constructor|].
      constructor; [exact IH|].
      apply Forall_forall. intros z Hz. apply insert_cluster_In in Hz.
      destruct Hz as [->|Hz]; [lia|].
      rewrite Forall_forall in Hd. now apply Hd.
Qed.

Lemma group_keys_In merged c : In c (group_keys merged) <-> In c (map snd merged).
Proof.
  unfold group_keys. induction (map snd merged) as [|d l IH]; simpl; [tauto|].
  rewrite insert_cluster_In, IH. intuition.
Qed.

Lemma group_keys_sorted merged : StronglySorted Z.lt (group_keys merged).
Proof.
  unfold group_keys. induction (map snd merged) as [|d l IH]; simpl.
  - constructor.
  - now apply insert_cluster_sorted.
Qed.

Lemma In_enumerate {A : Type} (l : list A) :
  forall start i v,
    nth_error l i = Some v ->
    In ((start + i)%nat, v) (combine (seq start (length l)) l).
Proof.
  induction l as [|v0 l IH]; intros start [|i] v Hi; simpl in *;
    try discriminate.
  - inversion Hi. left. f_equal. lia.
  - right. replace (start + S i)%nat with (S start + i)%nat by lia.
    now apply IH.
Qed.

Lemma merge_inner_clusters geoids clustered_df c :
  In c (map snd (merge_inner geoids clustered_df))
  <-> exists g, In (Frame.VStr g) geoids /\ In (g, c) clustered_df.
Proof.
  unfold merge_inner. rewrite in_map_iff. split.
  - intros ([i c'] & Hc & Hin). simpl in Hc. subst c'.
    apply in_flat_map in Hin. destruct Hin as ([i' v] & Hiv & Hin).
    apply in_map_iff in Hin. destruct Hin as ([g c'] & Heq & Hf).
    simpl in Heq. inversion Heq; subst. apply filter_In in Hf.
    destruct Hf as [Hcl Hmatch]. simpl in Hmatch.
    destruct v as [z|g'|q]; try discriminate.
    apply String.eqb_eq in Hmatch. subst g'.
    exists g. split; [|exact Hcl]. now apply in_combine_r in Hiv.
  - intros (g & Hg & Hcl). apply In_nth_error in Hg. destruct Hg as [i Hi].
    exists (i, c). split; [reflexivity|].
    apply in_flat_map. exists (i, Frame.VStr g). split.
    + exact (In_enumerate geoids 0 i (Frame.VStr g) Hi).
    + apply in_map_iff. exists (g, c). split; [reflexivity|].
      apply filter_In. split; [exact Hcl|]. simpl. apply String.eqb_refl.
Qed.

(** When cluster characterisation returns, its summary has one row per
    cluster that some county of the table belongs to: the clusters are in
    strictly ascending order, a cluster has a row exactly when the table
    holds a county whose identifier the cluster table assigns to it, and
    every row carries one mean per requested feature. *)
Theorem cluster_summary_has_a_row_per_matched_cluster
  (repr_float : Q -> string) (data : Frame.frame)
  (clustered_df : list (string * Z)) (feature_cols : list string)
  (state county : Frame.series) (summary : list (Z * list Q)) :
  Frame.getitem data "STATE" = Return state ->
  Frame.getitem data "COUNTY" = Return county ->
  snd (analyze_cluster_characteristics repr_float data clustered_df feature_cols)
  = Return summary ->
  StronglySorted Z.lt (map fst summary)
  /\ (forall c, In c (map fst summary)
                <-> exists g,
                      In (Frame.VStr g) (geoid_series repr_float state county)
                      /\ In (g, c) clustered_df)
  /\ Forall (fun row => length (snd row) = length feature_cols) summary.
Proof.
  intros Hs Hc. unfold analyze_cluster_characteristics. rewrite Hs, Hc.
  cbn [snd].
  destruct (existsb _ _); [discriminate|].
  unfold Frame.getitem at 1. rewrite Frame.lookup_setitem_same. cbn [bind].
  set (data' := Frame.setitem data "GEOID" (geoid_series repr_float state county)).
  set (merged := merge_inner (geoid_series repr_float state county) clustered_df).
  unfold groupby_mean.
  destruct (each (Frame.getitem data') feature_cols) as [features|] eqn:Hf;
    [|discriminate].
  cbn [bind]. intro Hsum.
  apply each_returns in Hf. apply each_returns in Hsum.
  assert (Hkeys : map fst summary = group_keys merged
                  /\ Forall (fun row => length (snd row) = length feature_cols)
                            summary).
  { apply Forall2_length in Hf.
    clear -Hsum Hf. induction Hsum as [|c row keys rows Hrow Hrest IH].
    - split; constructor.
    - destruct IH as [IH1 IH2].
      destruct (each (fun col => cluster_mean col merged c) features)
        as [means|] eqn:Hm; [|discriminate].
      cbn [bind] in Hrow. inversion Hrow; subst row. simpl.
      split; [now rewrite IH1|]. constructor; [|exact IH2].
      simpl. apply each_returns, Forall2_length in Hm. lia. }
  destruct Hkeys as [Hkeys Hlens]. rewrite Hkeys.
  split; [apply group_keys_sorted|]. split; [|exact Hlens].
  intro c. rewrite group_keys_In. apply merge_inner_clusters.
Qed.

Lemma cluster_summary_has_a_row_per_matched_cluster_witness :
  exists summary,
    snd (analyze_cluster_characteristics digits_only demographics
           demographics_clusters ["AGE"%string]) = Return summary
    /\ StronglySorted Z.lt (map fst summary)
    /\ (forall c, In c (map fst summary)
                  <-> exists g,
                        In (Frame.VStr g)
                           (geoid_series digits_only
                              [Frame.VInt 1; Frame.VInt 6]
                              [Frame.VInt 1; Frame.VInt 37])
                        /\ In (g, c) demographics_clusters)
    /\ Forall (fun row => length (snd row) = 1%nat) summary.
Proof.
  eexists. split; [reflexivity|].
  exact (cluster_summary_has_a_row_per_matched_cluster digits_only demographics
           demographics_clusters ["AGE"%string] _ _ _ eq_refl eq_refl eq_refl).
Defined.

End Clustering.

(* ================================================================== *)
(** * [src/spatial_analysis.py] *)
(* ================================================================== *)

Module Spatial.

Import Py Nx.

(** A row of the county layer once STATE and COUNTY hold the integer codes
    (lines 16-18 of [build_adjacency_graph]). *)
Record county_shape (geometry : Type) : Type := {
  STATE : Z;
  COUNTY : Z;
  geom : geometry
}.

Arguments STATE {geometry} _.
Arguments COUNTY {geometry} _.
Arguments geom {geometry} _.

(** A row of the adjacency table. *)
Module Adjacency.
Record row : Type := {
  County_STATE : Z;
  COUNTY : Z;
  Neighbor_STATE : Z;
  Neighbor_COUNTY : Z
}.
End Adjacency.

(** A row of the weighted network table: an adjacency row with the year and
    the metric at both ends. *)
Record network_row : Type := {
  YEAR : Z;
  edge : Adjacency.row;
  metric_County : Q;
  metric_Neighbor : Q
}.

(** A row of the PageRank table. *)
Module Rank.
Record row : Type := {
  PageRank : Q;
  County_STATE : Z;
  COUNTY : Z
}.
End Rank.

(** A row of the degree table. *)
Module Deg.
Record row : Type := {
  Degree : nat;
  STATE : Z;
  COUNTY : Z
}.
End Deg.

Definition county_of (r : Adjacency.row) : node :=
  (Adjacency.County_STATE r, Adjacency.COUNTY r).

Definition neighbor_of (r : Adjacency.row) : node :=
  (Adjacency.Neighbor_STATE r, Adjacency.Neighbor_COUNTY r).

Definition adjacency_row (county neighbor : node) : Adjacency.row :=
  {| Adjacency.County_STATE := fst county;
     Adjacency.COUNTY := snd county;
     Adjacency.Neighbor_STATE := fst neighbor;
     Adjacency.Neighbor_COUNTY := snd neighbor |}.

Definition row_eqb (a b : Adjacency.row) : bool :=
  (node_eqb (county_of a) (county_of b)
   && node_eqb (neighbor_of a) (neighbor_of b))%bool.

(** The order of [sort_values] on the four columns, in turn. *)
Definition row_leb (a b : Adjacency.row) : bool :=
  if (Adjacency.County_STATE a <? Adjacency.County_STATE b)%Z then true
  else if negb (Adjacency.County_STATE a =? Adjacency.County_STATE b)%Z then false
  else if (Adjacency.COUNTY a <? Adjacency.COUNTY b)%Z then true
  else if negb (Adjacency.COUNTY a =? Adjacency.COUNTY b)%Z then false
  else if (Adjacency.Neighbor_STATE a <? Adjacency.Neighbor_STATE b)%Z then true
  else if negb (Adjacency.Neighbor_STATE a =? Adjacency.Neighbor_STATE b)%Z then false
  else (Adjacency.Neighbor_COUNTY a <=? Adjacency.Neighbor_COUNTY b)%Z.

Definition row_le (a b : Adjacency.row) : Prop := row_leb a b = true.

(** [drop_duplicates()]: the first occurrence of every row is kept. *)
Fixpoint drop_duplicates (l : list Adjacency.row) : list Adjacency.row :=
  match l with
  | [] => []
  | x :: l' => x :: filter (fun y => negb (row_eqb x y)) (drop_duplicates l')
  end.

(** [sort_values] on all four columns.  The rows are distinct by then, so
    the ascending arrangement is unique and any sorting procedure yields
    it; insertion is used here. *)
Definition sort_values (l : list Adjacency.row) : list Adjacency.row :=
  Sort.insertion_sort row_leb l.

(** The graph after the loop of lines 41-44. *)
Definition graph_of_rows (adjacency_df : list Adjacency.row) : adjacency unit :=
  fold_left (fun G row => Graph_add_edge G (county_of row) (neighbor_of row) tt)
            adjacency_df [].

Section Geometry.

Variable geometry : Type.

(** [a.touches(b)]. *)
Variable touches : geometry -> geometry -> bool.

Definition key (c : county_shape geometry) : node := (STATE c, COUNTY c).

(** Lines 20-31: for every county, in order, a record for every row of the
    layer whose geometry touches the county's. *)
Definition adjacency_records (gdf : list (county_shape geometry))
  : list Adjacency.row :=
  flat_map
    (fun county =>
       map (fun neighbor => adjacency_row (key county) (key neighbor))
           (filter (fun g => touches (geom g) (geom county)) gdf))
    gdf.

(** [build_adjacency_graph].  A frame built from an empty list of records
    has no columns, and sorting it by County_STATE raises KeyError. *)
Definition build_adjacency_graph (gdf : list (county_shape geometry))
  : outcome (list Adjacency.row * adjacency unit) :=
  match adjacency_records gdf with
  | [] => Raise KeyError
  | adjacency_list =>
      let adjacency_df := sort_values (drop_duplicates adjacency_list) in
      Return (adjacency_df, graph_of_rows adjacency_df)
  end.

End Geometry.

Arguments key {geometry} c.
Arguments adjacency_records {geometry} touches gdf.
Arguments build_adjacency_graph {geometry} touches gdf.

Definition source (r : network_row) : node := county_of (edge r).
Definition target (r : network_row) : node := neighbor_of (edge r).

(** One turn of the loop of lines 92-101. *)
Definition pagerank_graph_step (G : adjacency Q) (row : network_row) : adjacency Q :=
  let G := DiGraph_add_edge G (source row) (target row) (metric_Neighbor row) in
  if has_edge G (source row) (source row) then G
  else DiGraph_add_edge G (source row) (source row) (metric_County row).

(** The directed graph handed to [nx.pagerank]. *)
Definition pagerank_graph (network_data : list network_row) : adjacency Q :=
  fold_left pagerank_graph_step network_data [].

(** The number of columns of [pd.DataFrame(tuples)] for a list of pairs:
    two, and none for the empty list. *)
Definition tuple_frame_width (tuples : list node) : nat :=
  match tuples with
  | [] => 0%nat
  | _ :: _ => 2%nat
  end.

(** [df[keys] = frame]: the frame must bring one column per key. *)
Definition assign_columns (keys : list string) (width : nat) : outcome unit :=
  if Nat.eqb (length keys) width then Return tt else Raise ValueError.

(** [df.iloc[0]]. *)
Definition iloc0 {A : Type} (df : list A) : outcome A :=
  match df with
  | [] => Raise IndexError
  | r :: _ => Return r
  end.

Section Centrality.

(** The power iteration of [nx.pagerank] on a graph with nodes: a score
    per node in node order, or the exception raised when it does not
    converge. *)
Variable power_iteration : adjacency Q -> outcome (list (node * Q)).

(** [sort_values(by='PageRank', ascending=False)]. *)
Variable sort_by_pagerank : list Rank.row -> list Rank.row.

(** [sort_values(by='Degree', ascending=False)]. *)
Variable sort_by_degree : list Deg.row -> list Deg.row.

(** [nx.pagerank(G, weight='weight')]: the empty graph has the empty score
    table. *)
Definition nx_pagerank (G : adjacency Q) : outcome (list (node * Q)) :=
  match G with
  | [] => Return []
  | _ :: _ => power_iteration G
  end.

(** [calculate_pagerank]. *)
Definition calculate_pagerank (network_data : list network_row)
  : outcome (list Rank.row * (Z * Z * Q)) :=
  let G := pagerank_graph network_data in
  pagerank_scores <- nx_pagerank G ;;
  _ <- assign_columns ["County_STATE"; "COUNTY"]%string
         (tuple_frame_width (map fst pagerank_scores)) ;;
  let pagerank_df :=
    sort_by_pagerank
      (map (fun s => {| Rank.PageRank := snd s;
                        Rank.County_STATE := fst (fst s);
                        Rank.COUNTY := snd (fst s) |}) pagerank_scores) in
  max_county <- iloc0 pagerank_df ;;
  Return (pagerank_df,
          (Rank.County_STATE max_county, Rank.COUNTY max_county,
           Rank.PageRank max_county)).

(** [get_degree_centrality]. *)
Definition get_degree_centrality (adjacency_graph : adjacency unit)
  : outcome (list Deg.row) :=
  let degrees := degree_view adjacency_graph in
  _ <- assign_columns ["STATE"; "COUNTY"]%string
         (tuple_frame_width (map fst degrees)) ;;
  Return (sort_by_degree
            (map (fun d => {| Deg.Degree := snd d;
                              Deg.STATE := fst (fst d);
                              Deg.COUNTY := snd (fst d) |}) degrees)).

End Centrality.

(** ** Degree of an isolated county *)

(** Handed a graph in which a county is a node without neighbours, the
    operation gives the county a row in the degree table, and every row
    of that county carries degree 0.  [build_adjacency_graph] builds no
    such graph: it enters nodes through [add_edge] only. *)
Lemma isolated_node_has_degree_zero
  (sort_by_degree : list Deg.row -> list Deg.row)
  (adjacency_graph : adjacency unit) (c : node) :
  (forall l, Permutation (sort_by_degree l) l) ->
  graph_wf adjacency_graph ->
  get adjacency_graph c = Some [] ->
  exists degree_df,
    get_degree_centrality sort_by_degree adjacency_graph = Return degree_df
    /\ In {| Deg.Degree := 0; Deg.STATE := fst c; Deg.COUNTY := snd c |} degree_df
    /\ forall r, In r degree_df ->
                 (Deg.STATE r, Deg.COUNTY r) = c -> Deg.Degree r = 0%nat.
Proof.
  intros Hsort [Hkeys _] Hc. unfold get_degree_centrality.
  destruct adjacency_graph as [|e G] eqn:EG; [discriminate|].
  rewrite <- EG in *. 
  assert (Hw : tuple_frame_width (map fst (degree_view adjacency_graph)) = 2%nat).
  { rewrite EG. reflexivity. }
  rewrite Hw. cbn [assign_columns length Nat.eqb bind].
  eexists. split; [reflexivity|]. split.
  - apply (Permutation_in _ (Permutation_sym (Hsort _))).
    apply in_map_iff. exists (c, 0%nat). split; [reflexivity|].
    unfold degree_view. apply in_map_iff. exists (c, []). split; [reflexivity|].
    now apply get_In.
  - intros r Hr Hkey.
    apply (Permutation_in _ (Hsort _)) in Hr.
    apply in_map_iff in Hr. destruct Hr as ([n d] & <- & Hd).
    simpl in Hkey |- *.
    unfold degree_view in Hd. apply in_map_iff in Hd.
    destruct Hd as ([n' nbrs] & Heq & Hin). simpl in Heq.
    inversion Heq; subst n' d. clear Heq.
    assert (n = c) by (destruct n; exact Hkey). subst n.
    apply (In_get _ _ _ Hkeys) in Hin. rewrite Hc in Hin.
    inversion Hin; subst nbrs. reflexivity.
Qed.

(** Descending order of degree, by insertion. *)
Definition sort_degree_desc : list Deg.row -> list Deg.row :=
  Sort.insertion_sort (fun a b => Nat.leb (Deg.Degree b) (Deg.Degree a)).

(** Counties (1,1) and (1,3) share a border; (2,5) is a node without any. *)
Definition graph_with_isolate : adjacency unit :=
  add_node (Graph_add_edge [] (1, 1)%Z (1, 3)%Z tt) (2, 5)%Z.

Lemma graph_with_isolate_wf : graph_wf graph_with_isolate.
Proof.
  apply add_node_wf, Graph_add_edge_wf. split; constructor.
Qed.

Example isolated_node_of_graph_with_isolate :
  exists degree_df,
    get_degree_centrality sort_degree_desc graph_with_isolate = Return degree_df
    /\ In {| Deg.Degree := 0; Deg.STATE := 2; Deg.COUNTY := 5 |} degree_df
    /\ forall r, In r degree_df ->
                 (Deg.STATE r, Deg.COUNTY r) = (2, 5)%Z -> Deg.Degree r = 0%nat.
Proof.
  apply (isolated_node_has_degree_zero sort_degree_desc graph_with_isolate
           (2, 5)%Z).
  - intro l. apply Sort.insertion_sort_perm.
  - exact graph_with_isolate_wf.
  - reflexivity.
Defined.

Example degree_table_with_isolate :
  get_degree_centrality sort_degree_desc graph_with_isolate
  = Return [ {| Deg.Degree := 1; Deg.STATE := 1; Deg.COUNTY := 1 |};
             {| Deg.Degree := 1; Deg.STATE := 1; Deg.COUNTY := 3 |};
             {| Deg.Degree := 0; Deg.STATE := 2; Deg.COUNTY := 5 |} ].
Proof. reflexivity. Qed.

(** ** The adjacency table and the undirected graph *)

Lemma row_eqb_eq a b : row_eqb a b = true <-> a = b.
Proof.
  unfold row_eqb. rewrite andb_true_iff, !node_eqb_eq.
  destruct a, b. unfold county_of, neighbor_of. simpl. split.
  - intros [H1 H2]. inversion H1. inversion H2. now subst.
  - intros [= -> -> -> ->]. split; reflexivity.
Qed.

Lemma adjacency_row_ends r : adjacency_row (county_of r) (neighbor_of r) = r.
Proof. now destruct r. Qed.

Lemma county_of_adjacency_row u v : county_of (adjacency_row u v) = u.
Proof. now destruct u, v. Qed.

Lemma neighbor_of_adjacency_row u v : neighbor_of (adjacency_row u v) = v.
Proof. now destruct u, v. Qed.

(** The order of the sort, column by column. *)
Definition row_lex (a b : Adjacency.row) : Prop :=
  (Adjacency.County_STATE a < Adjacency.County_STATE b
   \/ (Adjacency.County_STATE a = Adjacency.County_STATE b
       /\ (Adjacency.COUNTY a < Adjacency.COUNTY b
           \/ (Adjacency.COUNTY a = Adjacency.COUNTY b
               /\ (Adjacency.Neighbor_STATE a < Adjacency.Neighbor_STATE b
                   \/ (Adjacency.Neighbor_STATE a = Adjacency.Neighbor_STATE b
                       /\ Adjacency.Neighbor_COUNTY a
                          <= Adjacency.Neighbor_COUNTY b))))))%Z.

Lemma row_leb_lex a b : row_leb a b = true <-> row_lex a b.
Proof.
  unfold row_leb, row_lex.
  repeat match goal with
         | |- context [(?x <? ?y)%Z] => destruct (Z.ltb_spec x y)
         | |- context [(?x =? ?y)%Z] => destruct (Z.eqb_spec x y)
         | |- context [(?x <=? ?y)%Z] => destruct (Z.leb_spec x y)
         end; simpl; split; intro; try discriminate; try reflexivity; lia.
Qed.

Lemma row_leb_total a b : row_leb a b = false -> row_leb b a = true.
Proof.
  intro H. apply row_leb_lex.
  assert (Hn : ~ row_lex a b) by (rewrite <- row_leb_lex; congruence).
  unfold row_lex in *. lia.
Qed.

Lemma row_leb_trans a b c :
  row_leb a b = true -> row_leb b c = true -> row_leb a c = true.
Proof.
  rewrite !row_leb_lex. unfold row_lex. lia.
Qed.

Lemma sort_values_perm l : Permutation (sort_values l) l.
Proof. apply Sort.insertion_sort_perm. Qed.

Lemma sort_values_sorted l : StronglySorted row_le (sort_values l).
Proof.
  apply Sort.insertion_sort_sorted; [apply row_leb_total | apply row_leb_trans].
Qed.

Lemma drop_duplicates_In x l : In x (drop_duplicates l) <-> In x l.
Proof.
  induction l as [|y l IH]; simpl; [tauto|].
  rewrite filter_In, IH. split.
  - intros [H|[H _]]; auto.
  - intros [H|H]; [now left|].
    destruct (row_eqb y x) eqn:E.
    + apply row_eqb_eq in E. now left.
    + right. split; [exact H | reflexivity].
Qed.

Lemma drop_duplicates_NoDup l : NoDup (drop_duplicates l).
Proof.
  induction l as [|y l IH]; simpl; constructor.
  - rewrite filter_In. intros [_ H].
    assert (E : row_eqb y y = true) by now apply row_eqb_eq.
    rewrite E in H. discriminate.
  - now apply NoDup_filter.
Qed.

(** *** The graph assembled from a table of rows *)

Lemma fold_add_edge_wf rows : forall G,
  graph_wf G ->
  graph_wf (fold_left (fun G row =>
                         Graph_add_edge G (county_of row) (neighbor_of row) tt)
                      rows G).
Proof.
  induction rows as [|r rows IH]; intros G HG; simpl; [exact HG|].
  apply IH. now apply Graph_add_edge_wf.
Qed.

Lemma fold_add_edge_has_edge rows : forall G u v,
  has_edge (fold_left (fun G row =>
                         Graph_add_edge G (county_of row) (neighbor_of row) tt)
                      rows G) u v = true
  <-> has_edge G u v = true
      \/ exists r, In r rows
                   /\ ((county_of r = u /\ neighbor_of r = v)
                       \/ (county_of r = v /\ neighbor_of r = u)).
Proof.
  induction rows as [|r rows IH]; intros G u v; simpl.
  - split; [now left | intros [H|(r & [] & _)]; exact H].
  - rewrite IH. rewrite (has_edge_get_edge (Graph_add_edge _ _ _ _)).
    rewrite get_edge_Graph_add_edge.
    destruct ((node_eqb (county_of r) u && node_eqb (neighbor_of r) v)
              || (node_eqb (neighbor_of r) u && node_eqb (county_of r) v))%bool
      eqn:E; [|rewrite <- has_edge_get_edge].
    + apply orb_true_iff in E. rewrite !andb_true_iff, !node_eqb_eq in E.
      split; [|now left]. intros _. right. exists r. split; [now left|].
      tauto.
    + apply orb_false_iff in E. rewrite !andb_false_iff, !node_eqb_neq in E.
      split.
      * intros [H|(r' & Hin & Hr')]; [now left|].
        right. exists r'. split; [now right | exact Hr'].
      * intros [H|(r' & [->|Hin] & Hr')]; [now left | | ].
        -- exfalso. destruct E as [E1 E2]. tauto.
        -- right. exists r'. split; assumption.
Qed.

Lemma graph_of_rows_wf rows : graph_wf (graph_of_rows rows).
Proof. apply fold_add_edge_wf. split; constructor. Qed.

Lemma graph_of_rows_has_edge rows u v :
  has_edge (graph_of_rows rows) u v = true
  <-> exists r, In r rows
                /\ ((county_of r = u /\ neighbor_of r = v)
                    \/ (county_of r = v /\ neighbor_of r = u)).
Proof.
  unfold graph_of_rows. rewrite fold_add_edge_has_edge. split.
  - intros [H|H]; [discriminate | exact H].
  - intro H. now right.
Qed.

Lemma at_most_one_edge {W : Type} (G : adjacency W) u v :
  graph_wf G -> (length (edges_between G u v) <= 1)%nat.
Proof.
  intro H. rewrite edges_between_get_edge by exact H.
  destruct (get_edge G u v); simpl; lia.
Qed.

Section Touching.

Variable geometry : Type.
Variable touches : geometry -> geometry -> bool.

Lemma adjacency_records_In (gdf : list (county_shape geometry)) r :
  In r (adjacency_records touches gdf)
  <-> exists A B, In A gdf /\ In B gdf
                  /\ touches (geom B) (geom A) = true
                  /\ r = adjacency_row (key A) (key B).
Proof.
  unfold adjacency_records. rewrite in_flat_map. split.
  - intros (A & HA & Hr). apply in_map_iff in Hr.
    destruct Hr as (B & <- & HB). apply filter_In in HB.
    exists A, B. tauto.
  - intros (A & B & HA & HB & Ht & ->). exists A. split; [exact HA|].
    apply in_map_iff. exists B. split; [reflexivity|].
    apply filter_In. tauto.
Qed.

Lemma build_adjacency_graph_returns
  (gdf : list (county_shape geometry)) adjacency_df G :
  build_adjacency_graph touches gdf = Return (adjacency_df, G) ->
  adjacency_df = sort_values (drop_duplicates (adjacency_records touches gdf))
  /\ G = graph_of_rows adjacency_df.
Proof.
  unfold build_adjacency_graph.
  remember (sort_values (drop_duplicates (adjacency_records touches gdf)))
    as df eqn:Hdf.
  destruct (adjacency_records touches gdf) as [|r0 l]; [discriminate|].
  rewrite <- Hdf. cbv zeta. intro H.
  assert (H1 : df = adjacency_df) by congruence.
  assert (H2 : graph_of_rows df = G) by congruence.
  subst adjacency_df. split; [reflexivity | now symmetry].
Qed.

Lemma adjacency_df_In (gdf : list (county_shape geometry)) adjacency_df G r :
  build_adjacency_graph touches gdf = Return (adjacency_df, G) ->
  In r adjacency_df <-> In r (adjacency_records touches gdf).
Proof.
  intro Hbuild. apply build_adjacency_graph_returns in Hbuild.
  destruct Hbuild as [-> _]. split; intro H.
  - apply (Permutation_in _ (sort_values_perm _)) in H.
    exact (proj1 (drop_duplicates_In _ _) H).
  - apply (Permutation_in _ (Permutation_sym (sort_values_perm _))).
    exact (proj2 (drop_duplicates_In _ _) H).
Qed.

(** C7, as amended.  Provided two rows of the layer whose polygons touch
    never carry the same (state, county) key: as soon as one pair touches
    the operation returns; every touching pair is in the adjacency table
    in both directions and joined both ways in the graph; the table has no
    repeated row and is in ascending order of its four columns; the graph
    has no self-loop, at most one edge between two nodes, and is the same
    whenever it is built from the same layer. *)
Theorem adjacency_of_distinctly_keyed_counties
  (gdf : list (county_shape geometry)) :
  (forall a b, touches a b = touches b a) ->
  (forall A B, In A gdf -> In B gdf ->
               touches (geom A) (geom B) = true -> key A <> key B) ->
  ((exists A B, In A gdf /\ In B gdf /\ touches (geom A) (geom B) = true) ->
   exists result, build_adjacency_graph touches gdf = Return result)
  /\ forall adjacency_df G,
       build_adjacency_graph touches gdf = Return (adjacency_df, G) ->
       (forall A B, In A gdf -> In B gdf ->
                    touches (geom A) (geom B) = true ->
                    In (adjacency_row (key A) (key B)) adjacency_df
                    /\ In (adjacency_row (key B) (key A)) adjacency_df
                    /\ has_edge G (key A) (key B) = true
                    /\ has_edge G (key B) (key A) = true)
       /\ NoDup adjacency_df
       /\ StronglySorted row_le adjacency_df
       /\ (forall n, has_edge G n n = false)
       /\ (forall u v, (length (edges_between G u v) <= 1)%nat)
       /\ (forall adjacency_df' G',
             build_adjacency_graph touches gdf = Return (adjacency_df', G') ->
             edges G' = edges G).
Proof.
  intros Hsym Hkeys. split.
  - intros (A & B & HA & HB & Ht).
    assert (Hin : In (adjacency_row (key B) (key A))
                     (adjacency_records touches gdf)).
    { apply adjacency_records_In. exists B, A. tauto. }
    unfold build_adjacency_graph.
    destruct (adjacency_records touches gdf); [contradiction | eauto].
  - intros adjacency_df G Hbuild.
    pose proof (fun r => adjacency_df_In gdf adjacency_df G r Hbuild) as Hrows.
    destruct (build_adjacency_graph_returns gdf adjacency_df G Hbuild)
      as [Hdf HG].
    split; [|split; [|split; [|split; [|split]]]].
    + intros A B HA HB Ht.
      assert (H1 : In (adjacency_row (key A) (key B)) adjacency_df).
      { apply Hrows, adjacency_records_In. exists A, B.
        rewrite Hsym. tauto. }
      assert (H2 : In (adjacency_row (key B) (key A)) adjacency_df).
      { apply Hrows, adjacency_records_In. exists B, A. tauto. }
      split; [exact H1|]. split; [exact H2|].
      rewrite HG. split; apply graph_of_rows_has_edge;
        exists (adjacency_row (key A) (key B)); (split; [exact H1|]);
        rewrite county_of_adjacency_row, neighbor_of_adjacency_row; tauto.
    + rewrite Hdf.
      apply (Permutation_NoDup (Permutation_sym (sort_values_perm _))).
      apply drop_duplicates_NoDup.
    + rewrite Hdf. apply sort_values_sorted.
    + intro n. destruct (has_edge G n n) eqn:E; [exfalso | reflexivity].
      rewrite HG in E. apply graph_of_rows_has_edge in E.
      destruct E as (r & Hr & Hends).
      apply Hrows, adjacency_records_In in Hr.
      destruct Hr as (A & B & HA & HB & Ht & ->).
      rewrite county_of_adjacency_row, neighbor_of_adjacency_row in Hends.
      apply (Hkeys B A HB HA Ht). destruct Hends as [[<- <-]|[<- <-]]; reflexivity.
    + intros u v. apply at_most_one_edge. rewrite HG. apply graph_of_rows_wf.
    + intros adjacency_df' G' Hbuild'. rewrite Hbuild in Hbuild'.
      now inversion Hbuild'.
Qed.

End Touching.

(** A one-dimensional layer for examples: a county is a segment [lo, hi]
    with [lo < hi], and two segments touch when one ends where the other
    begins. *)
Definition segment : Type := (Z * Z)%type.

Definition segment_touches (a b : segment) : bool :=
  ((fst a <? snd a)%Z && (fst b <? snd b)%Z
   && ((snd a =? fst b)%Z || (snd b =? fst a)%Z))%bool.

Lemma segment_touches_sym a b : segment_touches a b = segment_touches b a.
Proof.
  unfold segment_touches.
  rewrite (andb_comm (fst a <? snd a)%Z), (orb_comm (snd a =? fst b)%Z).
  reflexivity.
Qed.

Lemma segment_touches_irrefl a : segment_touches a a = false.
Proof.
  unfold segment_touches.
  destruct (Z.ltb_spec (fst a) (snd a)); simpl; [|reflexivity].
  destruct (Z.eqb_spec (snd a) (fst a)); simpl; [lia | reflexivity].
Qed.

Definition shape (state county lo hi : Z) : county_shape segment :=
  {| STATE := state; COUNTY := county; geom := (lo, hi) |}.

(** Three counties in a row and a fourth apart from them. *)
Definition three_in_a_row : list (county_shape segment) :=
  [ shape 1 1 0 1; shape 1 3 1 2; shape 1 5 2 3; shape 2 7 10 11 ].

Lemma three_in_a_row_keys A B :
  In A three_in_a_row -> In B three_in_a_row ->
  segment_touches (geom A) (geom B) = true -> key A <> key B.
Proof.
  simpl. intros HA HB.
  repeat (destruct HA as [<-|HA]; [|]); try contradiction;
    repeat (destruct HB as [<-|HB]; [|]); try contradiction;
    vm_compute; intros; discriminate.
Qed.

Lemma adjacency_of_distinctly_keyed_counties_witness :
  exists adjacency_df G,
    build_adjacency_graph segment_touches three_in_a_row
    = Return (adjacency_df, G)
    /\ In (adjacency_row (1, 1)%Z (1, 3)%Z) adjacency_df
    /\ In (adjacency_row (1, 3)%Z (1, 1)%Z) adjacency_df
    /\ has_edge G (1, 1)%Z (1, 3)%Z = true
    /\ has_edge G (1, 3)%Z (1, 1)%Z = true
    /\ NoDup adjacency_df
    /\ StronglySorted row_le adjacency_df
    /\ (forall n, has_edge G n n = false)
    /\ (forall u v, (length (edges_between G u v) <= 1)%nat).
Proof.
  destruct (adjacency_of_distinctly_keyed_counties segment segment_touches
              three_in_a_row segment_touches_sym three_in_a_row_keys)
    as [Hreturns Hprops].
  destruct Hreturns as [[adjacency_df G] Hbuild].
  { exists (shape 1 1 0 1), (shape 1 3 1 2). simpl. auto. }
  exists adjacency_df, G.
  destruct (Hprops adjacency_df G Hbuild)
    as (Hpairs & Hnodup & Hsorted & Hloops & Hedges & _).
  destruct (Hpairs (shape 1 1 0 1) (shape 1 3 1 2)) as (H1 & H2 & H3 & H4);
    [simpl; auto | simpl; auto | reflexivity |].
  repeat split; assumption.
Defined.

Example three_in_a_row_adjacency :
  exists G,
    build_adjacency_graph segment_touches three_in_a_row
    = Return ([ adjacency_row (1, 1)%Z (1, 3)%Z;
                adjacency_row (1, 3)%Z (1, 1)%Z;
                adjacency_row (1, 3)%Z (1, 5)%Z;
                adjacency_row (1, 5)%Z (1, 3)%Z ], G)
    /\ keys G = [ (1, 1)%Z; (1, 3)%Z; (1, 5)%Z ].
Proof. eexists. split; reflexivity. Qed.

(** One county delivered as two touching parts under the same key. *)
Definition county_in_two_parts : list (county_shape segment) :=
  [ shape 1 1 0 1; shape 1 1 1 2 ].

(** C7, as stated, fails: the two parts below touch and carry one key, and
    the graph built from them has a self-loop on that key. *)
Lemma shared_key_gives_self_loop :
  (forall a b, segment_touches a b = segment_touches b a)
  /\ (forall a, segment_touches a a = false)
  /\ exists adjacency_df G,
       build_adjacency_graph segment_touches county_in_two_parts
       = Return (adjacency_df, G)
       /\ adjacency_df = [adjacency_row (1, 1)%Z (1, 1)%Z]
       /\ has_edge G (1, 1)%Z (1, 1)%Z = true.
Proof.
  split; [exact segment_touches_sym|].
  split; [exact segment_touches_irrefl|].
  eexists. eexists. split; [reflexivity|]. split; reflexivity.
Qed.

(** A layer in which nothing touches makes the operation raise: the empty
    record list gives a frame without the columns to sort by. *)
Example lone_county_raises :
  build_adjacency_graph segment_touches [shape 1 1 0 1] = Raise KeyError.
Proof. reflexivity. Qed.

(** ** Self-loops of the PageRank graph *)

Definition is_source (s : node) (r : network_row) : bool := node_eqb (source r) s.

Lemma pagerank_graph_snoc l r :
  pagerank_graph (l ++ [r]) = pagerank_graph_step (pagerank_graph l) r.
Proof. unfold pagerank_graph. now rewrite fold_left_app. Qed.

Lemma pagerank_graph_wf l : graph_wf (pagerank_graph l).
Proof.
  induction l as [|r l IH] using rev_ind.
  - split; constructor.
  - rewrite pagerank_graph_snoc. unfold pagerank_graph_step.
    destruct (has_edge _ _ _); repeat apply DiGraph_add_edge_wf; exact IH.
Qed.

(** The self-loop of [s] after one more row. *)
Lemma self_loop_after_step G r s :
  get_edge (pagerank_graph_step G r) s s
  = if (node_eqb (source r) s && node_eqb (target r) s)%bool
    then Some (metric_Neighbor r)
    else match get_edge G s s with
         | Some w => Some w
         | None => if node_eqb (source r) s then Some (metric_County r) else None
         end.
Proof.
  unfold pagerank_graph_step. cbv zeta.
  set (G1 := DiGraph_add_edge G (source r) (target r) (metric_Neighbor r)).
  assert (HG1 : forall a b,
             get_edge G1 a b
             = if (node_eqb (source r) a && node_eqb (target r) b)%bool
               then Some (metric_Neighbor r) else get_edge G a b).
  { intros a b. apply get_edge_DiGraph_add_edge. }
  rewrite has_edge_get_edge.
  destruct (get_edge G1 (source r) (source r)) as [w1|] eqn:E1.
  - rewrite HG1.
    destruct (node_eqb (source r) s) eqn:Es; cbn [andb].
    + apply node_eqb_eq in Es. subst s.
      destruct (node_eqb (target r) (source r)) eqn:Et; [reflexivity|].
      rewrite HG1, node_eqb_refl, Et in E1. cbn [andb] in E1.
      now rewrite E1.
    + now destruct (get_edge G s s).
  - rewrite get_edge_DiGraph_add_edge, andb_diag, HG1.
    destruct (node_eqb (source r) s) eqn:Es; cbn [andb].
    + apply node_eqb_eq in Es. subst s.
      rewrite HG1, node_eqb_refl in E1. cbn [andb] in E1.
      destruct (node_eqb (target r) (source r)); [discriminate|].
      now rewrite E1.
    + now destruct (get_edge G s s).
Qed.

Lemma self_loop_of_source l s :
  In s (map source l) -> exists w, get_edge (pagerank_graph l) s s = Some w.
Proof.
  induction l as [|r l IH] using rev_ind; [contradiction|].
  rewrite map_app, in_app_iff, pagerank_graph_snoc, self_loop_after_step.
  intros [Hin | [<- | []]].
  - destruct (IH Hin) as [w ->].
    destruct (node_eqb (source r) s && node_eqb (target r) s)%bool; eauto.
  - rewrite node_eqb_refl. cbn [andb].
    destruct (node_eqb (target r) (source r)); [eauto|].
    destruct (get_edge (pagerank_graph l) (source r) (source r)); eauto.
Qed.

Lemma find_snoc {A : Type} (f : A -> bool) (l : list A) (x : A) :
  find f (l ++ [x])
  = match find f l with
    | Some y => Some y
    | None => if f x then Some x else None
    end.
Proof.
  induction l as [|y l IH]; simpl; [reflexivity|].
  now destruct (f y).
Qed.

Lemma self_loop_weight_first_row l s w0 :
  (forall r1, find (is_source s) l = Some r1 -> metric_County r1 = w0) ->
  (forall r, In r l -> source r = s -> target r = s -> metric_Neighbor r = w0) ->
  get_edge (pagerank_graph l) s s
  = match find (is_source s) l with
    | Some _ => Some w0
    | None => None
    end.
Proof.
  induction l as [|r l IH] using rev_ind; intros Hfirst Hself; [reflexivity|].
  rewrite pagerank_graph_snoc, self_loop_after_step.
  rewrite find_snoc in Hfirst |- *.
  rewrite IH.
  2:{ intros r1 Hr1. apply Hfirst. now rewrite Hr1. }
  2:{ intros r' Hr'. apply Hself. apply in_or_app. now left. }
  assert (Hr : source r = s -> target r = s -> metric_Neighbor r = w0).
  { apply Hself. apply in_or_app. right. now left. }
  destruct (node_eqb (source r) s) eqn:Es; cbn [andb].
  - assert (Hsrc : is_source s r = true) by exact Es.
    rewrite Hsrc in Hfirst |- *. apply node_eqb_eq in Es.
    destruct (node_eqb (target r) s) eqn:Et.
    + apply node_eqb_eq in Et. rewrite (Hr Es Et).
      now destruct (find (is_source s) l).
    + destruct (find (is_source s) l); [reflexivity|].
      now rewrite (Hfirst r eq_refl).
  - assert (Hsrc : is_source s r = false) by exact Es. rewrite Hsrc.
    now destruct (find (is_source s) l).
Qed.

Lemma find_source_In l s r1 :
  find (is_source s) l = Some r1 -> In s (map source l).
Proof.
  intro H. apply find_some in H. destruct H as [Hin Hs].
  apply node_eqb_eq in Hs. subst s. now apply in_map.
Qed.

(** On any list of rows, also one that is not a weighted-network table:
    every county that is the source of some row has exactly one self-loop
    in the graph.  Its weight is the county's own metric in the first row
    it is the source of, provided every row that lists the county as its
    own neighbour carries that value as neighbour metric; in particular
    when no row does. *)
Lemma self_loop_of_every_source
  (network_data : list network_row) (s : node) (first_row : network_row) :
  find (is_source s) network_data = Some first_row ->
  (exists w, edges_between (pagerank_graph network_data) s s = [((s, s), w)])
  /\ ((forall r, In r network_data -> source r = s -> target r = s ->
                 metric_Neighbor r = metric_County first_row) ->
      edges_between (pagerank_graph network_data) s s
      = [((s, s), metric_County first_row)]).
Proof.
  intro Hfirst.
  pose proof (pagerank_graph_wf network_data) as Hwf.
  rewrite (edges_between_get_edge _ _ _ Hwf). split.
  - destruct (self_loop_of_source network_data s
                (find_source_In _ _ _ Hfirst)) as [w ->]. eauto.
  - intro Hself.
    rewrite (self_loop_weight_first_row network_data s
               (metric_County first_row)).
    + now rewrite Hfirst.
    + intros r1 Hr1. congruence.
    + exact Hself.
Qed.

Definition net (cs cc ns nc : Z) (mc mn : Q) : network_row :=
  {| YEAR := 2018;
     edge := adjacency_row (cs, cc) (ns, nc);
     metric_County := mc;
     metric_Neighbor := mn |}.

(** County (1,1) is the source of two rows whose copies of its own metric
    differ: the first one is kept. *)
Definition two_rows_one_source : list network_row :=
  [ net 1 1 1 3 10 30; net 1 1 1 5 11 50; net 1 3 1 1 30 10 ].

Example self_loop_on_two_rows_of_one_source :
  (exists w, edges_between (pagerank_graph two_rows_one_source)
               (1, 1)%Z (1, 1)%Z = [(((1, 1)%Z, (1, 1)%Z), w)])
  /\ edges_between (pagerank_graph two_rows_one_source) (1, 1)%Z (1, 1)%Z
     = [(((1, 1)%Z, (1, 1)%Z), 10)].
Proof.
  destruct (self_loop_of_every_source two_rows_one_source (1, 1)%Z
              (net 1 1 1 3 10 30) eq_refl) as [Hone Hweight].
  split; [exact Hone|].
  apply Hweight. intros r Hr Hsrc Htgt.
  simpl in Hr. destruct Hr as [<-|[<-|[<-|[]]]];
    first [discriminate Hsrc | discriminate Htgt].
Defined.

(** ** PageRank of an empty table *)

Lemma set_nonempty {V : Type} (d : @dict V) k v : set d k v <> [].
Proof. destruct d as [|[k0 v0] d]; simpl; [|destruct (node_eqb k0 k)]; discriminate. Qed.

Lemma pagerank_graph_step_nonempty G r : pagerank_graph_step G r <> [].
Proof.
  unfold pagerank_graph_step, DiGraph_add_edge.
  destruct (has_edge _ _ _); apply set_nonempty.
Qed.

Lemma pagerank_graph_nonempty r l : pagerank_graph (r :: l) <> [].
Proof.
  assert (H : forall l' : list network_row, l' <> [] -> pagerank_graph l' <> []).
  { intros l' Hl'. destruct l' as [|r' l'] using rev_ind; [congruence|].
    rewrite pagerank_graph_snoc. apply pagerank_graph_step_nonempty. }
  apply H. discriminate.
Qed.

(** C9, as amended.  On a table without rows the operation raises, and it
    does so while spreading the county key over the two key columns: the
    empty score table yields a key frame without columns, which cannot be
    assigned to two.  The selection of the first row, which the call never
    reaches, raises on an empty table too; and a table with a row always
    hands PageRank a graph with nodes. *)
Theorem pagerank_of_empty_table_raises
  (power_iteration : adjacency Q -> outcome (list (node * Q)))
  (sort_by_pagerank : list Rank.row -> list Rank.row) :
  calculate_pagerank power_iteration sort_by_pagerank [] = Raise ValueError
  /\ @iloc0 Rank.row [] = Raise IndexError
  /\ forall r l, pagerank_graph (r :: l) <> [].
Proof.
  split; [reflexivity|]. split; [reflexivity|].
  exact pagerank_graph_nonempty.
Qed.

(** C9, as stated, fails in where the failure occurs: whatever the kernels
    are, the empty table never gets as far as the IndexError of the
    selection. *)
Lemma empty_table_does_not_reach_selection :
  ~ (exists power_iteration sort_by_pagerank,
        calculate_pagerank power_iteration sort_by_pagerank []
        = Raise IndexError).
Proof.
  intros (power_iteration & sort_by_pagerank & H). discriminate H.
Qed.

(** ** Nodes of a graph built from an adjacency table *)

Lemma get_add_node {W : Type} (G : adjacency W) x n :
  get (add_node G x) n
  = if mem G x then get G n
    else if node_eqb x n then Some [] else get G n.
Proof.
  unfold add_node. destruct (mem G x); [reflexivity | apply get_set].
Qed.

Lemma Graph_add_edge_keeps_others {W : Type} (G : adjacency W) u v w n :
  n <> u -> n <> v -> get (Graph_add_edge G u v w) n = get G n.
Proof.
  intros Hu Hv. unfold Graph_add_edge. rewrite !get_set.
  assert (Eu : node_eqb u n = false) by (apply node_eqb_neq; congruence).
  assert (Ev : node_eqb v n = false) by (apply node_eqb_neq; congruence).
  rewrite Eu, Ev, !get_add_node, Eu, Ev.
  now destruct (mem (add_node G u) v), (mem G u).
Qed.

(** Every node of a graph assembled by [add_edge] alone has a neighbour:
    [build_adjacency_graph] never yields an isolated county, a county
    whose polygon touches no other is not a node of its graph at all. *)
Lemma graph_of_rows_no_isolated_node rows n d :
  get (graph_of_rows rows) n = Some d -> d <> [].
Proof.
  unfold graph_of_rows.
  assert (H : forall G : adjacency unit,
             (forall n d, get G n = Some d -> d <> []) ->
             forall n d,
               get (fold_left (fun G row =>
                                 Graph_add_edge G (county_of row)
                                   (neighbor_of row) tt) rows G) n = Some d ->
               d <> []).
  { induction rows as [|r rows IH]; intros G HG; simpl; [exact HG|].
    apply IH. intros m dm.
    destruct (node_eqb (neighbor_of r) m) eqn:Ev.
    - unfold Graph_add_edge. rewrite get_set, Ev.
      intros [= <-]. apply set_nonempty.
    - destruct (node_eqb (county_of r) m) eqn:Eu.
      + unfold Graph_add_edge. rewrite !get_set, Ev, Eu.
        intros [= <-]. apply set_nonempty.
      + apply node_eqb_neq in Ev, Eu.
        rewrite Graph_add_edge_keeps_others by congruence. apply HG. }
  apply H. intros m dm. discriminate.
Qed.

(** The layer [three_in_a_row] has a fourth county, (2,7), that touches
    nothing: the degree table computed from the graph built on that layer
    has a row for each of the three others and none for it. *)
Example degree_table_of_built_graph :
  exists adjacency_df G,
    build_adjacency_graph segment_touches three_in_a_row
    = Return (adjacency_df, G)
    /\ get_degree_centrality sort_degree_desc G
       = Return [ {| Deg.Degree := 2; Deg.STATE := 1; Deg.COUNTY := 3 |};
                  {| Deg.Degree := 1; Deg.STATE := 1; Deg.COUNTY := 1 |};
                  {| Deg.Degree := 1; Deg.STATE := 1; Deg.COUNTY := 5 |} ].
Proof. eexists. eexists. split; reflexivity. Qed.

(** ** When the adjacency graph is built, and what it holds *)

Lemma mem_In_keys {V : Type} (d : @dict V) k : mem d k = true <-> In k (keys d).
Proof.
  unfold mem. destruct (get d k) as [v|] eqn:E.
  - split; [intros _ | reflexivity]. apply get_In in E.
    apply in_map_iff. now exists (k, v).
  - split; [discriminate|]. intro H. now apply get_None_notin in E.
Qed.

Lemma mem_set {V : Type} (d : @dict V) k v k' :
  mem (set d k v) k' = (node_eqb k k' || mem d k')%bool.
Proof. unfold mem. rewrite get_set. now destruct (node_eqb k k'). Qed.

Lemma mem_Graph_add_edge {W : Type} (G : adjacency W) u v w n :
  mem (Graph_add_edge G u v w) n = (node_eqb u n || node_eqb v n || mem G n)%bool.
Proof.
  unfold Graph_add_edge. rewrite !mem_set, !mem_add_node.
  destruct (node_eqb u n), (node_eqb v n), (mem G n); reflexivity.
Qed.

Lemma mem_DiGraph_add_edge {W : Type} (G : adjacency W) u v w n :
  mem (DiGraph_add_edge G u v w) n = (node_eqb u n || node_eqb v n || mem G n)%bool.
Proof.
  unfold DiGraph_add_edge. rewrite !mem_set, !mem_add_node.
  destruct (node_eqb u n), (node_eqb v n), (mem G n); reflexivity.
Qed.

Lemma graph_of_rows_nodes rows n :
  In n (keys (graph_of_rows rows))
  <-> exists r, In r rows /\ (county_of r = n \/ neighbor_of r = n).
Proof.
  rewrite <- mem_In_keys. unfold graph_of_rows.
  assert (H : forall G : adjacency unit,
             mem (fold_left (fun G row =>
                               Graph_add_edge G (county_of row)
                                 (neighbor_of row) tt) rows G) n = true
             <-> mem G n = true
                 \/ exists r, In r rows
                              /\ (county_of r = n \/ neighbor_of r = n)).
  { induction rows as [|r rows IH]; intro G; simpl.
    - split; [now left | intros [H|(r & [] & _)]; exact H].
    - rewrite IH, mem_Graph_add_edge, !orb_true_iff, !node_eqb_eq. split.
      + intros [[[H|H]|H]|(r' & Hin & Hr')]; eauto 6.
      + intros [H|(r' & [->|Hin] & Hr')]; [tauto | tauto | eauto 6]. }
  rewrite H. split; [intros [Hm|Hr]; [discriminate | exact Hr] | now right].
Qed.

Section Built.

Variable geometry : Type.
Variable touches : geometry -> geometry -> bool.

(** The operation raises KeyError exactly when no row of the layer touches
    any row, and returns otherwise. *)
Theorem build_adjacency_graph_raises_iff_nothing_touches
  (gdf : list (county_shape geometry)) :
  (build_adjacency_graph touches gdf = Raise KeyError
   <-> forall A B, In A gdf -> In B gdf ->
                   touches (geom B) (geom A) = false)
  /\ ((exists result, build_adjacency_graph touches gdf = Return result)
      <-> exists A B, In A gdf /\ In B gdf
                      /\ touches (geom B) (geom A) = true).
Proof.
  assert (Hrec : adjacency_records touches gdf = []
                 <-> forall A B, In A gdf -> In B gdf ->
                                 touches (geom B) (geom A) = false).
  { split.
    - intros Hnil A B HA HB.
      destruct (touches (geom B) (geom A)) eqn:Ht; [|reflexivity].
      assert (Hin : In (adjacency_row (key A) (key B))
                       (adjacency_records touches gdf)).
      { apply adjacency_records_In. exists A, B. tauto. }
      rewrite Hnil in Hin. contradiction.
    - intro Hnone.
      destruct (adjacency_records touches gdf) as [|r l] eqn:E; [reflexivity|].
      assert (Hin : In r (adjacency_records touches gdf)) by (rewrite E; now left).
      apply adjacency_records_In in Hin.
      destruct Hin as (A & B & HA & HB & Ht & _).
      rewrite (Hnone A B HA HB) in Ht. discriminate. }
  unfold build_adjacency_graph.
  destruct (adjacency_records touches gdf) as [|r l] eqn:E; split.
  - split; [intros _; now apply Hrec | reflexivity].
  - split; [intros [result H]; discriminate H|].
    intros (A & B & HA & HB & Ht).
    rewrite (proj1 Hrec eq_refl A B HA HB) in Ht. discriminate.
  - split; [discriminate|]. intro Hnone. apply Hrec in Hnone. discriminate.
  - split; [|eauto]. intros _.
    assert (Hin : In r (adjacency_records touches gdf)) by (rewrite E; now left).
    apply adjacency_records_In in Hin.
    destruct Hin as (A & B & HA & HB & Ht & _). eauto.
Qed.

(** The graph that is built holds exactly the touching pairs: two keys are
    joined if and only if some rows of the layer carrying them touch, and a
    key is a node if and only if a row carrying it touches, or is touched
    by, some row. *)
Theorem built_graph_holds_the_touching_pairs
  (gdf : list (county_shape geometry)) (adjacency_df : list Adjacency.row)
  (G : adjacency unit) :
  build_adjacency_graph touches gdf = Return (adjacency_df, G) ->
  (forall u v,
     has_edge G u v = true
     <-> exists A B, In A gdf /\ In B gdf
                     /\ touches (geom B) (geom A) = true
                     /\ ((key A = u /\ key B = v) \/ (key A = v /\ key B = u)))
  /\ (forall n,
        In n (keys G)
        <-> exists A B, In A gdf /\ In B gdf
                        /\ touches (geom B) (geom A) = true
                        /\ (key A = n \/ key B = n)).
Proof.
  intro Hbuild.
  pose proof (fun r => adjacency_df_In geometry touches gdf adjacency_df G r Hbuild)
    as Hrows.
  destruct (build_adjacency_graph_returns geometry touches gdf adjacency_df G Hbuild)
    as [_ ->].
  split.
  - intros u v. rewrite graph_of_rows_has_edge. split.
    + intros (r & Hr & Hends). apply Hrows, adjacency_records_In in Hr.
      destruct Hr as (A & B & HA & HB & Ht & ->).
      rewrite county_of_adjacency_row, neighbor_of_adjacency_row in Hends.
      exists A, B. tauto.
    + intros (A & B & HA & HB & Ht & Hends).
      exists (adjacency_row (key A) (key B)). split.
      * apply Hrows, adjacency_records_In. exists A, B. tauto.
      * now rewrite county_of_adjacency_row, neighbor_of_adjacency_row.
  - intro n. rewrite graph_of_rows_nodes. split.
    + intros (r & Hr & Hends). apply Hrows, adjacency_records_In in Hr.
      destruct Hr as (A & B & HA & HB & Ht & ->).
      rewrite county_of_adjacency_row, neighbor_of_adjacency_row in Hends.
      exists A, B. tauto.
    + intros (A & B & HA & HB & Ht & Hends).
      exists (adjacency_row (key A) (key B)). split.
      * apply Hrows, adjacency_records_In. exists A, B. tauto.
      * now rewrite county_of_adjacency_row, neighbor_of_adjacency_row.
Qed.

End Built.

Lemma built_graph_holds_the_touching_pairs_witness :
  exists adjacency_df G,
    build_adjacency_graph segment_touches three_in_a_row
    = Return (adjacency_df, G)
    /\ has_edge G (1, 3)%Z (1, 5)%Z = true
    /\ has_edge G (1, 1)%Z (1, 5)%Z = false
    /\ ~ In (2, 7)%Z (keys G).
Proof.
  destruct (build_adjacency_graph segment_touches three_in_a_row)
    as [[adjacency_df G]|] eqn:E; [|vm_compute in E; discriminate E].
  exists adjacency_df, G. split; [reflexivity|].
  destruct (built_graph_holds_the_touching_pairs segment segment_touches
              three_in_a_row adjacency_df G E) as [Hedges Hnodes].
  assert (Hcases : forall A B : county_shape segment,
             In A three_in_a_row -> In B three_in_a_row ->
             segment_touches (geom B) (geom A) = true ->
             (key A = (1, 1)%Z /\ key B = (1, 3)%Z)
             \/ (key A = (1, 3)%Z /\ key B = (1, 1)%Z)
             \/ (key A = (1, 3)%Z /\ key B = (1, 5)%Z)
             \/ (key A = (1, 5)%Z /\ key B = (1, 3)%Z)).
  { intros A B HA HB. simpl in HA, HB.
    repeat (destruct HA as [<-|HA]; [|]); try contradiction;
      repeat (destruct HB as [<-|HB]; [|]); try contradiction;
      intro Ht; try discriminate Ht; unfold key; simpl; tauto. }
  split; [|split].
  - apply Hedges. exists (shape 1 3 1 2), (shape 1 5 2 3).
    simpl. repeat split; auto.
  - destruct (has_edge G (1, 1)%Z (1, 5)%Z) eqn:Eh; [exfalso | reflexivity].
    apply Hedges in Eh. destruct Eh as (A & B & HA & HB & Ht & Hends).
    destruct (Hcases A B HA HB Ht) as [[Ha Hb]|[[Ha Hb]|[[Ha Hb]|[Ha Hb]]]];
      rewrite Ha, Hb in Hends; destruct Hends as [[H1 H2]|[H1 H2]];
      discriminate.
  - intro Hn. apply Hnodes in Hn. destruct Hn as (A & B & HA & HB & Ht & Hends).
    destruct (Hcases A B HA HB Ht) as [[Ha Hb]|[[Ha Hb]|[[Ha Hb]|[Ha Hb]]]];
      rewrite Ha, Hb in Hends; destruct Hends as [H1|H1]; discriminate.
Defined.

(** ** The degree table *)

Definition degree_ge (a b : Deg.row) : Prop := (Deg.Degree b <= Deg.Degree a)%nat.

(** What the descending sort of the degree table delivers. *)
Definition sorts_by_degree (sorter : list Deg.row -> list Deg.row) : Prop :=
  forall l, Permutation (sorter l) l /\ StronglySorted degree_ge (sorter l).

Definition county_key (r : Deg.row) : node := (Deg.STATE r, Deg.COUNTY r).

Lemma sort_degree_desc_sorts : sorts_by_degree sort_degree_desc.
Proof.
  intro l. split; [apply Sort.insertion_sort_perm|].
  unfold sort_degree_desc.
  eapply StronglySorted_ind with
    (P := fun l' => StronglySorted degree_ge l');
    [constructor | | apply Sort.insertion_sort_sorted].
  - intros a l' _ IH Ha. constructor; [exact IH|].
    eapply Forall_impl; [|exact Ha]. intros b Hb. unfold degree_ge.
    now apply Nat.leb_le.
  - intros a b H. apply Nat.leb_gt in H. apply Nat.leb_le. lia.
  - intros a b c H1 H2. apply Nat.leb_le in H1, H2. apply Nat.leb_le. lia.
Qed.

Lemma degree_rows_of_entries (G : adjacency unit) r :
  graph_wf G ->
  In r (map (fun d => {| Deg.Degree := snd d;
                         Deg.STATE := fst (fst d);
                         Deg.COUNTY := snd (fst d) |}) (degree_view G)) ->
  In (county_key r) (keys G)
  /\ get G (county_key r) = Some (neighbors G (county_key r))
  /\ Deg.Degree r
     = (length (keys (neighbors G (county_key r)))
        + if has_edge G (county_key r) (county_key r) then 1 else 0)%nat.
Proof.
  intros [Hkeys _] Hr. apply in_map_iff in Hr. destruct Hr as ([n deg] & <- & Hd).
  unfold degree_view in Hd. apply in_map_iff in Hd.
  destruct Hd as ([n' d] & Heq & Hin). simpl in Heq. inversion Heq; subst n' deg.
  unfold county_key. simpl. replace (fst n, snd n) with n by now destruct n.
  pose proof (In_get _ _ _ Hkeys Hin) as Hget.
  split; [apply in_map_iff; now exists (n, d)|].
  unfold neighbors, has_edge. rewrite Hget. split; [reflexivity|].
  unfold keys. now rewrite length_map.
Qed.

(** The degree table of a graph without nodes cannot be assembled and the
    operation raises ValueError.  For any other graph it has exactly one
    row per node, in descending order of degree, and the degree of a node
    is the number of its distinct neighbours, a self-loop counting once
    more. *)
Theorem degree_table_counts_distinct_neighbours
  (sort_by_degree : list Deg.row -> list Deg.row)
  (adjacency_graph : adjacency unit) :
  sorts_by_degree sort_by_degree ->
  graph_wf adjacency_graph ->
  (adjacency_graph = [] ->
   get_degree_centrality sort_by_degree adjacency_graph = Raise ValueError)
  /\ (adjacency_graph <> [] ->
      exists degree_df,
        get_degree_centrality sort_by_degree adjacency_graph = Return degree_df
        /\ Permutation (map county_key degree_df) (keys adjacency_graph)
        /\ StronglySorted degree_ge degree_df
        /\ forall r, In r degree_df ->
             exists nbrs,
               NoDup nbrs
               /\ (forall v, In v nbrs
                             <-> has_edge adjacency_graph (county_key r) v = true)
               /\ Deg.Degree r
                  = (length nbrs
                     + if has_edge adjacency_graph (county_key r) (county_key r)
                       then 1 else 0)%nat).
Proof.
  intros Hsort Hwf. split.
  - intros ->. reflexivity.
  - intro Hne. unfold get_degree_centrality.
    assert (Hw : tuple_frame_width (map fst (degree_view adjacency_graph)) = 2%nat).
    { destruct adjacency_graph; [congruence | reflexivity]. }
    rewrite Hw. cbn [assign_columns length Nat.eqb bind].
    eexists. split; [reflexivity|].
    set (rows := map (fun d : node * nat =>
                        {| Deg.Degree := snd d;
                           Deg.STATE := fst (fst d);
                           Deg.COUNTY := snd (fst d) |})
                     (degree_view adjacency_graph)).
    destruct (Hsort rows) as [Hperm Hsorted].
    split; [|split; [exact Hsorted|]].
    + eapply perm_trans; [apply Permutation_map, Hperm|].
      unfold rows, degree_view, keys. rewrite !map_map.
      erewrite map_ext; [apply Permutation_refl|].
      intros [n d]. unfold county_key. simpl. now destruct n.
    + intros r Hr. apply (Permutation_in _ Hperm) in Hr.
      destruct (degree_rows_of_entries adjacency_graph r Hwf Hr)
        as (_ & Hget & Hdeg).
      exists (keys (neighbors adjacency_graph (county_key r))).
      split; [now apply neighbors_wf|]. split; [|exact Hdeg].
      intro v. rewrite <- mem_In_keys. unfold has_edge. rewrite Hget. tauto.
Qed.

Lemma degree_table_counts_distinct_neighbours_witness :
  get_degree_centrality sort_degree_desc [] = Raise ValueError
  /\ exists degree_df,
       get_degree_centrality sort_degree_desc graph_with_isolate
       = Return degree_df
       /\ Permutation (map county_key degree_df) [(1, 1); (1, 3); (2, 5)]%Z
       /\ StronglySorted degree_ge degree_df.
Proof.
  split.
  - apply (degree_table_counts_distinct_neighbours sort_degree_desc []
             sort_degree_desc_sorts); [split; constructor | reflexivity].
  - destruct (degree_table_counts_distinct_neighbours sort_degree_desc
                graph_with_isolate sort_degree_desc_sorts graph_with_isolate_wf)
      as [_ H].
    destruct H as (df & Hdf & Hperm & Hsorted & _); [discriminate|].
    exists df. split; [exact Hdf|]. split; [exact Hperm | exact Hsorted].
Defined.

Section BuiltDegrees.

Variable geometry : Type.
Variable touches : geometry -> geometry -> bool.

(** Computed on the graph that [build_adjacency_graph] returns, the degree
    table has a row only for counties that touch, or are touched by, some
    row of the layer, and every degree in it is at least 1: a county
    bordering no other is missing from the table rather than listed with
    degree 0. *)
Theorem degree_table_of_built_graph_omits_isolated_counties
  (sort_by_degree : list Deg.row -> list Deg.row)
  (gdf : list (county_shape geometry)) (adjacency_df : list Adjacency.row)
  (G : adjacency unit) :
  (forall l, Permutation (sort_by_degree l) l) ->
  build_adjacency_graph touches gdf = Return (adjacency_df, G) ->
  exists degree_df,
    get_degree_centrality sort_by_degree G = Return degree_df
    /\ forall r, In r degree_df ->
         (1 <= Deg.Degree r)%nat
         /\ exists A B, In A gdf /\ In B gdf
                        /\ touches (geom B) (geom A) = true
                        /\ (key A = county_key r \/ key B = county_key r).
Proof.
  intros Hsort Hbuild.
  pose proof (fun r => adjacency_df_In geometry touches gdf adjacency_df G r Hbuild)
    as Hrows.
  destruct (build_adjacency_graph_returns geometry touches gdf adjacency_df G Hbuild)
    as [Hdf ->].
  assert (Hne : adjacency_df <> []).
  { unfold build_adjacency_graph in Hbuild.
    destruct (adjacency_records touches gdf) as [|r0 l] eqn:E; [discriminate|].
    assert (Hin : In r0 adjacency_df) by (apply Hrows; now left).
    intro Hnil. rewrite Hnil in Hin. contradiction. }
  assert (HG : graph_of_rows adjacency_df <> []).
  { destruct adjacency_df as [|r0 rest]; [congruence|].
    intro Hnil.
    assert (Hn : In (county_of r0) (keys (graph_of_rows (r0 :: rest)))).
    { apply graph_of_rows_nodes. exists r0. split; [now left | now left]. }
    rewrite Hnil in Hn. contradiction. }
  unfold get_degree_centrality.
  assert (Hw : tuple_frame_width
                 (map fst (degree_view (graph_of_rows adjacency_df))) = 2%nat).
  { destruct (graph_of_rows adjacency_df); [congruence | reflexivity]. }
  rewrite Hw. cbn [assign_columns length Nat.eqb bind].
  eexists. split; [reflexivity|].
  intros r Hr. apply (Permutation_in _ (Hsort _)) in Hr.
  destruct (degree_rows_of_entries _ r (graph_of_rows_wf adjacency_df) Hr)
    as (Hnode & Hget & Hdeg).
  split.
  - pose proof (graph_of_rows_no_isolated_node _ _ _ Hget) as Hnonempty.
    rewrite Hdeg. unfold keys. rewrite length_map.
    destruct (neighbors (graph_of_rows adjacency_df) (county_key r));
      [congruence | simpl; lia].
  - apply graph_of_rows_nodes in Hnode. destruct Hnode as (row & Hrow & Hends).
    apply Hrows, adjacency_records_In in Hrow.
    destruct Hrow as (A & B & HA & HB & Ht & ->).
    rewrite county_of_adjacency_row, neighbor_of_adjacency_row in Hends.
    exists A, B. tauto.
Qed.

End BuiltDegrees.

Lemma degree_table_of_built_graph_witness :
  exists adjacency_df G degree_df,
    build_adjacency_graph segment_touches three_in_a_row
    = Return (adjacency_df, G)
    /\ get_degree_centrality sort_degree_desc G = Return degree_df
    /\ forall r, In r degree_df -> (1 <= Deg.Degree r)%nat.
Proof.
  destruct (build_adjacency_graph segment_touches three_in_a_row)
    as [[adjacency_df G]|] eqn:E; [|vm_compute in E; discriminate E].
  destruct (degree_table_of_built_graph_omits_isolated_counties segment
              segment_touches sort_degree_desc three_in_a_row adjacency_df G
              (fun l => Sort.insertion_sort_perm _ l) E) as (df & Hdf & Hrows).
  exists adjacency_df, G, df. split; [reflexivity|]. split; [exact Hdf|].
  intros r Hr. exact (proj1 (Hrows r Hr)).
Defined.

(** ** Neighbour edges and nodes of the PageRank graph *)

Definition joins (s t : node) (r : network_row) : bool :=
  (node_eqb (source r) s && node_eqb (target r) t)%bool.

Lemma neighbour_edge_after_step G r s t :
  s <> t ->
  get_edge (pagerank_graph_step G r) s t
  = if joins s t r then Some (metric_Neighbor r) else get_edge G s t.
Proof.
  intro Hst. unfold pagerank_graph_step, joins. cbv zeta.
  assert (Hself : forall G' : adjacency Q,
             get_edge (DiGraph_add_edge G' (source r) (source r)
                         (metric_County r)) s t = get_edge G' s t).
  { intro G'. rewrite get_edge_DiGraph_add_edge.
    destruct (node_eqb (source r) s) eqn:Es; [|reflexivity].
    destruct (node_eqb (source r) t) eqn:Et; [|reflexivity].
    apply node_eqb_eq in Es, Et. congruence. }
  destruct (has_edge _ _ _); rewrite ?Hself; apply get_edge_DiGraph_add_edge.
Qed.

Lemma neighbour_edge_last_row l s t :
  s <> t ->
  get_edge (pagerank_graph l) s t
  = option_map metric_Neighbor (find (joins s t) (rev l)).
Proof.
  intro Hst. induction l as [|r l IH] using rev_ind; [reflexivity|].
  rewrite pagerank_graph_snoc, neighbour_edge_after_step by exact Hst.
  rewrite rev_app_distr. cbn [rev app find].
  destruct (joins s t r); [reflexivity | exact IH].
Qed.

(** Between two different counties the graph has an edge exactly when some
    row of the table joins them in that direction, a single one, and its
    weight is the neighbour metric of the last such row: for a repeated
    pair the later row overwrites the earlier. *)
Theorem neighbour_edge_carries_the_last_weight
  (network_data : list network_row) (s t : node) :
  s <> t ->
  edges_between (pagerank_graph network_data) s t
  = match find (joins s t) (rev network_data) with
    | Some r => [((s, t), metric_Neighbor r)]
    | None => []
    end.
Proof.
  intro Hst.
  rewrite (edges_between_get_edge _ _ _ (pagerank_graph_wf network_data)).
  rewrite (neighbour_edge_last_row _ _ _ Hst).
  now destruct (find (joins s t) (rev network_data)).
Qed.

(** The pair (1,1) -> (1,3) is listed twice, with weights 30 and then 31. *)
Definition repeated_pair : list network_row :=
  [ net 1 1 1 3 10 30; net 1 3 1 1 30 10; net 1 1 1 3 10 31 ].

Lemma neighbour_edge_carries_the_last_weight_witness :
  edges_between (pagerank_graph repeated_pair) (1, 1)%Z (1, 3)%Z
  = [(((1, 1)%Z, (1, 3)%Z), 31)]
  /\ edges_between (pagerank_graph repeated_pair) (1, 3)%Z (1, 5)%Z = [].
Proof.
  split.
  - apply (neighbour_edge_carries_the_last_weight repeated_pair
             (1, 1)%Z (1, 3)%Z). discriminate.
  - apply (neighbour_edge_carries_the_last_weight repeated_pair
             (1, 3)%Z (1, 5)%Z). discriminate.
Defined.

Lemma pagerank_graph_step_mem G r n :
  mem (pagerank_graph_step G r) n
  = (node_eqb (source r) n || node_eqb (target r) n || mem G n)%bool.
Proof.
  unfold pagerank_graph_step. cbv zeta.
  destruct (has_edge _ _ _); rewrite ?mem_DiGraph_add_edge; [reflexivity|].
  destruct (node_eqb (source r) n), (node_eqb (target r) n); reflexivity.
Qed.

Lemma pagerank_graph_step_keeps_other_rows G r n :
  source r <> n -> get (pagerank_graph_step G r) n
                   = if mem G n then get G n
                     else if node_eqb (target r) n then Some [] else None.
Proof.
  intro Hn. apply node_eqb_neq in Hn.
  assert (Hadd : forall (G' : adjacency Q) v w,
             get (DiGraph_add_edge G' (source r) v w) n
             = get (add_node (add_node G' (source r)) v) n).
  { intros G' v w. unfold DiGraph_add_edge. rewrite get_set. now rewrite Hn. }
  assert (Hnode : forall (G' : adjacency Q) v,
             get (add_node (add_node G' (source r)) v) n
             = if mem G' n then get G' n
               else if node_eqb v n then Some [] else None).
  { intros G' v.
    assert (H1 : get (add_node G' (source r)) n = get G' n).
    { rewrite get_add_node, Hn. now destruct (mem G' (source r)). }
    rewrite get_add_node, H1.
    destruct (node_eqb v n) eqn:Evn.
    - apply node_eqb_eq in Evn. subst v.
      rewrite mem_add_node, Hn. cbn [orb].
      unfold mem. now destruct (get G' n).
    - unfold mem at 2. destruct (get G' n); now destruct (mem _ v). }
  unfold pagerank_graph_step. cbv zeta.
  destruct (has_edge _ _ _).
  - now rewrite Hadd, Hnode.
  - rewrite Hadd, Hnode, mem_DiGraph_add_edge, Hadd, Hnode, Hn. cbn [orb].
    now destruct (node_eqb (target r) n), (mem G n).
Qed.

Lemma pagerank_graph_nodes l n :
  mem (pagerank_graph l) n = true
  <-> exists r, In r l /\ (source r = n \/ target r = n).
Proof.
  induction l as [|r l IH] using rev_ind.
  - split; [discriminate | intros (r & [] & _)].
  - rewrite pagerank_graph_snoc, pagerank_graph_step_mem, !orb_true_iff,
      !node_eqb_eq, IH. split.
    + intros [[H|H]|(r' & Hin & Hr')].
      * exists r. split; [apply in_or_app; right; now left | now left].
      * exists r. split; [apply in_or_app; right; now left | now right].
      * exists r'. split; [apply in_or_app; now left | exact Hr'].
    + intros (r' & Hin & Hr'). apply in_app_or in Hin.
      destruct Hin as [Hin|[<-|[]]]; [right; eauto | tauto].
Qed.

Lemma pagerank_graph_dangling l n :
  (forall r, In r l -> source r <> n) ->
  get (pagerank_graph l) n = if mem (pagerank_graph l) n then Some [] else None.
Proof.
  induction l as [|r l IH] using rev_ind; intro Hno; [reflexivity|].
  assert (Hr : source r <> n) by (apply Hno; apply in_or_app; right; now left).
  assert (Hl : forall r', In r' l -> source r' <> n).
  { intros r' Hr'. apply Hno. apply in_or_app. now left. }
  rewrite pagerank_graph_snoc, pagerank_graph_step_keeps_other_rows by exact Hr.
  rewrite pagerank_graph_step_mem, (IH Hl).
  apply node_eqb_neq in Hr. rewrite Hr. cbn [orb].
  destruct (mem (pagerank_graph l) n); [now rewrite orb_true_r|].
  rewrite orb_false_r. now destruct (node_eqb (target r) n).
Qed.

(** The nodes of the graph are the counties the table names as a source or
    as a neighbour.  A county that is only ever a neighbour has no outgoing
    edge at all, not even a self-loop. *)
Theorem pagerank_graph_nodes_and_dangling_counties
  (network_data : list network_row) (n : node) :
  (In n (keys (pagerank_graph network_data))
   <-> exists r, In r network_data /\ (source r = n \/ target r = n))
  /\ ((forall r, In r network_data -> source r <> n) ->
      forall t, edges_between (pagerank_graph network_data) n t = []).
Proof.
  split.
  - rewrite <- mem_In_keys. apply pagerank_graph_nodes.
  - intros Hno t.
    rewrite (edges_between_get_edge _ _ _ (pagerank_graph_wf network_data)).
    unfold get_edge, neighbors. rewrite (pagerank_graph_dangling _ _ Hno).
    now destruct (mem (pagerank_graph network_data) n).
Qed.

Lemma pagerank_graph_nodes_and_dangling_counties_witness :
  In (1, 5)%Z (keys (pagerank_graph two_rows_one_source))
  /\ forall t, edges_between (pagerank_graph two_rows_one_source) (1, 5)%Z t = [].
Proof.
  destruct (pagerank_graph_nodes_and_dangling_counties two_rows_one_source
              (1, 5)%Z) as [Hnodes Hdangling].
  split.
  - apply Hnodes. exists (net 1 1 1 5 11 50). split; [simpl; auto | now right].
  - apply Hdangling. intros r Hr. simpl in Hr.
    destruct Hr as [<-|[<-|[<-|[]]]]; discriminate.
Defined.

(** ** The county reported by [calculate_pagerank] *)

Definition rank_ge (a b : Rank.row) : Prop := Rank.PageRank b <= Rank.PageRank a.

(** What the descending sort of the PageRank table delivers. *)
Definition sorts_by_pagerank (sorter : list Rank.row -> list Rank.row) : Prop :=
  forall l, Permutation (sorter l) l /\ StronglySorted rank_ge (sorter l).

Definition rank_row (s : node * Q) : Rank.row :=
  {| Rank.PageRank := snd s;
     Rank.County_STATE := fst (fst s);
     Rank.COUNTY := snd (fst s) |}.

(** When the operation returns, the table was not empty and PageRank gave a
    score to at least one county; the table holds one row per score; and
    the county reported beside it is a row of the table whose score no
    other row exceeds. *)
Theorem pagerank_reports_a_top_county
  (power_iteration : adjacency Q -> outcome (list (node * Q)))
  (sort_by_pagerank : list Rank.row -> list Rank.row)
  (network_data : list network_row) (pagerank_df : list Rank.row)
  (s c : Z) (p : Q) :
  sorts_by_pagerank sort_by_pagerank ->
  calculate_pagerank power_iteration sort_by_pagerank network_data
  = Return (pagerank_df, (s, c, p)) ->
  network_data <> []
  /\ (exists scores,
        power_iteration (pagerank_graph network_data) = Return scores
        /\ scores <> []
        /\ Permutation pagerank_df (map rank_row scores))
  /\ (exists rest,
        pagerank_df
        = {| Rank.PageRank := p; Rank.County_STATE := s; Rank.COUNTY := c |}
          :: rest)
  /\ forall r, In r pagerank_df -> Rank.PageRank r <= p.
Proof.
  intros Hsort Hcalc. unfold calculate_pagerank in Hcalc. cbv zeta in Hcalc.
  destruct (pagerank_graph network_data) as [|e G] eqn:EG; [discriminate Hcalc|].
  cbn [nx_pagerank] in Hcalc.
  destruct (power_iteration (e :: G)) as [scores|] eqn:Hp; [|discriminate Hcalc].
  cbn [bind] in Hcalc.
  destruct scores as [|sc scores]; [discriminate Hcalc|].
  cbn [map tuple_frame_width assign_columns length Nat.eqb bind] in Hcalc.
  change (map (fun s0 : Z * Z * Q =>
                 {| Rank.PageRank := snd s0;
                    Rank.County_STATE := fst (fst s0);
                    Rank.COUNTY := snd (fst s0) |}) scores)
    with (map rank_row scores) in Hcalc.
  change ({| Rank.PageRank := snd sc;
             Rank.County_STATE := fst (fst sc);
             Rank.COUNTY := snd (fst sc) |}) with (rank_row sc) in Hcalc.
  destruct (Hsort (rank_row sc :: map rank_row scores)) as [Hperm Hsorted].
  destruct (sort_by_pagerank (rank_row sc :: map rank_row scores))
    as [|top rest] eqn:Hdf; [cbn [iloc0 bind] in Hcalc; discriminate Hcalc|].
  cbn [iloc0 bind] in Hcalc.
  assert (Hdf' : pagerank_df = top :: rest) by congruence.
  assert (Hs : Rank.County_STATE top = s) by congruence.
  assert (Hc : Rank.COUNTY top = c) by congruence.
  assert (Hpr : Rank.PageRank top = p) by congruence.
  subst pagerank_df s c p.
  split; [intros ->; discriminate EG|].
  split.
  { exists (sc :: scores). split; [reflexivity|]. split; [discriminate|].
    exact Hperm. }
  split; [exists rest; now destruct top|].
  inversion Hsorted as [|? ? _ Htop]; subst.
  intros r [<-|Hr]; [apply Qle_refl|].
  rewrite Forall_forall in Htop. exact (Htop r Hr).
Qed.

(** Stand-ins for the kernels when evaluating examples: every node scores
    the same share, and rows are sorted by insertion. *)
Definition uniform_scores (G : adjacency Q) : outcome (list (node * Q)) :=
  Return (map (fun e => (fst e, 1 # Pos.of_nat (length G))) G).

Definition sort_pagerank_desc : list Rank.row -> list Rank.row :=
  Sort.insertion_sort
    (fun a b => Qle_bool (Rank.PageRank b) (Rank.PageRank a)).

Lemma sort_pagerank_desc_sorts : sorts_by_pagerank sort_pagerank_desc.
Proof.
  intro l. split; [apply Sort.insertion_sort_perm|].
  unfold sort_pagerank_desc.
  eapply StronglySorted_ind with
    (P := fun l' => StronglySorted rank_ge l');
    [constructor | | apply Sort.insertion_sort_sorted].
  - intros a l' _ IH Ha. constructor; [exact IH|].
    eapply Forall_impl; [|exact Ha]. intros b Hb. unfold rank_ge.
    now apply Qle_bool_iff.
  - intros a b H. apply Qle_bool_iff.
    destruct (Qlt_le_dec (Rank.PageRank a) (Rank.PageRank b)) as [Hlt|Hle].
    + now apply Qlt_le_weak.
    + apply Qle_bool_iff in Hle. congruence.
  - intros a b c H1 H2. apply Qle_bool_iff in H1, H2. apply Qle_bool_iff.
    now apply Qle_trans with (Rank.PageRank b).
Qed.

Lemma pagerank_reports_a_top_county_witness :
  exists pagerank_df s c p,
    calculate_pagerank uniform_scores sort_pagerank_desc two_rows_one_source
    = Return (pagerank_df, (s, c, p))
    /\ length pagerank_df = 3%nat
    /\ forall r, In r pagerank_df -> Rank.PageRank r <= p.
Proof.
  destruct (calculate_pagerank uniform_scores sort_pagerank_desc
              two_rows_one_source) as [[df [[s c] p]]|] eqn:E;
    [|vm_compute in E; discriminate E].
  exists df, s, c, p. split; [reflexivity|].
  destruct (pagerank_reports_a_top_county uniform_scores sort_pagerank_desc
              two_rows_one_source df s c p sort_pagerank_desc_sorts E)
    as (_ & (scores & Hscores & _ & Hperm) & _ & Htop).
  split; [|exact Htop].
  rewrite (Permutation_length Hperm), length_map.
  vm_compute in Hscores. inversion Hscores. reflexivity.
Defined.

(** ** A county of the layer without adjacency edges *)

Section IsolatedCounty.

Variable geometry : Type.
Variable touches : geometry -> geometry -> bool.

(** No row carrying key [c] touches, or is touched by, a row of the layer. *)
Definition has_no_adjacency_edges (gdf : list (county_shape geometry))
  (c : node) : Prop :=
  forall A B, In A gdf -> In B gdf -> touches (geom B) (geom A) = true ->
              key A <> c /\ key B <> c.

(** C5, as amended.  A county of the layer without adjacency edges is not
    a node of the graph that is built, and the degree table computed from
    that graph has no row for it; no row of the table carries degree 0. *)
Theorem isolated_county_has_no_degree_row
  (sort_by_degree : list Deg.row -> list Deg.row)
  (gdf : list (county_shape geometry)) (adjacency_df : list Adjacency.row)
  (G : adjacency unit) (c : node) :
  (forall l, Permutation (sort_by_degree l) l) ->
  build_adjacency_graph touches gdf = Return (adjacency_df, G) ->
  has_no_adjacency_edges gdf c ->
  ~ In c (keys G)
  /\ exists degree_df,
       get_degree_centrality sort_by_degree G = Return degree_df
       /\ (forall r, In r degree_df -> (Deg.STATE r, Deg.COUNTY r) <> c)
       /\ (forall r, In r degree_df -> Deg.Degree r <> 0%nat).
Proof.
  intros Hsort Hbuild Hiso.
  pose proof (fun r => adjacency_df_In geometry touches gdf adjacency_df G r Hbuild)
    as Hrows.
  destruct (build_adjacency_graph_returns geometry touches gdf adjacency_df G Hbuild)
    as [Hdf ->].
  assert (Hnot : ~ In c (keys (graph_of_rows adjacency_df))).
  { intro Hnode. apply graph_of_rows_nodes in Hnode.
    destruct Hnode as (row & Hrow & Hends).
    apply Hrows, adjacency_records_In in Hrow.
    destruct Hrow as (A & B & HA & HB & Ht & ->).
    rewrite county_of_adjacency_row, neighbor_of_adjacency_row in Hends.
    destruct (Hiso A B HA HB Ht) as [HnA HnB]. tauto. }
  split; [exact Hnot|].
  assert (Hw : tuple_frame_width
                 (map fst (degree_view (graph_of_rows adjacency_df))) = 2%nat).
  { destruct (graph_of_rows adjacency_df) as [|e G'] eqn:EG; [|reflexivity].
    exfalso. unfold build_adjacency_graph in Hbuild.
    destruct (adjacency_records touches gdf) as [|r0 l] eqn:E; [discriminate|].
    assert (Hin : In r0 adjacency_df) by (apply Hrows; now left).
    assert (Hn : In (county_of r0) (keys (graph_of_rows adjacency_df))).
    { apply graph_of_rows_nodes. exists r0. split; [exact Hin | now left]. }
    rewrite EG in Hn. contradiction. }
  unfold get_degree_centrality.
  rewrite Hw. cbn [assign_columns length Nat.eqb bind].
  eexists. split; [reflexivity|]. split.
  - intros r Hr Hkey. apply (Permutation_in _ (Hsort _)) in Hr.
    destruct (degree_rows_of_entries _ r (graph_of_rows_wf adjacency_df) Hr)
      as (Hnode & _). unfold county_key in Hnode. rewrite Hkey in Hnode.
    contradiction.
  - intros r Hr. apply (Permutation_in _ (Hsort _)) in Hr.
    destruct (degree_rows_of_entries _ r (graph_of_rows_wf adjacency_df) Hr)
      as (_ & Hget & Hdeg).
    pose proof (graph_of_rows_no_isolated_node _ _ _ Hget) as Hnonempty.
    rewrite Hdeg. unfold keys. rewrite length_map.
    destruct (neighbors (graph_of_rows adjacency_df) (county_key r));
      [congruence | simpl; lia].
Qed.

End IsolatedCounty.

Lemma lone_county_has_no_adjacency_edges :
  has_no_adjacency_edges segment segment_touches three_in_a_row (2, 7)%Z.
Proof.
  intros A B HA HB. simpl in HA, HB.
  repeat (destruct HA as [<-|HA]; [|]); try contradiction;
    repeat (destruct HB as [<-|HB]; [|]); try contradiction;
    vm_compute; intro Ht; try discriminate Ht; split; discriminate.
Qed.

Lemma isolated_county_has_no_degree_row_witness :
  exists adjacency_df G,
    build_adjacency_graph segment_touches three_in_a_row
    = Return (adjacency_df, G)
    /\ ~ In (2, 7)%Z (keys G)
    /\ exists degree_df,
         get_degree_centrality sort_degree_desc G = Return degree_df
         /\ (forall r, In r degree_df ->
                       (Deg.STATE r, Deg.COUNTY r) <> (2, 7)%Z)
         /\ (forall r, In r degree_df -> Deg.Degree r <> 0%nat).
Proof.
  destruct (build_adjacency_graph segment_touches three_in_a_row)
    as [[adjacency_df G]|] eqn:E; [|vm_compute in E; discriminate E].
  exists adjacency_df, G. split; [reflexivity|].
  apply (isolated_county_has_no_degree_row segment segment_touches
           sort_degree_desc three_in_a_row adjacency_df G (2, 7)%Z
           (fun l => Sort.insertion_sort_perm _ l) E
           lone_county_has_no_adjacency_edges).
Defined.

(** C5, as stated, fails on [three_in_a_row]: county (2,7) is a row of the
    layer and touches no row, and the degree table of the graph built on
    the layer holds no degree for it, neither 0 nor any other. *)
Lemma isolated_county_is_given_no_degree :
  In (shape 2 7 10 11) three_in_a_row
  /\ (forall B, In B three_in_a_row ->
        segment_touches (geom B) (geom (shape 2 7 10 11)) = false
        /\ segment_touches (geom (shape 2 7 10 11)) (geom B) = false)
  /\ exists adjacency_df G degree_df,
       build_adjacency_graph segment_touches three_in_a_row
       = Return (adjacency_df, G)
       /\ get_degree_centrality sort_degree_desc G = Return degree_df
       /\ forall r, In r degree_df ->
                    (Deg.STATE r, Deg.COUNTY r) <> (2, 7)%Z.
Proof.
  split; [simpl; tauto|]. split.
  - intros B HB. simpl in HB.
    repeat (destruct HB as [<-|HB]; [split; reflexivity|]). contradiction.
  - eexists. eexists. eexists. split; [reflexivity|]. split; [reflexivity|].
    intros r Hr. simpl in Hr.
    repeat (destruct Hr as [<-|Hr]; [discriminate|]). contradiction.
Qed.

(* ------------------------------------------------------------------ *)
(** ** [prepare_weighted_network_data] *)
(* ------------------------------------------------------------------ *)

(** A row of the economic table, reduced to the columns the operation
    reads: the county key, the year and the chosen metric, which may be
    missing. *)
Module Econ.
Record row : Type := {
  STATE : Z;
  COUNTY : Z;
  YEAR : Z;
  metric : option Q
}.
End Econ.

Definition econ_key (r : Econ.row) : node := (Econ.STATE r, Econ.COUNTY r).

(** A row of [metric_data]: one per county of the year. *)
Record metric_row : Type := {
  mkey : node;
  myear : Z;
  mvalue : option Q
}.

Definition present (vals : list (option Q)) : list Q :=
  flat_map (fun v => match v with Some q => [q] | None => [] end) vals.

(** The mean of a group: missing values are skipped, and a group with
    nothing but missing values has a missing mean. *)
Definition mean_skipna (vals : list (option Q)) : option Q :=
  match present vals with
  | [] => None
  | qs => Some (Sklearn.mean qs)
  end.

Definition node_ltb (a b : node) : bool :=
  ((fst a <? fst b)%Z || ((fst a =? fst b)%Z && (snd a <? snd b)%Z))%bool.

Fixpoint insert_key (k : node) (l : list node) : list node :=
  match l with
  | [] => [k]
  | k' :: l' =>
      if node_ltb k k' then k :: l
      else if node_eqb k k' then l
      else k' :: insert_key k l'
  end.

(** The keys of [groupby]: every county of the rows once, ascending. *)
Definition county_groups (rows : list Econ.row) : list node :=
  fold_right insert_key [] (map econ_key rows).

(** Lines 53-55: the mean of the metric per county, over the rows of the
    year. *)
Definition metric_data (data : list Econ.row) (year : Z) : list metric_row :=
  let selected := filter (fun r => (Econ.YEAR r =? year)%Z) data in
  map (fun k =>
         {| mkey := k;
            myear := year;
            mvalue := mean_skipna
                        (map Econ.metric
                           (filter (fun r => node_eqb (econ_key r) k) selected)) |})
      (county_groups selected).

(** [left.merge(metric_data, how='left')] on a county key: every left row,
    in order, once per matching row of [metric_data], and once with
    nothing beside it when none matches. *)
Definition merge_left {A : Type} (key_of : A -> node) (left : list A)
  (right : list metric_row) : list (A * option metric_row) :=
  flat_map
    (fun a =>
       match filter (fun m => node_eqb (mkey m) (key_of a)) right with
       | [] => [(a, None)]
       | ms => map (fun m => (a, Some m)) ms
       end)
    left.

(** [dropna()] on the selected columns: a row stays when the year and the
    metric of the county, and the metric of the neighbour, are present. *)
Definition dropna_row (x : (Adjacency.row * option metric_row) * option metric_row)
  : list network_row :=
  match x with
  | ((e, Some mc), Some mn) =>
      match mvalue mc, mvalue mn with
      | Some c, Some n =>
          [ {| YEAR := myear mc; edge := e;
               metric_County := c; metric_Neighbor := n |} ]
      | _, _ => []
      end
  | _ => []
  end.

(** [prepare_weighted_network_data], on an adjacency table with its four
    columns and an economic table with the key, year and metric columns. *)
Definition prepare_weighted_network_data (adjacency_df : list Adjacency.row)
  (data : list Econ.row) (year : Z) : list network_row :=
  let metric_data := metric_data data year in
  let merged := merge_left county_of adjacency_df metric_data in
  let final := merge_left (fun x => neighbor_of (fst x)) merged metric_data in
  flat_map dropna_row final.

(** The mean metric of a county in a year, when it has one. *)
Definition county_metric (data : list Econ.row) (year : Z) (k : node) : option Q :=
  mean_skipna
    (map Econ.metric
       (filter (fun r => node_eqb (econ_key r) k)
          (filter (fun r => (Econ.YEAR r =? year)%Z) data))).

Lemma node_ltb_irrefl k : node_ltb k k = false.
Proof.
  unfold node_ltb. rewrite !Z.ltb_irrefl. now rewrite andb_false_r.
Qed.

Lemma insert_key_In k l x : In x (insert_key k l) <-> x = k \/ In x l.
Proof.
  induction l as [|k' l IH]; simpl; [intuition|].
  destruct (node_ltb k k'); [simpl; intuition|].
  destruct (node_eqb k k') eqn:E.
  - apply node_eqb_eq in E. subst k'. simpl. intuition.
  - simpl. rewrite IH. intuition.
Qed.

Definition node_lt (a b : node) : Prop := node_ltb a b = true.

Lemma node_lt_trans a b c : node_lt a b -> node_lt b c -> node_lt a c.
Proof.
  unfold node_lt, node_ltb. rewrite !orb_true_iff, !andb_true_iff.
  rewrite !Z.ltb_lt, !Z.eqb_eq. lia.
Qed.

Lemma node_ltb_total a b :
  node_ltb a b = false -> node_eqb a b = false -> node_lt b a.
Proof.
  unfold node_lt, node_ltb, node_eqb.
  rewrite !orb_false_iff, !andb_false_iff, orb_true_iff, andb_true_iff.
  rewrite !Z.ltb_ge, !Z.ltb_lt, !Z.eqb_neq, Z.eqb_eq. lia.
Qed.

Lemma insert_key_sorted k l :
  StronglySorted node_lt l -> StronglySorted node_lt (insert_key k l).
Proof.
  induction 1 as [|k' l Hs IH Hk']; simpl.
  - constructor; constructor.
  - destruct (node_ltb k k') eqn:E1.
    + constructor; [now constructor|].
      constructor; [exact E1|]. eapply Forall_impl; [|exact Hk'].
      intros z Hz. now apply node_lt_trans with k'.
    + destruct (node_eqb k k') eqn:E2; [now constructor|].
      constructor; [exact IH|].
      apply Forall_forall. intros z Hz. apply insert_key_In in Hz.
      destruct Hz as [->|Hz]; [now apply node_ltb_total|].
      rewrite Forall_forall in Hk'. now apply Hk'.
Qed.

Lemma county_groups_sorted rows : StronglySorted node_lt (county_groups rows).
Proof.
  unfold county_groups. induction (map econ_key rows) as [|k l IH]; simpl.
  - constructor.
  - now apply insert_key_sorted.
Qed.

Lemma county_groups_In rows k :
  In k (county_groups rows) <-> exists r, In r rows /\ econ_key r = k.
Proof.
  unfold county_groups.
  assert (H : In k (map econ_key rows) <-> exists r, In r rows /\ econ_key r = k).
  { rewrite in_map_iff. split; intros (r & H1 & H2); exists r; tauto. }
  rewrite <- H. clear H.
  induction (map econ_key rows) as [|k' l IH]; simpl; [tauto|].
  rewrite insert_key_In, IH. intuition.
Qed.

Lemma sorted_keys_filter (f : node -> metric_row) (l : list node) k :
  (forall x, mkey (f x) = x) ->
  StronglySorted node_lt l ->
  filter (fun m => node_eqb (mkey m) k) (map f l)
  = if existsb (node_eqb k) l then [f k] else [].
Proof.
  intros Hf. induction 1 as [|x l Hs IH Hx]; simpl; [reflexivity|].
  rewrite Hf, IH, (node_eqb_sym k x).
  destruct (node_eqb x k) eqn:E; simpl; [|reflexivity].
  apply node_eqb_eq in E. subst x.
  destruct (existsb (node_eqb k) l) eqn:Ex; [|reflexivity].
  apply existsb_exists in Ex. destruct Ex as (y & Hy & Eq).
  apply node_eqb_eq in Eq. subst y.
  rewrite Forall_forall in Hx. specialize (Hx k Hy).
  unfold node_lt in Hx. rewrite node_ltb_irrefl in Hx. discriminate.
Qed.

(** The rows of [metric_data] matching a key: at most one, holding the
    county's mean; a county without rows in the year has no mean. *)
Lemma metric_data_lookup data year k :
  match filter (fun m => node_eqb (mkey m) k) (metric_data data year) with
  | [] => county_metric data year k = None
  | [m] => myear m = year /\ mvalue m = county_metric data year k
  | _ => False
  end.
Proof.
  unfold metric_data. cbv zeta.
  set (selected := filter (fun r => (Econ.YEAR r =? year)%Z) data).
  match goal with
  | |- context [map ?f (county_groups selected)] =>
      rewrite (sorted_keys_filter f _ k (fun x => eq_refl) (county_groups_sorted selected))
  end.
  destruct (existsb (node_eqb k) (county_groups selected)) eqn:Ex.
  - split; reflexivity.
  - unfold county_metric. fold selected.
    replace (filter (fun r => node_eqb (econ_key r) k) selected) with (@nil Econ.row);
      [reflexivity|].
    symmetry.
    destruct (filter (fun r => node_eqb (econ_key r) k) selected) as [|r l] eqn:Ef;
      [reflexivity|].
    assert (Hr : In r (filter (fun r => node_eqb (econ_key r) k) selected))
      by (rewrite Ef; now left).
    apply filter_In in Hr. destruct Hr as [Hsel Hk]. apply node_eqb_eq in Hk.
    assert (Hin : In k (county_groups selected))
      by (apply county_groups_In; eauto).
    assert (Hex : existsb (node_eqb k) (county_groups selected) = true).
    { apply existsb_exists. exists k. split; [exact Hin | apply node_eqb_refl]. }
    congruence.
Qed.

Lemma flat_map_compose {A B C : Type} (f : B -> list C) (g : A -> list B) l :
  flat_map f (flat_map g l) = flat_map (fun x => flat_map f (g x)) l.
Proof.
  induction l as [|a l IH]; simpl; [reflexivity|].
  now rewrite flat_map_app, IH.
Qed.

(** What one adjacency row becomes: itself with the two means beside it
    when both counties have one, and nothing otherwise. *)
Definition weighted_row (data : list Econ.row) (year : Z) (e : Adjacency.row)
  : list network_row :=
  match county_metric data year (county_of e),
        county_metric data year (neighbor_of e) with
  | Some c, Some n =>
      [ {| YEAR := year; edge := e; metric_County := c; metric_Neighbor := n |} ]
  | _, _ => []
  end.

Lemma prepare_weighted_network_data_rows adjacency_df data year :
  prepare_weighted_network_data adjacency_df data year
  = flat_map (weighted_row data year) adjacency_df.
Proof.
  unfold prepare_weighted_network_data, merge_left. cbv zeta.
  rewrite !flat_map_compose. apply flat_map_ext. intros e.
  unfold weighted_row.
  pose proof (metric_data_lookup data year (county_of e)) as Hc.
  pose proof (metric_data_lookup data year (neighbor_of e)) as Hn.
  destruct (filter (fun m => node_eqb (mkey m) (county_of e)) (metric_data data year))
    as [|mc [|mc' l]]; [| |contradiction].
  - rewrite Hc. cbn [flat_map fst app].
    destruct (filter (fun m => node_eqb (mkey m) (neighbor_of e)) (metric_data data year))
      as [|mn [|mn' l']]; [| |contradiction].
    + reflexivity.
    + reflexivity.
  - destruct Hc as [Hy Hc]. cbn [map flat_map fst app].
    destruct (filter (fun m => node_eqb (mkey m) (neighbor_of e)) (metric_data data year))
      as [|mn [|mn' l']]; [| |contradiction].
    + rewrite Hn. cbn [flat_map dropna_row app map].
      now destruct (county_metric data year (county_of e)).
    + destruct Hn as [_ Hn]. cbn [flat_map dropna_row app map].
      rewrite Hc, Hn, Hy.
      destruct (county_metric data year (county_of e));
        destruct (county_metric data year (neighbor_of e)); reflexivity.
Qed.

Definition has_metric (data : list Econ.row) (year : Z) (k : node) : bool :=
  match county_metric data year k with Some _ => true | None => false end.

(** The operation only drops adjacency rows: what it returns are, in their
    order and each once, the rows whose county and neighbour both have a
    mean metric in the year. *)
Theorem weighted_rows_are_the_adjacency_rows_with_both_metrics
  (adjacency_df : list Adjacency.row) (data : list Econ.row) (year : Z) :
  map edge (prepare_weighted_network_data adjacency_df data year)
  = filter (fun e => has_metric data year (county_of e)
                     && has_metric data year (neighbor_of e))
      adjacency_df.
Proof.
  rewrite prepare_weighted_network_data_rows.
  induction adjacency_df as [|e l IH]; simpl; [reflexivity|].
  rewrite map_app, IH. unfold weighted_row, has_metric.
  destruct (county_metric data year (county_of e));
    destruct (county_metric data year (neighbor_of e)); reflexivity.
Qed.

Lemma weighted_row_In data year e r :
  In r (weighted_row data year e) ->
  YEAR r = year /\ edge r = e
  /\ county_metric data year (county_of e) = Some (metric_County r)
  /\ county_metric data year (neighbor_of e) = Some (metric_Neighbor r).
Proof.
  unfold weighted_row.
  destruct (county_metric data year (county_of e)) as [c|]; [|intros []].
  destruct (county_metric data year (neighbor_of e)) as [n|]; [|intros []].
  intros [<-|[]]. simpl. auto.
Qed.

Lemma weighted_rows_metrics adjacency_df data year r :
  In r (prepare_weighted_network_data adjacency_df data year) ->
  YEAR r = year
  /\ In (edge r) adjacency_df
  /\ county_metric data year (source r) = Some (metric_County r)
  /\ county_metric data year (target r) = Some (metric_Neighbor r).
Proof.
  rewrite prepare_weighted_network_data_rows, in_flat_map.
  intros (e & He & Hr). apply weighted_row_In in Hr.
  destruct Hr as (Hy & Hedge & Hc & Hn). unfold source, target.
  rewrite Hedge. auto.
Qed.

(** Every returned row carries the requested year, and its two metrics
    are the mean metrics of its county and of its neighbour over the
    rows of that year: the same county has the same metric in every row,
    on either side. *)
Theorem weighted_rows_carry_the_county_means
  (adjacency_df : list Adjacency.row) (data : list Econ.row) (year : Z)
  (r : network_row)
  (Hr : In r (prepare_weighted_network_data adjacency_df data year)) :
  YEAR r = year
  /\ In (edge r) adjacency_df
  /\ county_metric data year (source r) = Some (metric_County r)
  /\ county_metric data year (target r) = Some (metric_Neighbor r).
Proof.
  rewrite prepare_weighted_network_data_rows, in_flat_map in Hr.
  destruct Hr as (e & He & Hr). unfold weighted_row, source, target in *.
  destruct (county_metric data year (county_of e)) as [c|] eqn:Hc; [|contradiction].
  destruct (county_metric data year (neighbor_of e)) as [n|] eqn:Hn; [|contradiction].
  destruct Hr as [<-|[]]. cbn [YEAR edge metric_County metric_Neighbor].
  repeat split; assumption.
Qed.

Lemma In_edges_get_edge (G : adjacency Q) s t w :
  graph_wf G -> In ((s, t), w) (edges G) -> get_edge G s t = Some w.
Proof.
  intros Hwf Hin.
  assert (Hb : In ((s, t), w) (edges_between G s t)).
  { unfold edges_between. apply filter_In. split; [exact Hin|].
    cbn [fst snd]. now rewrite !node_eqb_refl. }
  rewrite (edges_between_get_edge _ _ _ Hwf) in Hb.
  destruct (get_edge G s t) as [w'|]; [|contradiction].
  destruct Hb as [Hb|[]]. congruence.
Qed.

Lemma prepared_self_loop adjacency_df data year s :
  get_edge (pagerank_graph (prepare_weighted_network_data adjacency_df data year)) s s
  = match find (is_source s)
            (prepare_weighted_network_data adjacency_df data year) with
    | Some _ => county_metric data year s
    | None => None
    end.
Proof.
  set (T := prepare_weighted_network_data adjacency_df data year).
  assert (Hsrc : forall r, In r T -> source r = s ->
                           county_metric data year s = Some (metric_County r)).
  { intros r Hr <-. now apply (weighted_rows_metrics adjacency_df data year r). }
  assert (Htgt : forall r, In r T -> target r = s ->
                           county_metric data year s = Some (metric_Neighbor r)).
  { intros r Hr <-. now apply (weighted_rows_metrics adjacency_df data year r). }
  destruct (find (is_source s) T) as [r1|] eqn:Hfind.
  - pose proof (find_some _ _ Hfind) as [Hin Hs]. apply node_eqb_eq in Hs.
    rewrite (self_loop_weight_first_row T s (metric_County r1)).
    + rewrite Hfind. symmetry. now apply Hsrc.
    + intros r Hr. congruence.
    + intros r Hr Hs' Ht. specialize (Hsrc r1 Hin Hs). specialize (Htgt r Hr Ht).
      congruence.
  - rewrite (self_loop_weight_first_row T s 0).
    + now rewrite Hfind.
    + intros r Hr. congruence.
    + intros r Hr Hs' _. pose proof (find_none _ _ Hfind r Hr) as Hno.
      unfold is_source in Hno. rewrite Hs', node_eqb_refl in Hno. discriminate.
Qed.

(** The two operations composed: in the graph built from the prepared
    table every edge, the self-loops included, is weighted with the mean
    metric of the county it points to. *)
Theorem prepared_graph_weights_are_the_target_means
  (adjacency_df : list Adjacency.row) (data : list Econ.row) (year : Z)
  (s t : node) (w : Q)
  (Hedge : In ((s, t), w)
             (edges (pagerank_graph
                       (prepare_weighted_network_data adjacency_df data year)))) :
  county_metric data year t = Some w.
Proof.
  apply In_edges_get_edge in Hedge; [|apply pagerank_graph_wf].
  destruct (node_eqb s t) eqn:Est.
  - apply node_eqb_eq in Est. subst t.
    rewrite prepared_self_loop in Hedge.
    destruct (find _ _); [exact Hedge | discriminate].
  - apply node_eqb_neq in Est.
    rewrite (neighbour_edge_last_row _ _ _ Est) in Hedge.
    destruct (find _ _) as [r|] eqn:Hfind; [|discriminate].
    apply find_some in Hfind. destruct Hfind as [Hin Hj].
    apply in_rev in Hin. unfold joins in Hj.
    apply andb_true_iff in Hj. destruct Hj as [_ Ht]. apply node_eqb_eq in Ht.
    cbn [option_map] in Hedge. injection Hedge as <-. subst t.
    now apply (weighted_rows_metrics adjacency_df data year r).
Qed.

Definition econ (s c y : Z) (m : option Q) : Econ.row :=
  {| Econ.STATE := s; Econ.COUNTY := c; Econ.YEAR := y; Econ.metric := m |}.

(** County (1,1) has two rows in 2018, county (1,5) a missing metric, and
    county (1,7) no row of that year. *)
Definition county_table : list Econ.row :=
  [ econ 1 3 2018 (Some 30); econ 1 1 2018 (Some 10); econ 1 1 2018 (Some 20);
    econ 1 5 2018 None; econ 1 3 2019 (Some 99); econ 1 7 2019 (Some 70) ].

Definition county_pairs : list Adjacency.row :=
  [ adjacency_row (1, 1)%Z (1, 3)%Z; adjacency_row (1, 1)%Z (1, 5)%Z;
    adjacency_row (1, 3)%Z (1, 1)%Z; adjacency_row (1, 5)%Z (1, 1)%Z;
    adjacency_row (1, 3)%Z (1, 7)%Z ].

Lemma weighted_rows_carry_the_county_means_witness :
  YEAR (net 1 1 1 3 (30 # 2) 30) = 2018%Z
  /\ In (edge (net 1 1 1 3 (30 # 2) 30)) county_pairs
  /\ county_metric county_table 2018 (source (net 1 1 1 3 (30 # 2) 30))
     = Some (metric_County (net 1 1 1 3 (30 # 2) 30))
  /\ county_metric county_table 2018 (target (net 1 1 1 3 (30 # 2) 30))
     = Some (metric_Neighbor (net 1 1 1 3 (30 # 2) 30)).
Proof.
  apply (weighted_rows_carry_the_county_means county_pairs county_table 2018).
  left. reflexivity.
Defined.

Lemma prepared_graph_weights_are_the_target_means_witness :
  county_metric county_table 2018 (1, 1)%Z = Some (30 # 2).
Proof.
  apply (prepared_graph_weights_are_the_target_means
           county_pairs county_table 2018 (1, 3)%Z (1, 1)%Z).
  vm_compute. right. right. left. reflexivity.
Defined.

(* ------------------------------------------------------------------ *)
(** ** Self-loops in the graph of a weighted-network table *)
(* ------------------------------------------------------------------ *)


(** County (1,1) borders two counties and, delivered in two touching
    parts, also itself. *)
Definition county_pairs_with_self_pair : list Adjacency.row :=
  [ adjacency_row (1, 1)%Z (1, 1)%Z; adjacency_row (1, 1)%Z (1, 3)%Z;
    adjacency_row (1, 1)%Z (1, 5)%Z; adjacency_row (1, 3)%Z (1, 1)%Z;
    adjacency_row (1, 5)%Z (1, 1)%Z ].

Definition county_table_2018 : list Econ.row :=
  [ econ 1 1 2018 (Some 10); econ 1 3 2018 (Some 30); econ 1 5 2018 (Some 50);
    econ 1 1 2019 (Some 11) ].


Example weighted_table_of_county_pairs :
  prepare_weighted_network_data county_pairs_with_self_pair county_table_2018 2018
  = [ net 1 1 1 1 10 10; net 1 1 1 3 10 30; net 1 1 1 5 10 50;
      net 1 3 1 1 30 10; net 1 5 1 1 50 10 ].
Proof. reflexivity. Qed.

End Spatial.
